(** * Chain-reaction session server: a shallow embedding of [main.py]

    The development models the move path of the server ([move_endpoint],
    [process_reactions], [get_neighbors], [ensure_game_initialized],
    [broadcast]) as pure functions over an explicit store, and proves the
    properties of the reaction engine and of the move processor.

    Modelling conventions.
    - Python integers are unbounded: counts and request coordinates are [Z].
      Indices produced by [range] are naturals.
    - A cell is a Python dict that the program only ever builds as [{}] or as
      [{"owner": p, "count": n}]; it is the inductive [cell].
    - The module-level dicts are finite maps keyed by strings.  Every
      [asyncio.Queue] of [subscribers] is unbounded and is represented by the
      list of messages put on it so far, oldest first.
    - [state.dict()] builds a fresh copy of the state, so a published message
      is a value of type [GameState.t].
    - One request is run to completion: the [await]s of a handler are not
      interleaved with other handlers.  The pacing [asyncio.sleep] has no
      effect on the store and is not represented.
    - The [while] loop of [process_reactions] takes a fuel argument; running
      out of fuel is the outcome [Diverge]. *)

From Stdlib Require Import ZArith Lia Permutation.
From stdpp Require Import base numbers option list gmap strings fin_maps relations.

Local Open Scope Z_scope.

(* ================================================================== *)
(** ** Data model *)
(* ================================================================== *)

Inductive Role : Set := RED | BLUE.

#[global] Instance Role_eq_dec : EqDecision Role.
Proof. solve_decision. Defined.

(** ["BLUE" if player == "RED" else "RED"] *)
Definition other_role (player : Role) : Role :=
  match player with RED => BLUE | BLUE => RED end.

(** A board cell: [{}] or [{"owner": owner, "count": count}]. *)
Inductive cell : Set :=
  | Empty
  | Owned (owner : Role) (count : Z).

#[global] Instance cell_eq_dec : EqDecision cell.
Proof. solve_decision. Defined.

(** [cell.get("owner")] *)
Definition cell_owner (c : cell) : option Role :=
  match c with Empty => None | Owned o _ => Some o end.

(** [cell.get("count", 0)] *)
Definition cell_count (c : cell) : Z :=
  match c with Empty => 0 | Owned _ n => n end.

Abbreviation Grid := (list (list cell)).

Module Move.
Record t : Set := mk { token : string; x : Z; y : Z }.
End Move.

Module GameState.
Record t : Set := mk { id : string; grid : Grid; current_player : Role }.
End GameState.

(** The opening-move flags of one game, [{"RED": b1, "BLUE": b2}]. *)
Record Flags : Set := mkFlags { red_done : bool; blue_done : bool }.

Definition flag_get (f : Flags) (r : Role) : bool :=
  match r with RED => red_done f | BLUE => blue_done f end.

Definition flag_set (f : Flags) (r : Role) (b : bool) : Flags :=
  match r with
  | RED => mkFlags b (blue_done f)
  | BLUE => mkFlags (red_done f) b
  end.

(** One subscriber queue: the messages put on it so far. *)
Abbreviation Queue := (list GameState.t).

(** The module-level storage of the server. *)
Record Store : Type := mkStore {
  games : gmap string GameState.t;
  subscribers : gmap string (list Queue);
  initial_moves_done : gmap string Flags;
  player_tokens : gmap string (string * Role)
}.

Definition set_games (s : Store) (g : gmap string GameState.t) : Store :=
  mkStore g (subscribers s) (initial_moves_done s) (player_tokens s).

Definition set_subscribers (s : Store) (q : gmap string (list Queue)) : Store :=
  mkStore (games s) q (initial_moves_done s) (player_tokens s).

Definition set_initial_moves_done (s : Store) (f : gmap string Flags) : Store :=
  mkStore (games s) (subscribers s) f (player_tokens s).

(** Exceptions and outcomes of a handler. *)
Inductive error : Set := KeyError | IndexError.

Inductive result (A : Type) : Type :=
  | Return (a : A)
  | Raise (e : error)
  | Diverge.
Arguments Return {A} a.
Arguments Raise {A} e.
Arguments Diverge {A}.

#[global] Instance result_ret : MRet result := fun A a => Return a.

#[global] Instance result_bind : MBind result := fun A B k m =>
  match m with
  | Return a => k a
  | Raise e => Raise e
  | Diverge => Diverge
  end.

Definition from_option {A : Type} (e : error) (o : option A) : result A :=
  match o with Some a => Return a | None => Raise e end.

(** What the move handler answers. *)
Inductive Response : Set :=
  | Ok                                  (* {"ok": True} *)
  | Error (detail : string)             (* {"error": detail} *)
  | HTTP401 (detail : string).          (* HTTPException(status_code=401) *)

(* ================================================================== *)
(** ** Helpers *)
(* ================================================================== *)

(** [[[{} for _ in range(5)] for _ in range(5)]] *)
Definition new_empty_grid : Grid := replicate 5 (replicate 5 Empty).

Definition new_game (gid : string) : GameState.t :=
  GameState.mk gid new_empty_grid RED.

(** [d.setdefault(k, v)] *)
Definition setdefault {V : Type} (k : string) (v : V) (d : gmap string V) : gmap string V :=
  match d !! k with Some _ => d | None => <[k := v]> d end.

Definition ensure_game_initialized (gid : string) (s : Store) : Store :=
  mkStore
    (setdefault gid (new_game gid) (games s))
    (setdefault gid [] (subscribers s))
    (setdefault gid (mkFlags false false) (initial_moves_done s))
    (player_tokens s).

(** [for q in list(subscribers.get(gid, [])): await q.put(msg)] *)
Definition broadcast (gid : string) (msg : GameState.t) (s : Store) : Store :=
  set_subscribers s (alter (fmap (fun q : Queue => q ++ [msg])) gid (subscribers s)).

Definition get_neighbors (x y w h : nat) : list (nat * nat) :=
  (if bool_decide (0 < x)%nat then [((x - 1)%nat, y)] else []) ++
  (if bool_decide (x < w - 1)%nat then [((x + 1)%nat, y)] else []) ++
  (if bool_decide (0 < y)%nat then [(x, (y - 1)%nat)] else []) ++
  (if bool_decide (y < h - 1)%nat then [(x, (y + 1)%nat)] else []).

(** [grid[y][x]]; indices are shown to be in range wherever the program
    reads, the default only makes the function total. *)
Definition grid_get (g : Grid) (x y : nat) : cell :=
  match g !! y with
  | Some row => default Empty (row !! x)
  | None => Empty
  end.

(** [grid[y][x] = c] *)
Definition grid_set (g : Grid) (x y : nat) (c : cell) : Grid :=
  alter (fun row => <[x := c]> row) y g.

(* ================================================================== *)
(** ** Reactions *)
(* ================================================================== *)

(** An entry of [to_explode]: [(x, y, grid[y][x]["owner"])]. *)
Abbreviation Blast := (nat * nat * Role)%type.

(** The test and [append] of the scan for one cell. *)
Definition scan_cell (g : Grid) (x y : nat) : list Blast :=
  match grid_get g x y with
  | Owned o n => if bool_decide (4 <= n) then [(x, y, o)] else []
  | Empty => []
  end.

(** The two nested [for] loops that fill [to_explode], row by row. *)
Definition scan (g : Grid) (w h : nat) : list Blast :=
  flat_map (fun y => flat_map (fun x => scan_cell g x y) (seq 0 w)) (seq 0 h).

(** [ncell = grid[ny][nx]; grid[ny][nx] = {"owner": owner, "count": ncell.get("count", 0) + 1}] *)
Definition bump (owner : Role) (g : Grid) (n : nat * nat) : Grid :=
  let ncell := grid_get g n.1 n.2 in
  grid_set g n.1 n.2 (Owned owner (cell_count ncell + 1)).

(** The body of [for x, y, owner in to_explode]. *)
Definition explode (w h : nat) (g : Grid) (b : Blast) : Grid :=
  let '(x, y, owner) := b in
  foldl (bump owner) (grid_set g x y Empty) (get_neighbors x y w h).

(** One wave: all collected cells, in the order of the scan. *)
Definition explode_all (w h : nat) (g : Grid) (to_explode : list Blast) : Grid :=
  foldl (explode w h) g to_explode.

Definition wave (w h : nat) (g : Grid) : Grid :=
  explode_all w h g (scan g w h).

(** The [while changed] loop.  [changed] is set by every non-empty wave, so
    the loop is only left through [break]. *)
Fixpoint reaction_loop (fuel : nat) (w h : nat) (g : Grid) : result Grid :=
  match fuel with
  | O => Diverge
  | S fuel' =>
      match scan g w h with
      | [] => Return g
      | to_explode => reaction_loop fuel' w h (explode_all w h g to_explode)
      end
  end.

Definition set_grid (st : GameState.t) (g : Grid) : GameState.t :=
  GameState.mk (GameState.id st) g (GameState.current_player st).

Definition set_current_player (st : GameState.t) (p : Role) : GameState.t :=
  GameState.mk (GameState.id st) (GameState.grid st) p.

(** [grid[0]] *)
Definition first_row (g : Grid) : result (list cell) :=
  from_option IndexError (g !! 0%nat).

Definition process_reactions (fuel : nat) (gid : string) (player : Role) (s : Store)
  : result Store :=
  state ← from_option KeyError (games s !! gid);
  let grid := GameState.grid state in
  row0 ← first_row grid;
  let w := length row0 in
  let h := length grid in
  grid' ← reaction_loop fuel w h grid;
  Return (set_games s (<[gid := set_grid state grid']> (games s))).

(* ================================================================== *)
(** ** Moves *)
(* ================================================================== *)

Definition move_endpoint (fuel : nat) (move : Move.t) (s : Store)
  : result (Response * Store) :=
  match player_tokens s !! Move.token move with
  | None => Return (HTTP401 "Invalid token", s)
  | Some (gid, player) =>
      let s := ensure_game_initialized gid s in
      state ← from_option KeyError (games s !! gid);
      let grid := GameState.grid state in
      row0 ← first_row grid;
      if bool_decide (Move.y move < 0) || bool_decide (Move.y move >= Z.of_nat (length grid))
         || bool_decide (Move.x move < 0) || bool_decide (Move.x move >= Z.of_nat (length row0))
      then Return (Error "Invalid coordinates", s)
      else
        let x := Z.to_nat (Move.x move) in
        let y := Z.to_nat (Move.y move) in
        let cell := grid_get grid x y in
        let owner := cell_owner cell in
        let count := cell_count cell in
        flags ← from_option KeyError (initial_moves_done s !! gid);
        if negb (flag_get flags player) then
          match owner with
          | None =>
              let state := set_grid state (grid_set grid x y (Owned player 1)) in
              let s := set_initial_moves_done s
                         (<[gid := flag_set flags player true]> (initial_moves_done s)) in
              let state := set_current_player state (other_role player) in
              let s := set_games s (<[gid := state]> (games s)) in
              let s := broadcast gid state s in
              Return (Ok, s)
          | Some _ => Return (Error "Invalid initial move", s)
          end
        else if bool_decide (owner ≠ Some player) then
          Return (Error "Not your cell", s)
        else
          let state := set_grid state (grid_set grid x y (Owned player (count + 1))) in
          let s := set_games s (<[gid := state]> (games s)) in
          s ← process_reactions fuel gid player s;
          state ← from_option KeyError (games s !! gid);
          let state := set_current_player state (other_role player) in
          let s := set_games s (<[gid := state]> (games s)) in
          let s := broadcast gid state s in
          Return (Ok, s)
  end.

(* ================================================================== *)
(** ** Shape, well-formedness and measures of a board *)
(* ================================================================== *)

(** A [w] by [h] board: [h] rows of [w] cells each. *)
Definition rect (w h : nat) (g : Grid) : Prop :=
  length g = h ∧ Forall (fun row => length row = w) g.

Definition in_grid (w h : nat) (p : nat * nat) : Prop :=
  (p.1 < w)%nat ∧ (p.2 < h)%nat.

(** An owned cell holds at least one unit. *)
Definition cell_ok (c : cell) : Prop :=
  match c with Empty => True | Owned _ n => 1 <= n end.

Definition grid_ok (g : Grid) : Prop := Forall (Forall cell_ok) g.

(** Weighted sum of the counts of a row and of a board, with the weight a
    function of the coordinates; [i] and [j] are the coordinates of the
    first element. *)
Fixpoint row_sum (f : nat -> Z) (i : nat) (row : list cell) : Z :=
  match row with
  | [] => 0
  | c :: row' => f i * cell_count c + row_sum f (S i) row'
  end.

Fixpoint grid_sum (f : nat -> nat -> Z) (j : nat) (g : Grid) : Z :=
  match g with
  | [] => 0
  | row :: g' => row_sum (fun x => f x j) 0 row + grid_sum f (S j) g'
  end.

(** The ownership mass: the counts of all cells added up. *)
Definition mass (g : Grid) : Z := foldr Z.add 0 (cell_count <$> concat g).

(** The number of edges from the collected cells to their neighbours. *)
Definition edges (w h : nat) (l : list Blast) : Z :=
  foldr Z.add 0 ((fun b : Blast => Z.of_nat (length (get_neighbors b.1.1 b.1.2 w h))) <$> l).

(** The weight of a position: positive inside the board and strictly
    superharmonic, so that the weighted mass drops at every explosion. *)
Definition weight (w h : nat) (x y : nat) : Z :=
  (Z.of_nat x + 1) * (Z.of_nat w - Z.of_nat x) + (Z.of_nat y + 1) * (Z.of_nat h - Z.of_nat y).

Definition potential (w h : nat) (g : Grid) : Z := grid_sum (weight w h) 0 g.

(** The total count removed from the collected cells, each read at the
    moment it is cleared. *)
Fixpoint cleared (w h : nat) (g : Grid) (l : list Blast) : Z :=
  match l with
  | [] => 0
  | b :: l' => cell_count (grid_get g b.1.1 b.1.2) + cleared w h (explode w h g b) l'
  end.

(** The boards after each wave of the loop, in order. *)
Fixpoint wave_boards (fuel : nat) (w h : nat) (g : Grid) : list Grid :=
  match fuel with
  | O => []
  | S fuel' =>
      match scan g w h with
      | [] => []
      | to_explode =>
          let g' := explode_all w h g to_explode in
          g' :: wave_boards fuel' w h g'
      end
  end.

(** No cell is at or above the critical mass. *)
Definition at_rest (w h : nat) (g : Grid) : Prop := scan g w h = [].

Definition pos (b : Blast) : nat * nat := b.1.
Definition blast_owner (b : Blast) : Role := b.2.

(** The collected cells are in the board, pairwise distinct, and at or above
    the critical mass on [g]. *)
Definition critical (w h : nat) (g : Grid) (l : list Blast) : Prop :=
  NoDup (pos <$> l) ∧
  Forall (fun b => in_grid w h (pos b) ∧ 4 <= cell_count (grid_get g (pos b).1 (pos b).2)) l.

(* ================================================================== *)
(** ** Sessions *)
(* ================================================================== *)

(** A board as the server keeps it between two requests. *)
Definition board_ok (g : Grid) : Prop := rect 5 5 g ∧ grid_ok g ∧ at_rest 5 5 g.

(** The invariant of the storage: every board is a resting 5 by 5 board
    and every token names a session that exists. *)
Definition store_ok (s : Store) : Prop :=
  (∀ gid st, games s !! gid = Some st -> board_ok (GameState.grid st)) ∧
  (∀ tok gid r, player_tokens s !! tok = Some (gid, r) ->
     is_Some (games s !! gid) ∧ is_Some (subscribers s !! gid) ∧
     is_Some (initial_moves_done s !! gid)).

Definition current_player_of (gid : string) (s : Store) : option Role :=
  GameState.current_player <$> games s !! gid.

Definition board_of (gid : string) (s : Store) : option Grid :=
  GameState.grid <$> games s !! gid.

(** Every queue subscribed to [gid] in [s] has received exactly [msgs], in
    this order, on the way to [s']. *)
Definition delivered (gid : string) (s s' : Store) (msgs : list GameState.t) : Prop :=
  ∀ qs, subscribers s !! gid = Some qs ->
        subscribers s' !! gid = Some ((fun q : Queue => q ++ msgs) <$> qs).

(** The storage after an accepted opening move and after an accepted
    increment, in closed form ([s] is the storage once the session is
    ensured, [st] the published state). *)
Definition after_opening (gid : string) (player : Role) (flags : Flags)
    (st : GameState.t) (s : Store) : Store :=
  mkStore (<[gid := st]> (games s))
          (alter (fmap (fun q : Queue => q ++ [st])) gid (subscribers s))
          (<[gid := flag_set flags player true]> (initial_moves_done s))
          (player_tokens s).

Definition after_increment (gid : string) (st : GameState.t) (s : Store) : Store :=
  mkStore (<[gid := st]> (games s))
          (alter (fmap (fun q : Queue => q ++ [st])) gid (subscribers s))
          (initial_moves_done s)
          (player_tokens s).

(** The handlers other than [move_endpoint], as far as they touch the
    storage of the games.  The identifiers drawn with [uuid4] are arguments. *)

(** [create_room], [join_room] and a found match:
    [ensure_game_initialized(gid); player_tokens[token] = {...}] *)
Definition issue_token (gid token : string) (role : Role) (s : Store) : Store :=
  let s := ensure_game_initialized gid s in
  mkStore (games s) (subscribers s) (initial_moves_done s)
          (<[token := (gid, role)]> (player_tokens s)).

(** [stream_game]: [ensure_game_initialized(gid); subscribers[gid].append(q)] *)
Definition stream_game (gid : string) (s : Store) : Store :=
  let s := ensure_game_initialized gid s in
  set_subscribers s (alter (fun qs => qs ++ [[]]) gid (subscribers s)).

(** The [finally] of a stream: [subscribers[gid].remove(q)], [q] being the
    queue at index [i]. *)
Definition stream_close (gid : string) (i : nat) (s : Store) : Store :=
  set_subscribers s (alter (delete i) gid (subscribers s)).

Definition empty_store : Store := mkStore ∅ ∅ ∅ ∅.

Inductive step : Store -> Store -> Prop :=
  | step_issue gid token role s : step s (issue_token gid token role s)
  | step_stream gid s : step s (stream_game gid s)
  | step_close gid i s : step s (stream_close gid i s)
  | step_move fuel move r s s' :
      move_endpoint fuel move s = Return (r, s') -> step s s'.

Definition reachable (s : Store) : Prop := rtc step empty_store s.

(** The bounds test of [move_endpoint] on a board of [h] rows whose first
    row has [w] cells. *)
Definition off_board (w h : nat) (x y : Z) : bool :=
  bool_decide (y < 0) || bool_decide (y >= Z.of_nat h)
  || bool_decide (x < 0) || bool_decide (x >= Z.of_nat w).

(** The published state: board [g], turn handed to the other role. *)
Definition next_state (st : GameState.t) (g : Grid) (player : Role) : GameState.t :=
  GameState.mk (GameState.id st) g (other_role player).

(** All cells at or above the critical mass lie on one colour [par] of the
    chessboard and have the owner [o]. *)
Definition uniform (w h : nat) (par : bool) (o : Role) (g : Grid) : Prop :=
  ∀ x y o' n, (x < w)%nat -> (y < h)%nat ->
    grid_get g x y = Owned o' n -> 4 <= n ->
    Nat.even (x + y) = par ∧ o' = o.

(* ================================================================== *)
(** ** A session to run the handlers on *)
(* ================================================================== *)

(** A private room ["g1"] after [create_room], [join_room] and one opened
    stream. *)
Definition demo_store : Store :=
  stream_game "g1"
    (issue_token "g1" "blue-token" BLUE
       (issue_token "g1" "red-token" RED empty_store)).

(** The board with four units of RED in the middle and nothing else. *)
Definition center_board : Grid := grid_set new_empty_grid 2 2 (Owned RED 4).

Definition center_store : Store :=
  set_games demo_store (<["g1" := GameState.mk "g1" center_board RED]> (games demo_store)).

(** The handler run on a list of requests, answers collected. *)
Fixpoint run_moves (fuel : nat) (moves : list Move.t) (s : Store)
  : result (list Response * Store) :=
  match moves with
  | [] => Return ([], s)
  | move :: moves' =>
      '(r, s1) ← move_endpoint fuel move s;
      '(rs, s2) ← run_moves fuel moves' s1;
      Return (r :: rs, s2)
  end.

(** Four units of RED in the corner and nothing else. *)
Definition corner_board : Grid := grid_set new_empty_grid 0 0 (Owned RED 4).

(** Two critical cells side by side, one of each role. *)
Definition adjacent_board : Grid :=
  grid_set (grid_set new_empty_grid 0 0 (Owned RED 4)) 1 0 (Owned BLUE 4).

(** Two critical cells of RED with the cell between them empty. *)
Definition flanked_board : Grid :=
  grid_set (grid_set new_empty_grid 0 0 (Owned RED 4)) 2 0 (Owned RED 4).

(** The storage with the critical centre board, once resolved. *)
Definition center_resolved : Store :=
  set_games center_store
    (<["g1" := set_grid (GameState.mk "g1" center_board RED) (wave 5 5 center_board)]>
       (games center_store)).

(** Every game is stored under its own id, and games, subscriber lists and
    opening flags exist for the same sessions. *)
Definition sessions_ok (s : Store) : Prop :=
  (∀ gid st, games s !! gid = Some st -> GameState.id st = gid) ∧
  (∀ gid, is_Some (games s !! gid) ↔ is_Some (subscribers s !! gid)) ∧
  (∀ gid, is_Some (games s !! gid) ↔ is_Some (initial_moves_done s !! gid)).

(* ================================================================== *)
(** ** Collected cells that do not interact *)
(* ================================================================== *)

Definition neighbors_of (w h : nat) (p : nat * nat) : list (nat * nat) :=
  get_neighbors p.1 p.2 w h.

(** Two collected cells do not interact within a wave: they are different
    cells, neither is a neighbour of the other, and if they have a
    neighbour in common they write the same owner into it. *)
Definition indep (w h : nat) (e1 e2 : Blast) : Prop :=
  pos e1 ≠ pos e2 ∧
  (pos e1 ∉ neighbors_of w h (pos e2)) ∧
  (pos e2 ∉ neighbors_of w h (pos e1)) ∧
  (blast_owner e1 = blast_owner e2 ∨
   ∀ n, n ∈ neighbors_of w h (pos e1) -> n ∉ neighbors_of w h (pos e2)).

Definition independent (w h : nat) (l : list Blast) : Prop :=
  ∀ e1 e2, e1 ∈ l -> e2 ∈ l -> e1 = e2 ∨ indep w h e1 e2.

(** [turn_run gid s n s']: [n] accepted moves on the session [gid] lead from
    [s] to [s'], each made by the role whose turn it is. *)
Inductive turn_run (gid : string) : Store -> nat -> Store -> Prop :=
  | turn_run_nil s : turn_run gid s 0 s
  | turn_run_cons fuel move player s s1 n s2 :
      player_tokens s !! Move.token move = Some (gid, player) ->
      current_player_of gid s = Some player ->
      move_endpoint fuel move s = Return (Ok, s1) ->
      turn_run gid s1 n s2 ->
      turn_run gid s (S n) s2.

(** The demo session after RED's opening move at (2,2), and after BLUE's
    opening move at (0,0) that follows. *)
Definition red_opened_state : GameState.t :=
  next_state (new_game "g1") (grid_set new_empty_grid 2 2 (Owned RED 1)) RED.

Definition red_opened : Store :=
  after_opening "g1" RED (mkFlags false false) red_opened_state demo_store.

Definition both_opened_state : GameState.t :=
  next_state red_opened_state
    (grid_set (GameState.grid red_opened_state) 0 0 (Owned BLUE 1)) BLUE.

Definition both_opened : Store :=
  after_opening "g1" BLUE (mkFlags true false) both_opened_state red_opened.

(** The demo session with three units of RED at (2,2): RED's opening move
    and two increments. *)
Definition primed_state : GameState.t :=
  GameState.mk "g1" (grid_set new_empty_grid 2 2 (Owned RED 3)) BLUE.

Definition primed_store : Store :=
  after_increment "g1" primed_state
    (after_increment "g1"
       (GameState.mk "g1" (grid_set new_empty_grid 2 2 (Owned RED 2)) BLUE)
       red_opened).

(** The same session once the fourth unit has been placed and the cascade
    has run. *)
Definition burst_state : GameState.t :=
  next_state primed_state (wave 5 5 center_board) RED.

Definition burst_store : Store := after_increment "g1" burst_state primed_store.

(** The states a subscriber would see if every wave were published: the
    session with the board of each wave, the turn not yet handed over. *)
Definition wave_snapshots (fuel : nat) (st : GameState.t) (g : Grid) : list GameState.t :=
  set_grid st <$> wave_boards fuel 5 5 g.

(* ================================================================== *)
(** ** Writes to a cell *)
(* ================================================================== *)

(** The program writes a cell in four places: the opening placement
    (line 201), the increment (line 213), the clearing of an exploding cell
    (line 238) and the bump of a neighbour (line 241).  A [Write] records
    one such assignment [grid[y][x] = new]: the position, the cell found
    there when the assignment is made, and the cell assigned. *)
Record Write : Set := mkWrite { w_pos : nat * nat; w_old : cell; w_new : cell }.

#[global] Instance Write_eq_dec : EqDecision Write.
Proof. solve_decision. Defined.

(** The assignment itself, and a list of assignments made in order. *)
Definition apply_write (g : Grid) (wr : Write) : Grid :=
  grid_set g (w_pos wr).1 (w_pos wr).2 (w_new wr).

Definition replay (g : Grid) (log : list Write) : Grid := foldl apply_write g log.

(** The assignment of line 241, as [bump] makes it on the board [g]. *)
Definition bump_write (owner : Role) (g : Grid) (n : nat * nat) : Write :=
  mkWrite n (grid_get g n.1 n.2) (Owned owner (cell_count (grid_get g n.1 n.2) + 1)).

(** The assignments of [for nx, ny in get_neighbors(...)], in order. *)
Fixpoint bumps_log (owner : Role) (g : Grid) (ns : list (nat * nat)) : list Write :=
  match ns with
  | [] => []
  | n :: ns' => bump_write owner g n :: bumps_log owner (bump owner g n) ns'
  end.

(** The assignments of one round of [for x, y, owner in to_explode]: the
    clearing of line 238, then the bumps. *)
Definition explode_log (w h : nat) (g : Grid) (b : Blast) : list Write :=
  let '(x, y, owner) := b in
  mkWrite (x, y) (grid_get g x y) Empty
  :: bumps_log owner (grid_set g x y Empty) (get_neighbors x y w h).

(** The assignments of one wave. *)
Fixpoint explode_all_log (w h : nat) (g : Grid) (to_explode : list Blast) : list Write :=
  match to_explode with
  | [] => []
  | b :: l => explode_log w h g b ++ explode_all_log w h (explode w h g b) l
  end.

Definition wave_log (w h : nat) (g : Grid) : list Write :=
  explode_all_log w h g (scan g w h).

(** The assignments of the [while changed] loop, wave after wave. *)
Fixpoint reaction_log (fuel : nat) (w h : nat) (g : Grid) : list Write :=
  match fuel with
  | O => []
  | S fuel' =>
      match scan g w h with
      | [] => []
      | to_explode =>
          explode_all_log w h g to_explode
          ++ reaction_log fuel' w h (explode_all w h g to_explode)
      end
  end.

(** The assignments of [process_reactions] on the board [g]. *)
Definition process_reactions_log (fuel : nat) (g : Grid) : list Write :=
  match g !! 0%nat with
  | Some row0 => reaction_log fuel (length row0) (length g) g
  | None => []
  end.

(** The assignments of [move_endpoint] to the board of the session, in the
    order in which the handler and [process_reactions] make them; the
    branches are those of the handler. *)
Definition move_log (fuel : nat) (move : Move.t) (s : Store) : list Write :=
  match player_tokens s !! Move.token move with
  | None => []
  | Some (gid, player) =>
      let s := ensure_game_initialized gid s in
      match games s !! gid, initial_moves_done s !! gid with
      | Some state, Some flags =>
          let grid := GameState.grid state in
          match grid !! 0%nat with
          | None => []
          | Some row0 =>
              if off_board (length row0) (length grid) (Move.x move) (Move.y move)
              then []
              else
                let x := Z.to_nat (Move.x move) in
                let y := Z.to_nat (Move.y move) in
                let cell := grid_get grid x y in
                if negb (flag_get flags player) then
                  match cell_owner cell with
                  | None => [mkWrite (x, y) cell (Owned player 1)]
                  | Some _ => []
                  end
                else if bool_decide (cell_owner cell ≠ Some player) then []
                else
                  let new := Owned player (cell_count cell + 1) in
                  mkWrite (x, y) cell new
                  :: process_reactions_log fuel (grid_set grid x y new)
          end
      | _, _ => []
      end
  end.

(** Every assignment of a log is made inside the [w] by [h] board and
    finds in its cell what the log says. *)
Fixpoint log_reads (w h : nat) (g : Grid) (log : list Write) : Prop :=
  match log with
  | [] => True
  | wr :: log' =>
      in_grid w h (w_pos wr) ∧
      w_old wr = grid_get g (w_pos wr).1 (w_pos wr).2 ∧
      log_reads w h (apply_write g wr) log'
  end.

(** The two kinds of assignment: one unit more than the cell held, for some
    owner, or the reset to the empty cell of a cell that held at least 4. *)
Definition write_ok (wr : Write) : Prop :=
  (∃ o, w_new wr = Owned o (cell_count (w_old wr) + 1)) ∨
  (w_new wr = Empty ∧ 4 <= cell_count (w_old wr)).

(** The resets and the increments that a log makes at the position [p]. *)
Definition resets_at (p : nat * nat) (log : list Write) : list Write :=
  filter (fun wr => w_pos wr = p ∧ w_new wr = Empty) log.

Definition increments_at (p : nat * nat) (log : list Write) : list Write :=
  filter (fun wr => w_pos wr = p ∧ w_new wr ≠ Empty) log.

(** The collected cells that have [p] among their neighbours. *)
Definition blasts_next_to (w h : nat) (p : nat * nat) (l : list Blast) : list Blast :=
  filter (fun e => p ∈ neighbors_of w h (pos e)) l.

(** The reading of C6 by which a wave as a whole changes a count by one at
    most, or empties the cell. *)
Definition wave_changes_by_one (w h : nat) (g : Grid) : Prop :=
  ∀ x y, (x < w)%nat -> (y < h)%nat ->
    cell_count (grid_get (wave w h g) x y) = cell_count (grid_get g x y) ∨
    cell_count (grid_get (wave w h g) x y) = cell_count (grid_get g x y) + 1 ∨
    grid_get (wave w h g) x y = Empty.

(** Eleven moves that bring RED to three units at (1,0) and at (0,1) and
    BLUE to three units in the corner between them. *)
Definition contest_moves : list Move.t :=
  [ Move.mk "red-token" 0 0; Move.mk "red-token" 0 0; Move.mk "red-token" 0 0;
    Move.mk "red-token" 0 0;
    Move.mk "red-token" 1 0; Move.mk "red-token" 1 0;
    Move.mk "red-token" 0 1; Move.mk "red-token" 0 1;
    Move.mk "blue-token" 0 0; Move.mk "blue-token" 0 0; Move.mk "blue-token" 0 0 ].

Definition contest_board : Grid :=
  [ [Owned BLUE 3; Owned RED 3; Empty; Empty; Empty];
    [Owned RED 3; Empty; Empty; Empty; Empty];
    [Empty; Empty; Empty; Empty; Empty];
    [Empty; Empty; Empty; Empty; Empty];
    [Empty; Empty; Empty; Empty; Empty] ].

(* ================================================================== *)
(** ** Rooms and matchmaking *)
(* ================================================================== *)

(** The messages of the matchmaking stream:
    [{"type": "waiting", "game_id": player_id, "role": "RED"}],
    [{"type": "matched", "game_id": gid, "role": role, "token": token}],
    and the heartbeat [{}]. *)
Inductive MatchMsg : Set :=
  | Waiting (player_id : string)
  | Matched (game_id : string) (role : Role) (token : string)
  | Heartbeat.

(** The whole module-level state: the storage of the games, [room_codes],
    and [waiting_player].  A matchmaking queue is known by the number of
    its connection; [match_queues] holds, for every queue, the messages put
    on it and not yet taken, oldest first. *)
Record Server : Type := mkServer {
  store : Store;
  room_codes : gmap string string;
  waiting_player : option nat;
  match_queues : gmap nat (list MatchMsg)
}.

Definition set_store (sv : Server) (s : Store) : Server :=
  mkServer s (room_codes sv) (waiting_player sv) (match_queues sv).

Definition set_waiting_player (sv : Server) (w : option nat) : Server :=
  mkServer (store sv) (room_codes sv) w (match_queues sv).

Definition empty_server : Server := mkServer empty_store ∅ None ∅.

(** [player_tokens[token] = {"game_id": gid, "role": role}] *)
Definition set_token (token gid : string) (role : Role) (s : Store) : Store :=
  mkStore (games s) (subscribers s) (initial_moves_done s)
          (<[token := (gid, role)]> (player_tokens s)).

(** [generate_room_code]: the codes drawn by [random.choices], one per
    iteration of the loop, are the list [draws]; the loop returns the first
    one that is not registered, and is still running when the list is
    exhausted. *)
Fixpoint generate_room_code (draws : list string) (codes : gmap string string)
  : result string :=
  match draws with
  | [] => Diverge
  | code :: draws' =>
      match codes !! code with
      | None => Return code
      | Some _ => generate_room_code draws' codes
      end
  end.

(** What the two room handlers answer. *)
Inductive RoomResponse : Set :=
  | Created (game_id room_code : string) (role : Role) (token : string)
  | Joined (game_id : string) (role : Role) (token : string)
  | HTTP404 (detail : string).

(** [create_room]; [gid] and [red_token] are the values drawn with
    [uuid4]. *)
Definition create_room (gid red_token : string) (draws : list string) (sv : Server)
  : result (RoomResponse * Server) :=
  let s := ensure_game_initialized gid (store sv) in
  code ← generate_room_code draws (room_codes sv);
  let codes := <[code := gid]> (room_codes sv) in
  let s := set_token red_token gid RED s in
  Return (Created gid code RED red_token,
          mkServer s codes (waiting_player sv) (match_queues sv)).

(** [join_room]; [upper] stands for [str.upper] and [blue_token] is the
    value drawn with [uuid4].  [if not gid] also rejects the empty id. *)
Definition join_room (upper : string -> string) (blue_token : string) (code : string)
    (sv : Server) : RoomResponse * Server :=
  let code := upper code in
  match room_codes sv !! code with
  | None => (HTTP404 "Room not found", sv)
  | Some gid =>
      if bool_decide (gid = "") then (HTTP404 "Room not found", sv)
      else
        let s := ensure_game_initialized gid (store sv) in
        let s := set_token blue_token gid BLUE s in
        (Joined gid BLUE blue_token, set_store sv s)
  end.

(** [str.upper] on the letters a to z, byte by byte; used to run
    [join_room] on codes written in ASCII. *)
Definition ascii_upper (c : Ascii.ascii) : Ascii.ascii :=
  let n := Ascii.nat_of_ascii c in
  if bool_decide (97 <= n)%nat && bool_decide (n <= 122)%nat
  then Ascii.ascii_of_nat (n - 32) else c.

Fixpoint string_upper (s : string) : string :=
  match s with
  | EmptyString => EmptyString
  | String c s' => String (ascii_upper c) (string_upper s')
  end.

(** [await q.put(msg)] on a matchmaking queue. *)
Definition match_put (q : nat) (msg : MatchMsg) (qs : gmap nat (list MatchMsg))
  : gmap nat (list MatchMsg) :=
  <[q := default [] (qs !! q) ++ [msg]]> qs.

(** Where the generator of a matchmaking stream stands: suspended at the
    [yield] of the matched message, or inside the message loop. *)
Inductive MatchPc : Set := AtMatched | InLoop.

(** [matchmake_stream], first run of the generator up to its first [yield],
    for the connection with queue [q].  The other arguments are the values
    drawn with [uuid4]. *)
Definition matchmake_start (q : nat) (player_id gid red_token blue_token : string)
    (sv : Server) : MatchMsg * MatchPc * Server :=
  match waiting_player sv with
  | Some w =>
      let s := ensure_game_initialized gid (store sv) in
      let s := set_token red_token gid RED s in
      let s := set_token blue_token gid BLUE s in
      let qs := match_put w (Matched gid RED red_token) (match_queues sv) in
      (Matched gid BLUE blue_token, AtMatched,
       mkServer s (room_codes sv) (waiting_player sv) qs)
  | None =>
      (Waiting player_id, InLoop, set_waiting_player sv (Some q))
  end.

(** The generator resumed after the [yield] of the matched message:
    [waiting_player = None], then the loop. *)
Definition matchmake_resume (sv : Server) : MatchPc * Server :=
  (InLoop, set_waiting_player sv None).

(** One round of the loop for a connected client: the next message of the
    queue, or the heartbeat when the wait has timed out on an empty queue. *)
Definition matchmake_poll (q : nat) (sv : Server) : MatchMsg * Server :=
  match default [] (match_queues sv !! q) with
  | msg :: rest =>
      (msg, mkServer (store sv) (room_codes sv) (waiting_player sv)
                     (<[q := rest]> (match_queues sv)))
  | [] => (Heartbeat, sv)
  end.

(** The [finally] of the generator, run when the stream is closed at
    either point: [if waiting_player == q: waiting_player = None]. *)
Definition matchmake_close (q : nat) (sv : Server) : Server :=
  if bool_decide (waiting_player sv = Some q) then set_waiting_player sv None else sv.

(** The server after one [create_room] on the empty server: session
    ["g2"], code ["ABCD"], RED's token ["t2"]. *)
Definition room_server : Server :=
  mkServer (issue_token "g2" "t2" RED empty_store) (<["ABCD" := "g2"]> ∅) None ∅.

(** One handler run, or one run of a stream generator between two
    suspension points, on the whole server.  The generators are not tracked:
    the relation lets a resume, a poll or a close happen at any time, which
    is more than the program does and is enough for invariants. *)
Inductive server_step : Server -> Server -> Prop :=
  | sstep_create gid token draws resp sv sv' :
      create_room gid token draws sv = Return (resp, sv') -> server_step sv sv'
  | sstep_join upper token code sv :
      server_step sv (join_room upper token code sv).2
  | sstep_match_start q player_id gid red_token blue_token sv :
      server_step sv (matchmake_start q player_id gid red_token blue_token sv).2
  | sstep_match_resume sv : server_step sv (matchmake_resume sv).2
  | sstep_match_poll q sv : server_step sv (matchmake_poll q sv).2
  | sstep_match_close q sv : server_step sv (matchmake_close q sv)
  | sstep_stream gid sv : server_step sv (set_store sv (stream_game gid (store sv)))
  | sstep_stream_close gid i sv :
      server_step sv (set_store sv (stream_close gid i (store sv)))
  | sstep_move fuel move r s' sv :
      move_endpoint fuel move (store sv) = Return (r, s') ->
      server_step sv (set_store sv s').

Definition server_reachable (sv : Server) : Prop := rtc server_step empty_server sv.

(** The server with one player waiting on queue 1, and the same server once
    a second player has been matched and the first has read its message. *)
Definition waiting_server : Server :=
  (matchmake_start 1 "p1" "" "" "" empty_server).2.

Definition matched_server : Server :=
  (matchmake_poll 1
     (matchmake_resume
        (matchmake_start 2 "p2" "g3" "t5" "t6" waiting_server).2).2).2.

(** The same server after BLUE has joined with the code in lower case. *)
Definition joined_server : Server :=
  (join_room string_upper "t3" "abcd" room_server).2.

(* ================================================================== *)
(** ** Boards: reading and writing *)
(* ================================================================== *)

Section grid_access.
Context (w h : nat).
Implicit Types (g : Grid) (c : cell) (x y : nat).

Lemma rect_lookup g x y :
  rect w h g -> (x < w)%nat -> (y < h)%nat ->
  ∃ row, g !! y = Some row ∧ length row = w ∧ row !! x = Some (grid_get g x y).
Proof.
  intros [Hh Hw] Hx Hy.
  destruct (lookup_lt_is_Some_2 g y) as [row Hrow]; [lia|].
  exists row. split; [done|].
  assert (length row = w) as Hlen.
  { rewrite Forall_lookup in Hw. by apply (Hw y). }
  split; [done|].
  unfold grid_get. rewrite Hrow.
  destruct (lookup_lt_is_Some_2 row x) as [c Hc]; [lia|].
  by rewrite Hc.
Qed.

Lemma rect_set g x y c : rect w h g -> rect w h (grid_set g x y c).
Proof.
  intros [Hh Hw]. unfold grid_set. split.
  - by rewrite length_alter.
  - apply Forall_lookup. intros j row'.
    rewrite Forall_lookup in Hw.
    destruct (decide (y = j)) as [->|Hne].
    + destruct (g !! j) as [row|] eqn:Hrow.
      * rewrite (list_lookup_alter_eq _ g j). rewrite Hrow. simpl.
        intros [= <-]. rewrite length_insert. by apply (Hw j).
      * rewrite (list_lookup_alter_eq _ g j). by rewrite Hrow.
    + rewrite list_lookup_alter_ne by done. apply Hw.
Qed.

Lemma grid_get_set_eq g x y c :
  rect w h g -> (x < w)%nat -> (y < h)%nat ->
  grid_get (grid_set g x y c) x y = c.
Proof.
  intros Hr Hx Hy.
  destruct (rect_lookup g x y Hr Hx Hy) as (row & Hrow & Hlen & _).
  unfold grid_get, grid_set.
  rewrite list_lookup_alter_eq, Hrow. simpl.
  rewrite list_lookup_insert_eq by lia. done.
Qed.

Lemma grid_get_set_ne g x y c x' y' :
  (x, y) ≠ (x', y') ->
  grid_get (grid_set g x y c) x' y' = grid_get g x' y'.
Proof.
  intros Hne. unfold grid_get, grid_set.
  destruct (decide (y = y')) as [->|Hy].
  - rewrite list_lookup_alter_eq.
    destruct (g !! y') as [row|]; simpl; [|done].
    rewrite list_lookup_insert_ne; [done|congruence].
  - by rewrite list_lookup_alter_ne.
Qed.

Lemma grid_get_set g x y c x' y' :
  rect w h g -> (x < w)%nat -> (y < h)%nat ->
  grid_get (grid_set g x y c) x' y' =
    if decide ((x, y) = (x', y')) then c else grid_get g x' y'.
Proof.
  intros Hr Hx Hy. case_decide as Heq.
  - injection Heq as <- <-. by apply grid_get_set_eq.
  - by apply grid_get_set_ne.
Qed.

(** Two boards of the same shape with the same cells are the same board. *)
Lemma grid_ext g1 g2 :
  rect w h g1 -> rect w h g2 ->
  (∀ x y, (x < w)%nat -> (y < h)%nat -> grid_get g1 x y = grid_get g2 x y) ->
  g1 = g2.
Proof.
  intros Hr1 Hr2 Hget.
  apply list_eq_same_length with h; [apply Hr2 | apply Hr1 |].
  intros y r1 r2 Hy H1 H2.
  assert (length r1 = w) as Hl1.
  { destruct Hr1 as [_ Hw]. rewrite Forall_lookup in Hw. by apply (Hw y). }
  assert (length r2 = w) as Hl2.
  { destruct Hr2 as [_ Hw]. rewrite Forall_lookup in Hw. by apply (Hw y). }
  apply list_eq_same_length with w; [done | done |].
  intros x c1 c2 Hx Hc1 Hc2.
  specialize (Hget x y Hx Hy). unfold grid_get in Hget.
  rewrite H1, H2, Hc1, Hc2 in Hget. done.
Qed.
End grid_access.

(* ================================================================== *)
(** ** Neighbours *)
(* ================================================================== *)

Section neighbours.
Context (w h : nat).
Implicit Types (x y a b : nat).

Lemma elem_of_guarded (P : Prop) `{!Decision P} (p q : nat * nat) :
  p ∈ (if bool_decide P then [q] else []) ↔ P ∧ p = q.
Proof.
  case_bool_decide.
  - rewrite list_elem_of_singleton. tauto.
  - rewrite elem_of_nil. tauto.
Qed.

(** [get_neighbors] lists exactly the orthogonal neighbours inside the board. *)
Lemma elem_of_get_neighbors x y a b :
  (a, b) ∈ get_neighbors x y w h ↔
    (a + 1 = x ∧ b = y)%nat ∨ (a = x + 1 ∧ a < w ∧ b = y)%nat ∨
    (a = x ∧ b + 1 = y)%nat ∨ (a = x ∧ b = y + 1 ∧ b < h)%nat.
Proof.
  unfold get_neighbors.
  rewrite !elem_of_app, !elem_of_guarded, !pair_equal_spec.
  split; intros [?|[?|[?|?]]]; lia.
Qed.

Lemma get_neighbors_in_grid x y n :
  in_grid w h (x, y) -> n ∈ get_neighbors x y w h -> in_grid w h n.
Proof.
  destruct n as [a b]. intros [Hx Hy]. simpl in *.
  rewrite elem_of_get_neighbors. unfold in_grid. simpl. lia.
Qed.

Lemma get_neighbors_irrefl x y : (x, y) ∉ get_neighbors x y w h.
Proof. rewrite elem_of_get_neighbors. lia. Qed.

Lemma get_neighbors_sym x y a b :
  in_grid w h (x, y) -> in_grid w h (a, b) ->
  (a, b) ∈ get_neighbors x y w h -> (x, y) ∈ get_neighbors a b w h.
Proof.
  unfold in_grid. simpl. intros [Hx Hy] [Ha Hb].
  rewrite !elem_of_get_neighbors. lia.
Qed.

Lemma get_neighbors_NoDup x y : NoDup (get_neighbors x y w h).
Proof.
  unfold get_neighbors.
  repeat case_bool_decide; simpl;
    repeat (apply NoDup_cons; split;
            [rewrite ?elem_of_cons, ?elem_of_nil;
             intros Hin; repeat destruct Hin as [Hin|Hin]; try done;
             injection Hin; lia|]);
    apply NoDup_nil_2.
Qed.

Lemma get_neighbors_length x y : (length (get_neighbors x y w h) <= 4)%nat.
Proof. unfold get_neighbors. repeat case_bool_decide; simpl; lia. Qed.

(** Neighbours lie on the other colour of the chessboard. *)
Lemma get_neighbors_parity x y a b :
  (a, b) ∈ get_neighbors x y w h -> Nat.even (a + b) = negb (Nat.even (x + y)).
Proof.
  rewrite elem_of_get_neighbors.
  intros [[<- ->]|[(-> & _ & ->)|[[-> <-]|(-> & -> & _)]]].
  - replace (a + 1 + y)%nat with (S (a + y)) by lia.
    rewrite Nat.even_succ, <- Nat.negb_even. by destruct (Nat.even (a + y)).
  - replace (x + 1 + y)%nat with (S (x + y)) by lia.
    by rewrite Nat.even_succ, <- Nat.negb_even.
  - replace (x + (b + 1))%nat with (S (x + b)) by lia.
    rewrite Nat.even_succ, <- Nat.negb_even. by destruct (Nat.even (x + b)).
  - replace (x + (y + 1))%nat with (S (x + y)) by lia.
    by rewrite Nat.even_succ, <- Nat.negb_even.
Qed.
End neighbours.

(* ================================================================== *)
(** ** Weighted sums under a write *)
(* ================================================================== *)

Lemma row_sum_insert (f : nat -> Z) (i x : nat) (row : list cell) (c0 c : cell) :
  row !! x = Some c0 ->
  row_sum f i (<[x := c]> row) =
    row_sum f i row + f (i + x)%nat * (cell_count c - cell_count c0).
Proof.
  revert i x. induction row as [|c1 row IH]; intros i x Hx; [done|].
  destruct x as [|x]; simpl in *.
  - injection Hx as ->. rewrite Nat.add_0_r. lia.
  - rewrite (IH (S i) x Hx).
    replace (S i + x)%nat with (i + S x)%nat by lia. lia.
Qed.

Lemma grid_sum_set (f : nat -> nat -> Z) (j x y : nat) (g : Grid) (row : list cell) (c0 c : cell) :
  g !! y = Some row -> row !! x = Some c0 ->
  grid_sum f j (grid_set g x y c) =
    grid_sum f j g + f x (j + y)%nat * (cell_count c - cell_count c0).
Proof.
  revert j y. induction g as [|r g IH]; intros j y Hy Hx; [done|].
  destruct y as [|y]; simpl in *.
  - injection Hy as ->. rewrite (row_sum_insert _ 0 x row c0 c Hx).
    simpl. rewrite Nat.add_0_r. lia.
  - rewrite (IH (S j) y Hy Hx).
    replace (S j + y)%nat with (j + S y)%nat by lia. lia.
Qed.

Lemma mass_grid_sum (g : Grid) : mass g = grid_sum (fun _ _ => 1) 0 g.
Proof.
  unfold mass. generalize 0%nat as j.
  induction g as [|row g IH]; intros j; [done|].
  simpl. rewrite fmap_app, foldr_app, <- (IH (S j)).
  clear IH. generalize (foldr Z.add 0 (cell_count <$> concat g)) as acc.
  generalize 0%nat as i.
  induction row as [|c row IH]; intros i acc; [simpl; lia|].
  rewrite fmap_cons. simpl. rewrite (IH (S i) acc). lia.
Qed.

Section explosion.
Context (w h : nat).
Implicit Types (g : Grid) (x y a b : nat) (o : Role).

Lemma grid_sum_set_rect f g x y c :
  rect w h g -> in_grid w h (x, y) ->
  grid_sum f 0 (grid_set g x y c) =
    grid_sum f 0 g + f x y * (cell_count c - cell_count (grid_get g x y)).
Proof.
  intros Hr [Hx Hy]. simpl in *.
  destruct (rect_lookup w h g x y Hr Hx Hy) as (row & Hrow & _ & Hc).
  by rewrite (grid_sum_set f 0 x y g row _ c Hrow Hc).
Qed.

Lemma rect_bump o g n : rect w h g -> rect w h (bump o g n).
Proof. apply rect_set. Qed.

Lemma rect_foldl_bump o g l : rect w h g -> rect w h (foldl (bump o) g l).
Proof.
  revert g. induction l as [|n l IH]; intros g Hr; [done|].
  simpl. apply IH. by apply rect_bump.
Qed.

Lemma rect_explode g (e : Blast) : rect w h g -> rect w h (explode w h g e).
Proof.
  destruct e as [[x y] o]. intros Hr. unfold explode.
  apply rect_foldl_bump. by apply rect_set.
Qed.

Lemma rect_explode_all g l : rect w h g -> rect w h (explode_all w h g l).
Proof.
  revert g. induction l as [|e l IH]; intros g Hr; [done|].
  apply IH. by apply rect_explode.
Qed.

(** A bump adds one unit at its position. *)
Lemma grid_sum_foldl_bump f o g l :
  rect w h g -> Forall (in_grid w h) l ->
  grid_sum f 0 (foldl (bump o) g l) =
    grid_sum f 0 g + foldr Z.add 0 ((fun n => f n.1 n.2) <$> l).
Proof.
  revert g. induction l as [|[a b] l IH]; intros g Hr Hl; csimpl; [lia|].
  inversion_clear Hl as [|? ? Hn Hl'].
  rewrite IH by (done || by apply rect_bump).
  unfold bump. simpl. rewrite grid_sum_set_rect by done. simpl. lia.
Qed.

(** The effect of one explosion on a weighted sum: the cleared count
    leaves, one unit arrives at every neighbour. *)
Lemma grid_sum_explode f g x y o :
  rect w h g -> in_grid w h (x, y) ->
  grid_sum f 0 (explode w h g (x, y, o)) =
    grid_sum f 0 g - f x y * cell_count (grid_get g x y)
    + foldr Z.add 0 ((fun n => f n.1 n.2) <$> get_neighbors x y w h).
Proof.
  intros Hr Hin. unfold explode.
  rewrite grid_sum_foldl_bump.
  - rewrite grid_sum_set_rect by done. simpl. lia.
  - by apply rect_set.
  - apply Forall_forall. intros n. by apply get_neighbors_in_grid.
Qed.

Lemma foldl_bump_get o g l a b :
  rect w h g -> Forall (in_grid w h) l -> NoDup l ->
  grid_get (foldl (bump o) g l) a b =
    if decide ((a, b) ∈ l) then Owned o (cell_count (grid_get g a b) + 1)
    else grid_get g a b.
Proof.
  revert g. induction l as [|[nx ny] l IH]; intros g Hr Hl Hnd.
  - rewrite decide_False by apply not_elem_of_nil. done.
  - rewrite Forall_cons in Hl. destruct Hl as [[Hnx Hny] Hl'].
    rewrite NoDup_cons in Hnd. destruct Hnd as [Hnotin Hnd]. simpl in *.
    rewrite IH by (done || by apply rect_bump).
    unfold bump. simpl.
    rewrite !(grid_get_set w h) by done.
    destruct (decide ((nx, ny) = (a, b))) as [Heq|Hne].
    + simplify_eq.
      rewrite (decide_False (P := (a, b) ∈ l)) by done.
      rewrite decide_True by (apply elem_of_cons; by left). done.
    + destruct (decide ((a, b) ∈ l)) as [Hin|Hnin].
      * rewrite decide_True by (apply elem_of_cons; by right). done.
      * rewrite decide_False; [done|].
        rewrite elem_of_cons. intros [?|?]; congruence.
Qed.

(** The board after one explosion, cell by cell. *)
Lemma explode_get g x y o a b :
  rect w h g -> in_grid w h (x, y) ->
  grid_get (explode w h g (x, y, o)) a b =
    if decide ((a, b) = (x, y)) then Empty
    else if decide ((a, b) ∈ get_neighbors x y w h)
         then Owned o (cell_count (grid_get g a b) + 1)
         else grid_get g a b.
Proof.
  intros Hr [Hx Hy]. simpl in *. unfold explode.
  rewrite foldl_bump_get.
  - rewrite !(grid_get_set w h) by done.
    destruct (decide ((a, b) = (x, y))) as [Heq|Hne].
    + rewrite decide_False; [by rewrite decide_True|].
      rewrite Heq. apply get_neighbors_irrefl.
    + rewrite (decide_False (P := (x, y) = (a, b))) by congruence. done.
  - by apply rect_set.
  - apply Forall_forall. intros n. by apply get_neighbors_in_grid.
  - apply get_neighbors_NoDup.
Qed.
End explosion.

(* ================================================================== *)
(** ** The scan *)
(* ================================================================== *)

Section scanning.
Context (w h : nat).
Implicit Types (g : Grid) (x y : nat) (o : Role).

Lemma elem_of_scan_cell g x y (e : Blast) :
  e ∈ scan_cell g x y ↔
    ∃ o n, e = (x, y, o) ∧ grid_get g x y = Owned o n ∧ 4 <= n.
Proof.
  unfold scan_cell. destruct (grid_get g x y) as [|o n].
  - rewrite elem_of_nil. split; [done|]. by intros (? & ? & _ & ? & _).
  - case_bool_decide as Hn.
    + rewrite list_elem_of_singleton. split.
      * intros ->. by exists o, n.
      * intros (o' & n' & -> & [= -> ->] & _). done.
    + rewrite elem_of_nil. split; [done|].
      intros (o' & n' & _ & [= -> ->] & ?). lia.
Qed.

Lemma elem_of_scan g x y o :
  (x, y, o) ∈ scan g w h ↔
    (x < w)%nat ∧ (y < h)%nat ∧ ∃ n, grid_get g x y = Owned o n ∧ 4 <= n.
Proof.
  unfold scan. rewrite list_elem_of_In, in_flat_map. split.
  - intros (y' & Hy' & Hin). apply in_flat_map in Hin as (x' & Hx' & Hin).
    apply in_seq in Hy', Hx'. apply list_elem_of_In, elem_of_scan_cell in Hin.
    destruct Hin as (o' & n & [= -> -> ->] & Hget & Hn).
    split; [lia|]. split; [lia|]. by exists n.
  - intros (Hx & Hy & n & Hget & Hn).
    exists y. split; [apply in_seq; lia|].
    apply in_flat_map. exists x. split; [apply in_seq; lia|].
    apply list_elem_of_In, elem_of_scan_cell. by exists o, n.
Qed.

Lemma scan_nil g :
  scan g w h = [] ↔
    ∀ x y, (x < w)%nat -> (y < h)%nat -> cell_count (grid_get g x y) < 4.
Proof.
  split.
  - intros Hnil x y Hx Hy.
    destruct (grid_get g x y) as [|o n] eqn:Hget; simpl; [lia|].
    destruct (decide (4 <= n)) as [Hn|]; [|lia].
    assert ((x, y, o) ∈ scan g w h) as Hin by (apply elem_of_scan; eauto).
    rewrite Hnil in Hin. by apply elem_of_nil in Hin.
  - intros Hall. destruct (scan g w h) as [|[[x y] o] l] eqn:Hs; [done|].
    assert ((x, y, o) ∈ scan g w h) as Hin by (rewrite Hs; apply elem_of_cons; by left).
    apply elem_of_scan in Hin as (Hx & Hy & n & Hget & Hn).
    specialize (Hall x y Hx Hy). rewrite Hget in Hall. simpl in Hall. lia.
Qed.

Lemma scan_cell_pos g x y : pos <$> scan_cell g x y = [] ∨ pos <$> scan_cell g x y = [(x, y)].
Proof.
  unfold scan_cell. destruct (grid_get g x y); [by left|].
  case_bool_decide; [by right | by left].
Qed.

(** No cell is collected twice. *)
Lemma scan_NoDup g : NoDup (pos <$> scan g w h).
Proof.
  unfold scan.
  assert (∀ y xs, NoDup xs ->
            NoDup (pos <$> flat_map (fun x => scan_cell g x y) xs) ∧
            ∀ p, p ∈ pos <$> flat_map (fun x => scan_cell g x y) xs -> p.2 = y ∧ p.1 ∈ xs)
    as Hrow.
  { intros y xs. induction xs as [|x xs IH]; intros Hnd.
    - simpl. split; [apply NoDup_nil_2|]. intros p Hp. by apply elem_of_nil in Hp.
    - rewrite NoDup_cons in Hnd. destruct Hnd as [Hx Hnd].
      destruct (IH Hnd) as [IH1 IH2]. simpl. rewrite fmap_app.
      destruct (scan_cell_pos g x y) as [-> | ->]; simpl.
      + split; [done|]. intros p Hp. destruct (IH2 p Hp). split; [done|].
        apply elem_of_cons. by right.
      + split.
        * apply NoDup_cons. split; [|done].
          intros Hp. apply IH2 in Hp as [_ Hp]. done.
        * intros p Hp. apply elem_of_cons in Hp as [-> | Hp].
          -- split; [done|]. apply elem_of_cons. by left.
          -- destruct (IH2 p Hp). split; [done|]. apply elem_of_cons. by right. }
  assert (∀ ys, NoDup ys ->
            NoDup (pos <$> flat_map (fun y => flat_map (fun x => scan_cell g x y) (seq 0 w)) ys) ∧
            ∀ p, p ∈ pos <$> flat_map (fun y => flat_map (fun x => scan_cell g x y) (seq 0 w)) ys ->
                 p.2 ∈ ys) as Hall.
  { intros ys. induction ys as [|y ys IH]; intros Hnd.
    - simpl. split; [apply NoDup_nil_2|]. intros p Hp. by apply elem_of_nil in Hp.
    - rewrite NoDup_cons in Hnd. destruct Hnd as [Hy Hnd].
      destruct (IH Hnd) as [IH1 IH2]. simpl. rewrite fmap_app.
      destruct (Hrow y (seq 0 w) (NoDup_seq 0 w)) as [Hr1 Hr2].
      split.
      + apply NoDup_app. split; [done|]. split; [|done].
        intros p Hp1 Hp2. apply Hr2 in Hp1 as [Hp1 _]. apply IH2 in Hp2.
        rewrite Hp1 in Hp2. done.
      + intros p Hp. apply elem_of_app in Hp as [Hp|Hp].
        * apply Hr2 in Hp as [-> _]. apply elem_of_cons. by left.
        * apply elem_of_cons. right. by apply IH2. }
  apply (Hall (seq 0 h) (NoDup_seq 0 h)).
Qed.

(** What the scan collects is critical on the scanned board. *)
Lemma scan_critical g : critical w h g (scan g w h).
Proof.
  split; [apply scan_NoDup|].
  apply Forall_forall. intros [[x y] o] Hin.
  apply elem_of_scan in Hin as (Hx & Hy & n & Hget & Hn).
  unfold pos, in_grid. simpl. rewrite Hget. simpl. done.
Qed.
End scanning.

(* ================================================================== *)
(** ** Well-formed boards *)
(* ================================================================== *)

Lemma grid_ok_get (g : Grid) (x y : nat) : grid_ok g -> cell_ok (grid_get g x y).
Proof.
  intros Hok. unfold grid_get.
  destruct (g !! y) as [row|] eqn:Hrow; [|done].
  destruct (row !! x) as [c|] eqn:Hc; [|done]. simpl.
  unfold grid_ok in Hok. rewrite Forall_lookup in Hok.
  specialize (Hok y row Hrow). rewrite Forall_lookup in Hok. by apply (Hok x).
Qed.

Lemma cell_ok_count (c : cell) : cell_ok c -> 0 <= cell_count c.
Proof. destruct c; simpl; lia. Qed.

Lemma grid_ok_count (g : Grid) (x y : nat) : grid_ok g -> 0 <= cell_count (grid_get g x y).
Proof. intros Hok. by apply cell_ok_count, grid_ok_get. Qed.

Lemma grid_ok_set (g : Grid) (x y : nat) (c : cell) :
  grid_ok g -> cell_ok c -> grid_ok (grid_set g x y c).
Proof.
  intros Hok Hc. unfold grid_ok, grid_set in *.
  apply Forall_alter; [done|].
  intros row _ Hrow. by apply Forall_insert.
Qed.

Lemma grid_ok_bump (o : Role) (g : Grid) (n : nat * nat) : grid_ok g -> grid_ok (bump o g n).
Proof.
  intros Hok. unfold bump. apply grid_ok_set; [done|]. simpl.
  pose proof (grid_ok_count g n.1 n.2 Hok). lia.
Qed.

Lemma grid_ok_explode (w h : nat) (g : Grid) (e : Blast) :
  grid_ok g -> grid_ok (explode w h g e).
Proof.
  destruct e as [[x y] o]. intros Hok. unfold explode.
  assert (grid_ok (grid_set g x y Empty)) as Hok' by (by apply grid_ok_set).
  revert Hok'. generalize (grid_set g x y Empty) as g'.
  induction (get_neighbors x y w h) as [|n l IH]; intros g' Hok'; [done|].
  simpl. apply IH. by apply grid_ok_bump.
Qed.

Lemma grid_ok_explode_all (w h : nat) (g : Grid) (l : list Blast) :
  grid_ok g -> grid_ok (explode_all w h g l).
Proof.
  revert g. induction l as [|e l IH]; intros g Hok; [done|].
  apply IH. by apply grid_ok_explode.
Qed.

Lemma row_sum_nonneg (f : nat -> Z) (i : nat) (row : list cell) :
  (∀ k c, row !! k = Some c -> 0 <= f (i + k)%nat * cell_count c) ->
  0 <= row_sum f i row.
Proof.
  revert i. induction row as [|c row IH]; intros i Hf; simpl; [lia|].
  pose proof (Hf 0%nat c eq_refl) as H0. rewrite Nat.add_0_r in H0.
  assert (0 <= row_sum f (S i) row); [|lia].
  apply IH. intros k c' Hk.
  replace (S i + k)%nat with (i + S k)%nat by lia. by apply Hf.
Qed.

Lemma grid_sum_nonneg (f : nat -> nat -> Z) (j : nat) (g : Grid) :
  (∀ x y row c, g !! y = Some row -> row !! x = Some c ->
                0 <= f x (j + y)%nat * cell_count c) ->
  0 <= grid_sum f j g.
Proof.
  revert j. induction g as [|row g IH]; intros j Hf; simpl; [lia|].
  assert (0 <= row_sum (fun x => f x j) 0 row).
  { apply row_sum_nonneg. intros k c Hk. simpl.
    specialize (Hf k 0%nat row c eq_refl Hk). by rewrite Nat.add_0_r in Hf. }
  assert (0 <= grid_sum f (S j) g); [|lia].
  apply IH. intros x y row' c Hy Hx.
  replace (S j + y)%nat with (j + S y)%nat by lia. by apply (Hf x (S y) row' c).
Qed.

(* ================================================================== *)
(** ** The weighted mass drops at every explosion *)
(* ================================================================== *)

Lemma explode_all_cons (w h : nat) (g : Grid) (e : Blast) (l : list Blast) :
  explode_all w h g (e :: l) = explode_all w h (explode w h g e) l.
Proof. reflexivity. Qed.

Section potential.
Context (w h : nat).
Implicit Types (g : Grid) (x y : nat) (o : Role).

Lemma weight_pos x y : in_grid w h (x, y) -> 1 <= weight w h x y.
Proof. unfold in_grid, weight. simpl. intros [Hx Hy]. nia. Qed.

Lemma weight_superharmonic x y :
  in_grid w h (x, y) ->
  foldr Z.add 0 ((fun n => weight w h n.1 n.2) <$> get_neighbors x y w h)
    <= 4 * weight w h x y - 4.
Proof.
  unfold in_grid, get_neighbors, weight. simpl. intros [Hx Hy].
  repeat case_bool_decide; simpl;
    rewrite ?Nat2Z.inj_sub, ?Nat2Z.inj_add by lia; nia.
Qed.

Lemma potential_nonneg g : rect w h g -> grid_ok g -> 0 <= potential w h g.
Proof.
  intros [Hh Hw] Hok. unfold potential. apply grid_sum_nonneg.
  intros x y row c Hy Hx. simpl.
  assert (1 <= weight w h x y) as Hwt.
  { apply weight_pos. split; simpl.
    - rewrite Forall_lookup in Hw. rewrite <- (Hw y row Hy).
      by apply lookup_lt_Some in Hx.
    - rewrite <- Hh. by apply lookup_lt_Some in Hy. }
  assert (0 <= cell_count c) as Hc.
  { apply cell_ok_count. unfold grid_ok in Hok. rewrite Forall_lookup in Hok.
    specialize (Hok y row Hy). rewrite Forall_lookup in Hok. by apply (Hok x). }
  nia.
Qed.

Lemma potential_explode g x y o :
  rect w h g -> in_grid w h (x, y) -> 4 <= cell_count (grid_get g x y) ->
  potential w h (explode w h g (x, y, o)) <= potential w h g - 4.
Proof.
  intros Hr Hin Hc. unfold potential.
  rewrite (grid_sum_explode w h) by done.
  pose proof (weight_superharmonic x y Hin).
  pose proof (weight_pos x y Hin). nia.
Qed.

Lemma mass_explode g x y o :
  rect w h g -> in_grid w h (x, y) ->
  mass (explode w h g (x, y, o)) =
    mass g - cell_count (grid_get g x y) + Z.of_nat (length (get_neighbors x y w h)).
Proof.
  intros Hr Hin. rewrite !mass_grid_sum.
  rewrite (grid_sum_explode w h) by done.
  assert (∀ l : list (nat * nat),
            foldr Z.add 0 ((fun _ => 1) <$> l) = Z.of_nat (length l)) as Hlen.
  { induction l as [|n l IH]; csimpl; lia. }
  rewrite Hlen. lia.
Qed.

(** Cells waiting in the list keep at least their count while the cells
    before them explode. *)
Lemma critical_tail g (e : Blast) (l : list Blast) :
  rect w h g -> critical w h g (e :: l) -> critical w h (explode w h g e) l.
Proof.
  intros Hr [Hnd Hall]. destruct e as [[x y] o].
  rewrite fmap_cons, NoDup_cons in Hnd. destruct Hnd as [Hnotin Hnd].
  rewrite Forall_cons in Hall. destruct Hall as [[Hin _] Hall].
  split; [done|].
  rewrite Forall_forall in Hall. apply Forall_forall. intros e' He'.
  destruct (Hall e' He') as [Hin' Hc']. split; [done|].
  destruct e' as [[a b] o']. unfold pos in *. simpl in Hin, Hin', Hc', Hnotin. simpl fst. simpl snd.
  rewrite (explode_get w h) by done.
  rewrite decide_False.
  - case_decide; simpl; lia.
  - intros Heq. apply Hnotin. rewrite <- Heq.
    apply (list_elem_of_fmap_2 pos l (a, b, o')). done.
Qed.

Lemma potential_explode_all g (l : list Blast) :
  rect w h g -> critical w h g l ->
  potential w h (explode_all w h g l) <= potential w h g - 4 * Z.of_nat (length l).
Proof.
  revert g. induction l as [|e l IH]; intros g Hr Hcr; [simpl; lia|].
  pose proof (critical_tail g e l Hr Hcr) as Hcr'.
  destruct Hcr as [_ Hall]. rewrite Forall_cons in Hall. destruct Hall as [[Hin Hc] _].
  destruct e as [[x y] o]. unfold pos in *. simpl in Hin, Hc.
  rewrite explode_all_cons.
  specialize (IH _ (rect_explode w h g (x, y, o) Hr) Hcr').
  pose proof (potential_explode g x y o Hr Hin Hc).
  rewrite length_cons, Nat2Z.inj_succ. lia.
Qed.

(** The mass after a wave: the cleared counts leave, one unit travels
    along every edge. *)
Lemma mass_explode_all g (l : list Blast) :
  rect w h g -> Forall (fun e => in_grid w h (pos e)) l ->
  mass (explode_all w h g l) = mass g + edges w h l - cleared w h g l.
Proof.
  revert g. induction l as [|e l IH]; intros g Hr Hall; [unfold edges; simpl; lia|].
  rewrite Forall_cons in Hall. destruct Hall as [Hin Hall].
  destruct e as [[x y] o]. unfold pos in Hin. simpl in Hin.
  rewrite explode_all_cons.
  rewrite (IH _ (rect_explode w h g (x, y, o) Hr) Hall).
  rewrite mass_explode by done.
  unfold edges. rewrite fmap_cons. simpl. lia.
Qed.

Lemma cleared_critical g (l : list Blast) :
  rect w h g -> critical w h g l -> 4 * Z.of_nat (length l) <= cleared w h g l.
Proof.
  revert g. induction l as [|e l IH]; intros g Hr Hcr; [simpl; lia|].
  pose proof (critical_tail g e l Hr Hcr) as Hcr'.
  destruct Hcr as [_ Hall]. rewrite Forall_cons in Hall. destruct Hall as [[Hin Hc] _].
  specialize (IH _ (rect_explode w h g e Hr) Hcr').
  unfold pos in Hc. simpl cleared. rewrite length_cons, Nat2Z.inj_succ. lia.
Qed.

Lemma edges_bound (l : list Blast) : edges w h l <= 4 * Z.of_nat (length l).
Proof.
  unfold edges. induction l as [|e l IH]; [simpl; lia|].
  rewrite fmap_cons, length_cons, Nat2Z.inj_succ. simpl.
  pose proof (get_neighbors_length w h e.1.1 e.1.2). lia.
Qed.
End potential.

(* ================================================================== *)
(** ** The wave loop *)
(* ================================================================== *)

Section loop.
Context (w h : nat).
Implicit Types (g : Grid).

Lemma rect_wave g : rect w h g -> rect w h (wave w h g).
Proof. apply rect_explode_all. Qed.

Lemma grid_ok_wave g : grid_ok g -> grid_ok (wave w h g).
Proof. apply grid_ok_explode_all. Qed.

Lemma potential_wave g :
  rect w h g -> scan g w h ≠ [] ->
  potential w h (wave w h g) <= potential w h g - 4.
Proof.
  intros Hr Hne. unfold wave.
  pose proof (potential_explode_all w h g _ Hr (scan_critical w h g)) as Hp.
  destruct (scan g w h); [done|]. rewrite length_cons, Nat2Z.inj_succ in Hp. lia.
Qed.

Lemma reaction_loop_step fuel g :
  scan g w h ≠ [] ->
  reaction_loop (S fuel) w h g = reaction_loop fuel w h (wave w h g).
Proof. intros Hne. unfold wave. simpl. by destruct (scan g w h). Qed.

Lemma reaction_loop_rest fuel g :
  scan g w h = [] -> reaction_loop (S fuel) w h g = Return g.
Proof. intros Hnil. simpl. by rewrite Hnil. Qed.

Lemma wave_boards_step fuel g :
  scan g w h ≠ [] ->
  wave_boards (S fuel) w h g = wave w h g :: wave_boards fuel w h (wave w h g).
Proof. intros Hne. unfold wave. simpl. by destruct (scan g w h). Qed.

Lemma wave_boards_rest fuel g : scan g w h = [] -> wave_boards fuel w h g = [].
Proof. intros Hnil. destruct fuel; [done|]. simpl. by rewrite Hnil. Qed.

(** With [n] units of fuel and a weighted mass below [4 * n] the loop
    leaves through [break], on a board at rest, after fewer than [n]
    waves; more fuel changes nothing. *)
Lemma reaction_loop_terminates (n : nat) g :
  rect w h g -> grid_ok g -> potential w h g < 4 * Z.of_nat n ->
  ∃ g', (∀ fuel, (n <= fuel)%nat -> reaction_loop fuel w h g = Return g') ∧
        (∀ fuel, (n <= fuel)%nat ->
           (length (wave_boards fuel w h g) < n)%nat ∧
           last (g :: wave_boards fuel w h g) = Some g') ∧
        rect w h g' ∧ grid_ok g' ∧ at_rest w h g'.
Proof.
  revert g. induction n as [|n IH]; intros g Hr Hok Hpot.
  - pose proof (potential_nonneg w h g Hr Hok). lia.
  - destruct (decide (scan g w h = [])) as [Hnil|Hne].
    + exists g. split; [|split].
      * intros [|fuel] Hf; [lia|]. by apply reaction_loop_rest.
      * intros fuel Hf. rewrite wave_boards_rest by done. simpl. split; [lia|done].
      * done.
    + destruct (IH (wave w h g)) as (g' & Hrun & Hwaves & Hfin).
      * by apply rect_wave.
      * by apply grid_ok_wave.
      * pose proof (potential_wave g Hr Hne). lia.
      * exists g'. split; [|split; [|done]].
        -- intros [|fuel] Hf; [lia|]. rewrite reaction_loop_step by done.
           apply Hrun. lia.
        -- intros [|fuel] Hf; [lia|]. rewrite wave_boards_step by done.
           destruct (Hwaves fuel ltac:(lia)) as [Hlen Hlast].
           split; [simpl; lia|]. by rewrite last_cons_cons.
Qed.

Lemma reaction_loop_inv fuel g g' :
  rect w h g -> grid_ok g -> reaction_loop fuel w h g = Return g' ->
  rect w h g' ∧ grid_ok g' ∧ at_rest w h g' ∧
  last (g :: wave_boards fuel w h g) = Some g'.
Proof.
  revert g. induction fuel as [|fuel IH]; intros g Hr Hok Hrun; [done|].
  destruct (decide (scan g w h = [])) as [Hnil|Hne].
  - rewrite reaction_loop_rest in Hrun by done. injection Hrun as <-.
    rewrite wave_boards_rest by done. done.
  - rewrite reaction_loop_step in Hrun by done.
    rewrite wave_boards_step by done. rewrite last_cons_cons.
    apply IH; [by apply rect_wave | by apply grid_ok_wave | done].
Qed.

Lemma reaction_loop_at_rest fuel g :
  at_rest w h g -> reaction_loop (S fuel) w h g = Return g.
Proof. apply reaction_loop_rest. Qed.
End loop.

(* ================================================================== *)
(** ** The storage *)
(* ================================================================== *)

Lemma setdefault_lookup {V : Type} (k : string) (v : V) (d : gmap string V) :
  setdefault k v d !! k = Some (default v (d !! k)).
Proof.
  unfold setdefault. destruct (d !! k) eqn:Hk; simpl; [done|].
  by rewrite lookup_insert_eq.
Qed.

Lemma setdefault_lookup_ne {V : Type} (k k' : string) (v : V) (d : gmap string V) :
  k ≠ k' -> setdefault k v d !! k' = d !! k'.
Proof.
  intros Hne. unfold setdefault. destruct (d !! k); [done|].
  by rewrite lookup_insert_ne.
Qed.

Lemma setdefault_lookup_Some {V : Type} (k k' : string) (v x : V) (d : gmap string V) :
  d !! k' = Some x -> setdefault k v d !! k' = Some x.
Proof.
  intros Hx. destruct (decide (k = k')) as [->|Hne].
  - by rewrite setdefault_lookup, Hx.
  - by rewrite setdefault_lookup_ne.
Qed.

Lemma setdefault_id {V : Type} (k : string) (v : V) (d : gmap string V) :
  is_Some (d !! k) -> setdefault k v d = d.
Proof. intros [x Hx]. unfold setdefault. by rewrite Hx. Qed.

Lemma ensure_game_initialized_id (gid : string) (s : Store) :
  is_Some (games s !! gid) -> is_Some (subscribers s !! gid) ->
  is_Some (initial_moves_done s !! gid) ->
  ensure_game_initialized gid s = s.
Proof.
  intros Hg Hq Hf. unfold ensure_game_initialized.
  rewrite !setdefault_id by done. by destruct s.
Qed.

Lemma new_empty_grid_ok : board_ok new_empty_grid.
Proof.
  split; [|split].
  - split; [done|]. repeat constructor.
  - repeat constructor.
  - reflexivity.
Qed.

Lemma store_ok_ensure (gid : string) (s : Store) :
  store_ok s -> store_ok (ensure_game_initialized gid s).
Proof.
  intros [Hb Ht]. split.
  - intros gid' st. simpl. destruct (decide (gid = gid')) as [<-|Hne].
    + rewrite setdefault_lookup. intros [= <-].
      destruct (games s !! gid) as [st|] eqn:Hst; simpl; [by apply (Hb gid)|].
      apply new_empty_grid_ok.
    + rewrite setdefault_lookup_ne by done. apply Hb.
  - intros tok gid' r Htok. simpl in *.
    destruct (Ht tok gid' r Htok) as ([st Hst] & [qs Hqs] & [fl Hfl]).
    rewrite (setdefault_lookup_Some _ _ _ _ _ Hst), (setdefault_lookup_Some _ _ _ _ _ Hqs),
      (setdefault_lookup_Some _ _ _ _ _ Hfl). eauto.
Qed.

(* ================================================================== *)
(** ** The move handler, case by case *)
(* ================================================================== *)

Lemma grid_set_first_row (g : Grid) (x y : nat) (c : cell) (row0 : list cell) :
  g !! 0%nat = Some row0 ->
  ∃ row0', grid_set g x y c !! 0%nat = Some row0' ∧ length row0' = length row0.
Proof.
  intros Hrow. unfold grid_set. destruct y as [|y].
  - rewrite list_lookup_alter_eq, Hrow. simpl. eexists. split; [done|].
    by rewrite length_insert.
  - rewrite list_lookup_alter_ne by done. eauto.
Qed.

Lemma grid_set_length (g : Grid) (x y : nat) (c : cell) :
  length (grid_set g x y c) = length g.
Proof. unfold grid_set. by rewrite length_alter. Qed.

Lemma process_reactions_eq (fuel : nat) (gid : string) (player : Role) (s : Store)
    (st : GameState.t) (row0 : list cell) :
  games s !! gid = Some st ->
  GameState.grid st !! 0%nat = Some row0 ->
  process_reactions fuel gid player s =
    g' ← reaction_loop fuel (length row0) (length (GameState.grid st)) (GameState.grid st);
    Return (set_games s (<[gid := set_grid st g']> (games s))).
Proof.
  intros Hst Hrow. unfold process_reactions, first_row. rewrite Hst. simpl.
  rewrite Hrow. done.
Qed.

Section move_cases.
Context (fuel : nat) (move : Move.t) (s : Store) (gid : string) (player : Role).
Context (st : GameState.t) (flags : Flags) (row0 : list cell).
Context (Htok : player_tokens s !! Move.token move = Some (gid, player)).
Context (Hst : games (ensure_game_initialized gid s) !! gid = Some st).
Context (Hfl : initial_moves_done (ensure_game_initialized gid s) !! gid = Some flags).
Context (Hrow : GameState.grid st !! 0%nat = Some row0).

Lemma move_endpoint_eq :
  move_endpoint fuel move s =
    let s1 := ensure_game_initialized gid s in
    let grid := GameState.grid st in
    if off_board (length row0) (length grid) (Move.x move) (Move.y move)
    then Return (Error "Invalid coordinates", s1)
    else
      let x := Z.to_nat (Move.x move) in
      let y := Z.to_nat (Move.y move) in
      let cell := grid_get grid x y in
      if negb (flag_get flags player) then
        match cell_owner cell with
        | None =>
            Return (Ok, after_opening gid player flags
                          (next_state st (grid_set grid x y (Owned player 1)) player) s1)
        | Some _ => Return (Error "Invalid initial move", s1)
        end
      else if bool_decide (cell_owner cell ≠ Some player) then
        Return (Error "Not your cell", s1)
      else
        g' ← reaction_loop fuel (length row0) (length grid)
               (grid_set grid x y (Owned player (cell_count cell + 1)));
        Return (Ok, after_increment gid (next_state st g' player) s1).
Proof.
  unfold move_endpoint. rewrite Htok.
  revert Hst Hfl. generalize (ensure_game_initialized gid s). intros s1 Hst Hfl.
  rewrite Hst. simpl. unfold first_row. rewrite Hrow. simpl.
  unfold off_board.
  destruct (bool_decide (Move.y move < 0) || bool_decide (Move.y move >= Z.of_nat (length (GameState.grid st)))
            || bool_decide (Move.x move < 0) || bool_decide (Move.x move >= Z.of_nat (length row0))); [done|].
  rewrite Hfl. simpl.
  destruct (negb (flag_get flags player)).
  - destruct (cell_owner _); [done|].
    unfold after_opening, broadcast, set_games, set_subscribers, set_initial_moves_done,
      set_current_player, set_grid, next_state. simpl. done.
  - case_bool_decide; [done|].
    set (g0 := grid_set _ _ _ _).
    destruct (grid_set_first_row (GameState.grid st) (Z.to_nat (Move.x move))
                (Z.to_nat (Move.y move)) (Owned player (cell_count
                   (grid_get (GameState.grid st) (Z.to_nat (Move.x move)) (Z.to_nat (Move.y move))) + 1))
                row0 Hrow) as (row0' & Hrow0' & Hlen).
    fold g0 in Hrow0'.
    rewrite (process_reactions_eq fuel gid player _ (set_grid st g0) row0').
    + simpl. rewrite Hlen.
      replace (length g0) with (length (GameState.grid st)) by (symmetry; apply grid_set_length).
      destruct (reaction_loop fuel (length row0) (length (GameState.grid st)) g0) as [g'| |];
        simpl; [|done|done].
      rewrite lookup_insert_eq. simpl.
      unfold after_increment, broadcast, set_games, set_subscribers, set_current_player,
        set_grid, next_state. simpl.
      rewrite !insert_insert_eq. done.
    + simpl. by rewrite lookup_insert_eq.
    + done.
Qed.
End move_cases.

Lemma off_board_false (w h : nat) (x y : Z) :
  off_board w h x y = false ↔ 0 <= x < Z.of_nat w ∧ 0 <= y < Z.of_nat h.
Proof.
  unfold off_board. rewrite !orb_false_iff, !bool_decide_eq_false. lia.
Qed.

Lemma off_board_in_grid (w h : nat) (x y : Z) :
  off_board w h x y = false -> in_grid w h (Z.to_nat x, Z.to_nat y).
Proof. rewrite off_board_false. unfold in_grid. simpl. lia. Qed.

Lemma ensure_games (gid : string) (s : Store) :
  games (ensure_game_initialized gid s) !! gid
  = Some (default (new_game gid) (games s !! gid)).
Proof. apply setdefault_lookup. Qed.

Lemma ensure_flags (gid : string) (s : Store) :
  initial_moves_done (ensure_game_initialized gid s) !! gid
  = Some (default (mkFlags false false) (initial_moves_done s !! gid)).
Proof. apply setdefault_lookup. Qed.

Lemma ensure_subscribers (gid : string) (s : Store) :
  subscribers (ensure_game_initialized gid s) !! gid
  = Some (default [] (subscribers s !! gid)).
Proof. apply setdefault_lookup. Qed.

Lemma rect_first_row (w h : nat) (g : Grid) :
  rect w h g -> (0 < h)%nat -> ∃ row0, g !! 0%nat = Some row0 ∧ length row0 = w ∧ length g = h.
Proof.
  intros [Hh Hw] Hpos. destruct g as [|row0 g]; simpl in *; [lia|].
  exists row0. split; [done|]. split; [|done]. by inversion Hw.
Qed.

Lemma board_ok_set (g : Grid) (x y : nat) (c : cell) :
  board_ok g -> in_grid 5 5 (x, y) -> cell_ok c -> cell_count c < 4 ->
  board_ok (grid_set g x y c).
Proof.
  intros (Hr & Hok & Hrest) [Hx Hy] Hc Hlt. simpl in *.
  split; [by apply rect_set|]. split; [by apply grid_ok_set|].
  unfold at_rest in *. apply scan_nil. intros a b Ha Hb.
  rewrite (grid_get_set 5 5) by done. case_decide; [done|].
  by eapply scan_nil.
Qed.

Lemma store_ok_intro (s s' : Store) :
  store_ok s ->
  player_tokens s' = player_tokens s ->
  (∀ gid st, games s' !! gid = Some st -> board_ok (GameState.grid st)) ->
  (∀ gid, is_Some (games s !! gid) -> is_Some (games s' !! gid)) ->
  (∀ gid, is_Some (subscribers s !! gid) -> is_Some (subscribers s' !! gid)) ->
  (∀ gid, is_Some (initial_moves_done s !! gid) -> is_Some (initial_moves_done s' !! gid)) ->
  store_ok s'.
Proof.
  intros [Hb Ht] Htok Hb' Hg Hq Hf. split; [done|].
  intros tok gid r Hlk. rewrite Htok in Hlk.
  destruct (Ht tok gid r Hlk) as (? & ? & ?). split; [|split]; auto.
Qed.

Lemma store_ok_after_opening (gid : string) (player : Role) (flags : Flags)
    (st : GameState.t) (s : Store) :
  store_ok s -> board_ok (GameState.grid st) ->
  store_ok (after_opening gid player flags st s).
Proof.
  intros Hok Hb. apply (store_ok_intro s); simpl; [done|done|..].
  - intros gid' st'. destruct (decide (gid = gid')) as [<-|Hne].
    + rewrite lookup_insert_eq. by intros [= <-].
    + rewrite lookup_insert_ne by done. apply Hok.
  - intros gid' Hs. apply lookup_insert_is_Some'. by right.
  - intros gid' Hs. by apply lookup_alter_is_Some.
  - intros gid' Hs. apply lookup_insert_is_Some'. by right.
Qed.

Lemma store_ok_after_increment (gid : string) (st : GameState.t) (s : Store) :
  store_ok s -> board_ok (GameState.grid st) ->
  store_ok (after_increment gid st s).
Proof.
  intros Hok Hb. apply (store_ok_intro s); simpl; [done|done|..].
  - intros gid' st'. destruct (decide (gid = gid')) as [<-|Hne].
    + rewrite lookup_insert_eq. by intros [= <-].
    + rewrite lookup_insert_ne by done. apply Hok.
  - intros gid' Hs. apply lookup_insert_is_Some'. by right.
  - intros gid' Hs. by apply lookup_alter_is_Some.
  - done.
Qed.

(** The data a valid token gives access to, on a well-formed storage. *)
Lemma session_of_token (s : Store) (gid : string) :
  store_ok s ->
  ∃ st flags row0,
    games (ensure_game_initialized gid s) !! gid = Some st ∧
    initial_moves_done (ensure_game_initialized gid s) !! gid = Some flags ∧
    GameState.grid st !! 0%nat = Some row0 ∧
    length row0 = 5%nat ∧ length (GameState.grid st) = 5%nat ∧
    board_ok (GameState.grid st) ∧
    st = default (new_game gid) (games s !! gid) ∧
    flags = default (mkFlags false false) (initial_moves_done s !! gid).
Proof.
  intros Hok. pose proof (store_ok_ensure gid s Hok) as [Hb _].
  pose proof (ensure_games gid s) as Hst. pose proof (ensure_flags gid s) as Hfl.
  specialize (Hb _ _ Hst).
  destruct (rect_first_row 5 5 _ (proj1 Hb)) as (row0 & Hrow & Hw & Hh); [lia|].
  eexists _, _, row0. do 6 (split; [done|]). done.
Qed.

(** On a well-formed storage the handler answers, given enough fuel, and
    leaves a well-formed storage. *)
Lemma move_endpoint_store_ok (fuel : nat) (move : Move.t) (r : Response) (s s' : Store) :
  store_ok s -> move_endpoint fuel move s = Return (r, s') -> store_ok s'.
Proof.
  intros Hok Hrun.
  destruct (player_tokens s !! Move.token move) as [[gid player]|] eqn:Htok.
  - destruct (session_of_token s gid Hok)
      as (st & flags & row0 & Hst & Hfl & Hrow & Hw & Hh & Hb & _ & _).
    rewrite (move_endpoint_eq fuel move s gid player st flags row0 Htok Hst Hfl Hrow) in Hrun.
    simpl in Hrun. rewrite Hw, Hh in Hrun.
    pose proof (store_ok_ensure gid s Hok) as Hok1.
    destruct (off_board 5 5 (Move.x move) (Move.y move)) eqn:Hoff.
    { injection Hrun as <- <-. done. }
    pose proof (off_board_in_grid _ _ _ _ Hoff) as Hin.
    destruct (negb (flag_get flags player)).
    + destruct (cell_owner _) eqn:Hown.
      { injection Hrun as <- <-. done. }
      injection Hrun as <- <-. apply store_ok_after_opening; [done|]. simpl.
      apply board_ok_set; simpl; try done; lia.
    + case_bool_decide.
      { injection Hrun as <- <-. done. }
      destruct (reaction_loop fuel 5 5 _) as [g'| |] eqn:Hloop; simpl in Hrun; [|done|done].
      injection Hrun as <- <-. apply store_ok_after_increment; [done|]. simpl.
      destruct Hb as (Hr & Hgok & _).
      apply reaction_loop_inv in Hloop as (? & ? & ? & _); try done.
      * by apply rect_set.
      * apply grid_ok_set; [done|]. simpl.
        pose proof (grid_ok_count (GameState.grid st) (Z.to_nat (Move.x move))
                      (Z.to_nat (Move.y move)) Hgok). lia.
  - unfold move_endpoint in Hrun. rewrite Htok in Hrun. by injection Hrun as <- <-.
Qed.

Lemma move_endpoint_returns (move : Move.t) (s : Store) :
  store_ok s ->
  ∃ n r s', ∀ fuel, (n <= fuel)%nat -> move_endpoint fuel move s = Return (r, s').
Proof.
  intros Hok.
  destruct (player_tokens s !! Move.token move) as [[gid player]|] eqn:Htok.
  - destruct (session_of_token s gid Hok)
      as (st & flags & row0 & Hst & Hfl & Hrow & Hw & Hh & Hb & _ & _).
    pose proof (fun fuel => move_endpoint_eq fuel move s gid player st flags row0 Htok Hst Hfl Hrow)
      as Heq.
    simpl in Heq. rewrite Hw, Hh in Heq.
    destruct (off_board 5 5 (Move.x move) (Move.y move)) eqn:Hoff.
    { exists 0%nat. eexists _, _. intros fuel _. by rewrite Heq. }
    destruct (negb (flag_get flags player)).
    + destruct (cell_owner _) eqn:Hown;
        exists 0%nat; eexists _, _; intros fuel _; by rewrite Heq.
    + case_bool_decide.
      { exists 0%nat. eexists _, _. intros fuel _. by rewrite Heq. }
      set (g0 := grid_set _ _ _ _) in Heq.
      destruct Hb as (Hr & Hgok & _).
      assert (rect 5 5 g0) as Hr0 by (by apply rect_set).
      assert (grid_ok g0) as Hok0.
      { apply grid_ok_set; [done|]. simpl.
        pose proof (grid_ok_count (GameState.grid st) (Z.to_nat (Move.x move))
                      (Z.to_nat (Move.y move)) Hgok). lia. }
      destruct (reaction_loop_terminates 5 5 (Z.to_nat (potential 5 5 g0) + 1) g0 Hr0 Hok0)
        as (g' & Hrun & _).
      { pose proof (potential_nonneg 5 5 g0 Hr0 Hok0). lia. }
      eexists _, _, _. intros fuel Hf. rewrite Heq, (Hrun fuel Hf). done.
  - exists 0%nat, (HTTP401 "Invalid token"), s. intros fuel _.
    unfold move_endpoint. by rewrite Htok.
Qed.

Lemma store_ok_empty : store_ok empty_store.
Proof. split; intros *; simpl; by rewrite lookup_empty. Qed.

Lemma store_ok_issue_token (gid token : string) (role : Role) (s : Store) :
  store_ok s -> store_ok (issue_token gid token role s).
Proof.
  intros Hok. pose proof (store_ok_ensure gid s Hok) as [Hb Ht].
  split; [done|]. intros tok gid' r. unfold issue_token.
  cbn [player_tokens games subscribers initial_moves_done].
  destruct (decide (token = tok)) as [<-|Hne].
  - rewrite lookup_insert_eq. intros [= <- <-].
    change (is_Some (games (ensure_game_initialized gid s) !! gid) ∧
            is_Some (subscribers (ensure_game_initialized gid s) !! gid) ∧
            is_Some (initial_moves_done (ensure_game_initialized gid s) !! gid)).
    rewrite ensure_games, ensure_subscribers, ensure_flags. eauto.
  - rewrite lookup_insert_ne by done. apply Ht.
Qed.

Lemma store_ok_stream_game (gid : string) (s : Store) :
  store_ok s -> store_ok (stream_game gid s).
Proof.
  intros Hok. pose proof (store_ok_ensure gid s Hok) as Hok1.
  apply (store_ok_intro (ensure_game_initialized gid s)); try done.
  - apply Hok1.
  - intros gid' Hs. unfold stream_game, set_subscribers.
    cbn [subscribers]. by apply lookup_alter_is_Some.
Qed.

Lemma store_ok_stream_close (gid : string) (i : nat) (s : Store) :
  store_ok s -> store_ok (stream_close gid i s).
Proof.
  intros Hok. apply (store_ok_intro s); try done.
  - apply Hok.
  - intros gid' Hs. unfold stream_close, set_subscribers.
    cbn [subscribers]. by apply lookup_alter_is_Some.
Qed.

Lemma step_store_ok (s s' : Store) : step s s' -> store_ok s -> store_ok s'.
Proof.
  intros [gid token role s0 | gid s0 | gid i s0 | fuel move r s0 s1 Hrun] Hok.
  - by apply store_ok_issue_token.
  - by apply store_ok_stream_game.
  - by apply store_ok_stream_close.
  - by eapply move_endpoint_store_ok.
Qed.

(** Every storage the server can get into is well formed. *)
Lemma reachable_store_ok (s : Store) : reachable s -> store_ok s.
Proof.
  unfold reachable. intros Hreach.
  eapply (rtc_ind_r (fun s0 => store_ok s0)); [apply store_ok_empty | | exact Hreach].
  intros y z _ Hstep IH. by eapply step_store_ok.
Qed.

(* ================================================================== *)
(** * The claims *)
(* ================================================================== *)

Lemma center_board_rect : rect 5 5 center_board.
Proof. split; [done|]. repeat constructor. Qed.

Lemma center_board_grid_ok : grid_ok center_board.
Proof. repeat (constructor; try done). Qed.

(** C4.  Reaction resolution terminates by itself.  On a rectangular board
    whose owned cells hold at least one unit (every board the server keeps is
    such a board, see [reachable_store_ok]), there is a number [n] of loop
    iterations such that with any fuel of at least [n] the call returns; the
    loop has then run fewer than [n] waves and the scan of the final board
    finds no cell with count >= 4. *)
Theorem C4_process_reactions_terminates
    (gid : string) (player : Role) (s : Store) (st : GameState.t) (w h : nat) :
  games s !! gid = Some st ->
  rect w h (GameState.grid st) -> (0 < h)%nat -> grid_ok (GameState.grid st) ->
  ∃ (n : nat) (s' : Store) (st' : GameState.t),
    (∀ fuel, (n <= fuel)%nat -> process_reactions fuel gid player s = Return s') ∧
    (length (wave_boards n w h (GameState.grid st)) < n)%nat ∧
    games s' !! gid = Some st' ∧
    scan (GameState.grid st') w h = [].
Proof.
  intros Hst Hr Hh Hok.
  destruct (rect_first_row w h _ Hr Hh) as (row0 & Hrow & Hw & Hlen).
  set (n := (Z.to_nat (potential w h (GameState.grid st)) + 1)%nat).
  destruct (reaction_loop_terminates w h n (GameState.grid st) Hr Hok)
    as (g' & Hrun & Hwaves & _ & _ & Hrest).
  { pose proof (potential_nonneg w h _ Hr Hok). lia. }
  exists n, (set_games s (<[gid := set_grid st g']> (games s))), (set_grid st g').
  split; [|split; [|split]].
  - intros fuel Hf.
    rewrite (process_reactions_eq fuel gid player s st row0 Hst Hrow), Hw, Hlen.
    by rewrite (Hrun fuel Hf).
  - apply (Hwaves n). lia.
  - simpl. by rewrite lookup_insert_eq.
  - done.
Qed.

Lemma C4_witness :
  ∃ (n : nat) (s' : Store) (st' : GameState.t),
    (∀ fuel, (n <= fuel)%nat -> process_reactions fuel "g1" RED center_store = Return s') ∧
    (length (wave_boards n 5 5 center_board) < n)%nat ∧
    games s' !! "g1" = Some st' ∧
    scan (GameState.grid st') 5 5 = [].
Proof.
  apply (C4_process_reactions_terminates "g1" RED center_store
           (GameState.mk "g1" center_board RED) 5 5).
  - reflexivity.
  - apply center_board_rect.
  - lia.
  - apply center_board_grid_ok.
Defined.

Lemma corner_board_rect : rect 5 5 corner_board.
Proof. split; [done|]. repeat constructor. Qed.

(** C2, as stated, fails.  On the board with four units in the middle the
    wave moves the four units to the four neighbours: the mass stays 4 while
    the claim asks for 4 plus the 4 edges.  On the board with four units in a
    corner the wave leaves 2 units: the mass decreases. *)
Lemma C2_counterexample :
  mass (wave 5 5 center_board)
    ≠ mass center_board + edges 5 5 (scan center_board 5 5) ∧
  mass (wave 5 5 corner_board) < mass corner_board.
Proof. split; [by vm_compute | by vm_compute]. Qed.

(** C2, amended.  Across one wave on a rectangular board the total count
    changes by exactly the number of edges from the exploding cells to their
    in-bounds orthogonal neighbours, minus the counts the exploding cells
    hold when they are cleared.  An exploding cell is cleared with at least 4
    units and has at most 4 neighbours, so the total never increases. *)
Theorem C2_wave_mass (w h : nat) (g : Grid) :
  rect w h g ->
  mass (wave w h g)
    = mass g + edges w h (scan g w h) - cleared w h g (scan g w h) ∧
  4 * Z.of_nat (length (scan g w h)) <= cleared w h g (scan g w h) ∧
  edges w h (scan g w h) <= 4 * Z.of_nat (length (scan g w h)) ∧
  mass (wave w h g) <= mass g.
Proof.
  intros Hr.
  pose proof (scan_critical w h g) as Hcr.
  assert (mass (wave w h g)
          = mass g + edges w h (scan g w h) - cleared w h g (scan g w h)) as Hm.
  { apply mass_explode_all; [done|].
    destruct Hcr as [_ Hall]. eapply Forall_impl; [exact Hall|]. by intros e [? _]. }
  pose proof (cleared_critical w h g _ Hr Hcr).
  pose proof (edges_bound w h (scan g w h)).
  repeat split; try done. lia.
Qed.

Lemma C2_witness :
  mass (wave 5 5 corner_board)
    = mass corner_board + edges 5 5 (scan corner_board 5 5)
      - cleared 5 5 corner_board (scan corner_board 5 5) ∧
  4 * Z.of_nat (length (scan corner_board 5 5))
    <= cleared 5 5 corner_board (scan corner_board 5 5) ∧
  edges 5 5 (scan corner_board 5 5) <= 4 * Z.of_nat (length (scan corner_board 5 5)) ∧
  mass (wave 5 5 corner_board) <= mass corner_board.
Proof. apply (C2_wave_mass 5 5 corner_board). apply corner_board_rect. Defined.

(* ================================================================== *)
(** ** Order of the explosions within a wave *)
(* ================================================================== *)

Section order.
Context (w h : nat).
Implicit Types (g : Grid) (e : Blast) (l : list Blast).

Lemma explode_get_pos g e a b :
  rect w h g -> in_grid w h (pos e) ->
  grid_get (explode w h g e) a b =
    if decide ((a, b) = pos e) then Empty
    else if decide ((a, b) ∈ neighbors_of w h (pos e))
         then Owned (blast_owner e) (cell_count (grid_get g a b) + 1)
         else grid_get g a b.
Proof.
  destruct e as [[x y] o]. unfold pos, blast_owner, neighbors_of. simpl.
  apply explode_get.
Qed.

(** Two explosions that do not interact can be swapped. *)
Lemma explode_comm g e1 e2 :
  rect w h g -> in_grid w h (pos e1) -> in_grid w h (pos e2) ->
  indep w h e1 e2 ->
  explode w h (explode w h g e1) e2 = explode w h (explode w h g e2) e1.
Proof.
  intros Hr H1 H2 (Hne & H12 & H21 & Hshare).
  apply (grid_ext w h); [by do 2 apply rect_explode | by do 2 apply rect_explode |].
  intros a b _ _.
  rewrite !explode_get_pos by (done || by apply rect_explode).
  destruct (decide ((a, b) = pos e1)) as [E1|N1];
    destruct (decide ((a, b) = pos e2)) as [E2|N2].
  - congruence.
  - rewrite decide_False; [done|]. by rewrite E1.
  - rewrite decide_False; [done|]. by rewrite E2.
  - destruct (decide ((a, b) ∈ neighbors_of w h (pos e1))) as [I1|O1];
      destruct (decide ((a, b) ∈ neighbors_of w h (pos e2))) as [I2|O2];
      simpl; try done.
    destruct Hshare as [-> | Hno]; [done|]. by destruct (Hno _ I1).
Qed.

Lemma independent_cons e l : independent w h (e :: l) -> independent w h l.
Proof.
  intros Hind e1 e2 He1 He2. apply Hind; apply elem_of_cons; by right.
Qed.

Lemma independent_perm l l' : l ≡ₚ l' -> independent w h l -> independent w h l'.
Proof.
  intros Hp Hind e1 e2 He1 He2. apply Hind; by rewrite Hp.
Qed.

Lemma indep_sym e1 e2 : indep w h e1 e2 -> indep w h e2 e1.
Proof.
  intros (Hne & H12 & H21 & Hshare). repeat split; try done.
  destruct Hshare as [->|Hno]; [by left|]. right.
  intros n Hn2 Hn1. by apply (Hno n).
Qed.

(** A wave over cells that do not interact gives the same board in every
    order. *)
Lemma explode_all_perm l l' :
  l ≡ₚ l' ->
  ∀ g, rect w h g -> Forall (fun e => in_grid w h (pos e)) l -> independent w h l ->
       explode_all w h g l = explode_all w h g l'.
Proof.
  induction 1 as [|e l l' Hp IH|e1 e2 l|l1 l2 l3 Hp12 IH12 Hp23 IH23];
    intros g Hr Hin Hind.
  - done.
  - rewrite !explode_all_cons. rewrite Forall_cons in Hin. destruct Hin as [_ Hin].
    apply IH; [by apply rect_explode | done | by eapply independent_cons].
  - rewrite !explode_all_cons.
    rewrite !Forall_cons in Hin. destruct Hin as (Hi1 & Hi2 & _).
    destruct (Hind e2 e1) as [->|Hi]; [set_solver | set_solver | done |].
    by rewrite (explode_comm g e2 e1).
  - rewrite (IH12 g) by done.
    apply IH23; [done | by rewrite <- Hp12 | by eapply independent_perm].
Qed.

Lemma explode_all_snoc g l e :
  explode_all w h g (l ++ [e]) = explode w h (explode_all w h g l) e.
Proof. unfold explode_all. by rewrite foldl_app. Qed.

(** Every cell of such a wave is empty when the wave is over. *)
Lemma explode_all_cleared g l e :
  rect w h g -> Forall (fun e => in_grid w h (pos e)) l -> independent w h l ->
  e ∈ l ->
  grid_get (explode_all w h g l) (pos e).1 (pos e).2 = Empty.
Proof.
  intros Hr Hin Hind He.
  apply elem_of_Permutation in He as [l' Hp].
  assert (l ≡ₚ l' ++ [e]) as Hp'.
  { rewrite Hp. apply Permutation_cons_append. }
  rewrite (explode_all_perm l (l' ++ [e]) Hp' g Hr Hin Hind).
  rewrite explode_all_snoc, explode_get_pos.
  - rewrite decide_True; [done|]. by destruct (pos e).
  - by apply rect_explode_all.
  - rewrite Forall_forall in Hin. apply Hin. rewrite Hp. set_solver.
Qed.
End order.

(* ================================================================== *)
(** ** The waves of a request that runs alone *)
(* ================================================================== *)

Section cascade.
Context (w h : nat).
Implicit Types (g : Grid) (o : Role) (par : bool).

Lemma uniform_independent par o g :
  uniform w h par o g -> independent w h (scan g w h).
Proof.
  intros Hu [[x1 y1] o1] [[x2 y2] o2] He1 He2.
  apply elem_of_scan in He1 as (Hx1 & Hy1 & n1 & Hg1 & Hn1).
  apply elem_of_scan in He2 as (Hx2 & Hy2 & n2 & Hg2 & Hn2).
  destruct (Hu x1 y1 o1 n1 Hx1 Hy1 Hg1 Hn1) as [Hp1 ->].
  destruct (Hu x2 y2 o2 n2 Hx2 Hy2 Hg2 Hn2) as [Hp2 ->].
  destruct (decide ((x1, y1) = (x2, y2))) as [Heq|Hne].
  - left. by injection Heq as -> ->.
  - right. unfold indep, pos, blast_owner, neighbors_of. cbn [fst snd].
    split; [done|]. split; [|split; [|by left]].
    + intros Hin. apply get_neighbors_parity in Hin.
      rewrite Hp1, Hp2 in Hin. by destruct par.
    + intros Hin. apply get_neighbors_parity in Hin.
      rewrite Hp1, Hp2 in Hin. by destruct par.
Qed.

(** After explosions on one colour and for one owner, a cell is as before,
    or empty, or on the other colour and owned by that owner. *)
Lemma explode_all_cases par o g (l : list Blast) :
  rect w h g ->
  Forall (fun e => in_grid w h (pos e) ∧
                   Nat.even ((pos e).1 + (pos e).2) = par ∧ blast_owner e = o) l ->
  ∀ a b,
    grid_get (explode_all w h g l) a b = grid_get g a b ∨
    grid_get (explode_all w h g l) a b = Empty ∨
    (Nat.even (a + b) = negb par ∧
     ∃ n, grid_get (explode_all w h g l) a b = Owned o n).
Proof.
  intros Hr. induction l as [|e l IH] using rev_ind; intros Hall a b; [by left|].
  rewrite Forall_app, Forall_singleton in Hall. destruct Hall as [Hall (Hin & Hpar & Ho)].
  rewrite explode_all_snoc, explode_get_pos by (done || by apply rect_explode_all).
  destruct (decide ((a, b) = pos e)); [by right; left|].
  destruct (decide ((a, b) ∈ neighbors_of w h (pos e))) as [Hn|_]; [|by apply IH].
  right. right. split.
  - apply get_neighbors_parity in Hn. by rewrite Hn, Hpar.
  - rewrite Ho. eauto.
Qed.

Lemma uniform_wave par o g :
  rect w h g -> uniform w h par o g -> uniform w h (negb par) o (wave w h g).
Proof.
  intros Hr Hu x y o' n Hx Hy Hget Hn.
  pose proof (uniform_independent par o g Hu) as Hind.
  assert (Forall (fun e => in_grid w h (pos e) ∧
                   Nat.even ((pos e).1 + (pos e).2) = par ∧ blast_owner e = o)
                 (scan g w h)) as Hall.
  { apply Forall_forall. intros [[a b] o0] He.
    apply elem_of_scan in He as (Ha & Hb & m & Hg & Hm).
    destruct (Hu a b o0 m Ha Hb Hg Hm) as [Hp ->]. by repeat split. }
  destruct (explode_all_cases par o g (scan g w h) Hr Hall x y) as [Hsame|[Hempty|[Hp [m Hm]]]];
    fold (wave w h g) in *.
  - assert ((x, y, o') ∈ scan g w h) as He.
    { apply elem_of_scan. rewrite <- Hsame, Hget. eauto. }
    assert (grid_get (wave w h g) x y = Empty) as Hcl.
    { apply (explode_all_cleared w h g (scan g w h) (x, y, o') Hr); [|done|done].
      eapply Forall_impl; [exact Hall|]. by intros e [? _]. }
    congruence.
  - congruence.
  - split; [done|]. congruence.
Qed.

Lemma uniform_after_write g x y o c :
  rect w h g -> in_grid w h (x, y) -> at_rest w h g ->
  uniform w h (Nat.even (x + y)) o (grid_set g x y (Owned o c)).
Proof.
  intros Hr [Hx Hy] Hrest a b o' n Ha Hb Hget Hn. simpl in *.
  rewrite (grid_get_set w h) in Hget by done.
  case_decide as Heq.
  - injection Heq as <- <-. by injection Hget as <- <-.
  - pose proof (proj1 (scan_nil w h g) Hrest a b Ha Hb) as Hlt.
    rewrite Hget in Hlt. simpl in Hlt. lia.
Qed.

Lemma uniform_wave_boards par o g fuel b :
  rect w h g -> uniform w h par o g ->
  b ∈ g :: wave_boards fuel w h g -> independent w h (scan b w h).
Proof.
  revert par g. induction fuel as [|fuel IH]; intros par g Hr Hu Hb.
  - apply list_elem_of_singleton in Hb as ->. by eapply uniform_independent.
  - apply elem_of_cons in Hb as [->|Hb]; [by eapply uniform_independent|].
    destruct (decide (scan g w h = [])) as [Hnil|Hne].
    + rewrite wave_boards_rest in Hb by done. by apply elem_of_nil in Hb.
    + rewrite wave_boards_step in Hb by done.
      apply (IH (negb par) (wave w h g)); [by apply rect_wave | by apply uniform_wave | done].
Qed.

(** In the cascade that follows the write of one cell of a resting board,
    the cells collected by every scan do not interact. *)
Lemma cascade_independent g x y o c fuel b :
  rect w h g -> in_grid w h (x, y) -> at_rest w h g ->
  b ∈ grid_set g x y (Owned o c) :: wave_boards fuel w h (grid_set g x y (Owned o c)) ->
  independent w h (scan b w h).
Proof.
  intros Hr Hin Hrest. apply (uniform_wave_boards (Nat.even (x + y)) o).
  - by apply rect_set.
  - by apply uniform_after_write.
Qed.
End cascade.

Lemma adjacent_board_scan :
  scan adjacent_board 5 5 = [(0%nat, 0%nat, RED); (1%nat, 0%nat, BLUE)].
Proof. reflexivity. Qed.

(** C3, as stated, fails.  On the board with a critical RED cell at (0,0)
    next to a critical BLUE cell at (1,0) the scan collects both.  Exploding
    them in the order of the scan leaves (0,0) owned by BLUE with one unit
    and (1,0) empty; in the other order (0,0) is empty and (1,0) is owned by
    RED.  So the order matters, and the collected cell (0,0) does not end the
    wave empty. *)
Lemma C3_counterexample :
  (0%nat, 0%nat, RED) ∈ scan adjacent_board 5 5 ∧
  reverse (scan adjacent_board 5 5) ≡ₚ scan adjacent_board 5 5 ∧
  explode_all 5 5 adjacent_board (reverse (scan adjacent_board 5 5))
    ≠ explode_all 5 5 adjacent_board (scan adjacent_board 5 5) ∧
  grid_get (wave 5 5 adjacent_board) 0 0 = Owned BLUE 1.
Proof.
  split; [|split; [|split]].
  - rewrite adjacent_board_scan. set_solver.
  - apply reverse_Permutation.
  - by vm_compute.
  - reflexivity.
Qed.

(** C3, amended.  Within one wave on a rectangular board, if the collected
    cells do not interact (no two of them are neighbours, and two of them
    with a common neighbour have the same owner), then exploding them in any
    order yields the same post-wave board, and every collected cell ends the
    wave empty.  The waves of a request that runs alone are of this kind
    ([cascade_independent]). *)
Theorem C3_wave_order (w h : nat) (g : Grid) (l' : list Blast) :
  rect w h g ->
  independent w h (scan g w h) ->
  scan g w h ≡ₚ l' ->
  explode_all w h g l' = wave w h g ∧
  ∀ x y o, (x, y, o) ∈ scan g w h -> grid_get (wave w h g) x y = Empty.
Proof.
  intros Hr Hind Hp.
  assert (Forall (fun e => in_grid w h (pos e)) (scan g w h)) as Hin.
  { destruct (scan_critical w h g) as [_ Hall].
    eapply Forall_impl; [exact Hall|]. by intros e [? _]. }
  split.
  - unfold wave. symmetry. by apply explode_all_perm.
  - intros x y o He.
    apply (explode_all_cleared w h g (scan g w h) (x, y, o) Hr Hin Hind He).
Qed.

Lemma flanked_board_rect : rect 5 5 flanked_board.
Proof. split; [done|]. repeat constructor. Qed.

Lemma flanked_board_scan :
  scan flanked_board 5 5 = [(0%nat, 0%nat, RED); (2%nat, 0%nat, RED)].
Proof. reflexivity. Qed.

Lemma flanked_board_independent : independent 5 5 (scan flanked_board 5 5).
Proof.
  assert (indep 5 5 (0%nat, 0%nat, RED) (2%nat, 0%nat, RED)) as Hi.
  { split; [done|]. unfold pos, neighbors_of, get_neighbors. simpl.
    split; [|split; [|by left]]; intros Hin;
      repeat (apply elem_of_cons in Hin as [?|Hin]; [done|]);
      by apply elem_of_nil in Hin. }
  rewrite flanked_board_scan. intros e1 e2 He1 He2.
  apply elem_of_cons in He1 as [->|He1]; apply elem_of_cons in He2 as [->|He2];
    try apply list_elem_of_singleton in He1 as ->;
    try apply list_elem_of_singleton in He2 as ->;
    [by left | by right | right; by apply indep_sym | by left].
Qed.

Lemma C3_witness :
  explode_all 5 5 flanked_board (reverse (scan flanked_board 5 5)) = wave 5 5 flanked_board ∧
  ∀ x y o, (x, y, o) ∈ scan flanked_board 5 5 -> grid_get (wave 5 5 flanked_board) x y = Empty.
Proof.
  apply (C3_wave_order 5 5 flanked_board (reverse (scan flanked_board 5 5))).
  - apply flanked_board_rect.
  - apply flanked_board_independent.
  - symmetry. apply reverse_Permutation.
Defined.

(* ================================================================== *)
(** ** The move processor *)
(* ================================================================== *)

Lemma demo_store_ok : store_ok demo_store.
Proof.
  apply store_ok_stream_game, store_ok_issue_token, store_ok_issue_token, store_ok_empty.
Qed.

Lemma demo_store_reachable : reachable demo_store.
Proof.
  unfold reachable, demo_store.
  eapply rtc_l; [apply (step_issue "g1" "red-token" RED)|].
  eapply rtc_l; [apply (step_issue "g1" "blue-token" BLUE)|].
  eapply rtc_l; [apply (step_stream "g1")|]. apply rtc_refl.
Qed.

(** The session behind a token of a well-formed storage. *)
Lemma token_session (s : Store) (tok gid : string) (player : Role) :
  store_ok s -> player_tokens s !! tok = Some (gid, player) ->
  ensure_game_initialized gid s = s ∧
  ∃ st flags row0,
    games s !! gid = Some st ∧ initial_moves_done s !! gid = Some flags ∧
    GameState.grid st !! 0%nat = Some row0 ∧
    length row0 = 5%nat ∧ length (GameState.grid st) = 5%nat ∧
    board_ok (GameState.grid st).
Proof.
  intros Hok Htok. destruct (proj2 Hok tok gid player Htok) as (Hg & Hq & Hf).
  pose proof (ensure_game_initialized_id gid s Hg Hq Hf) as Hid. split; [done|].
  destruct (session_of_token s gid Hok)
    as (st & flags & row0 & Hst & Hfl & Hrow & Hw & Hh & Hb & _ & _).
  rewrite Hid in Hst, Hfl. by exists st, flags, row0.
Qed.

(** The handler on a well-formed storage, with the session looked up. *)
Lemma move_endpoint_session (fuel : nat) (move : Move.t) (s : Store) (gid : string)
    (player : Role) (st : GameState.t) (flags : Flags) :
  store_ok s ->
  player_tokens s !! Move.token move = Some (gid, player) ->
  games s !! gid = Some st ->
  initial_moves_done s !! gid = Some flags ->
  move_endpoint fuel move s =
    let grid := GameState.grid st in
    if off_board 5 5 (Move.x move) (Move.y move)
    then Return (Error "Invalid coordinates", s)
    else
      let x := Z.to_nat (Move.x move) in
      let y := Z.to_nat (Move.y move) in
      let cell := grid_get grid x y in
      if negb (flag_get flags player) then
        match cell_owner cell with
        | None =>
            Return (Ok, after_opening gid player flags
                          (next_state st (grid_set grid x y (Owned player 1)) player) s)
        | Some _ => Return (Error "Invalid initial move", s)
        end
      else if bool_decide (cell_owner cell ≠ Some player) then
        Return (Error "Not your cell", s)
      else
        g' ← reaction_loop fuel 5 5 (grid_set grid x y (Owned player (cell_count cell + 1)));
        Return (Ok, after_increment gid (next_state st g' player) s).
Proof.
  intros Hok Htok Hst Hfl.
  destruct (token_session s _ gid player Hok Htok)
    as (Hid & st' & flags' & row0 & Hst' & Hfl' & Hrow & Hw & Hh & _).
  assert (st' = st) as -> by congruence. assert (flags' = flags) as -> by congruence.
  rewrite (move_endpoint_eq fuel move s gid player st flags row0); try done;
    rewrite ?Hid; try done.
  simpl. by rewrite Hw, Hh.
Qed.

(** C10.  The outcome of reaction resolution does not depend on the role it
    is called with: the two calls give the same result, whatever the fuel.
    The owner recorded in an entry of the scan is the owner of the scanned
    cell, and it is this owner that an explosion writes into every neighbour
    of the exploding cell. *)
Theorem C10_process_reactions_role_independent
    (fuel : nat) (gid : string) (r1 r2 : Role) (s : Store) :
  process_reactions fuel gid r1 s = process_reactions fuel gid r2 s ∧
  (∀ (w h : nat) (g g' : Grid) (x y : nat) (o : Role) (n : nat * nat),
     (x, y, o) ∈ scan g w h -> rect w h g' -> n ∈ get_neighbors x y w h ->
     cell_owner (grid_get g x y) = Some o ∧
     cell_owner (grid_get (explode w h g' (x, y, o)) n.1 n.2) = Some o).
Proof.
  split; [reflexivity|].
  intros w h g g' x y o [a b] Hscan Hr Hn.
  apply elem_of_scan in Hscan as (Hx & Hy & c & Hget & _).
  split; [by rewrite Hget|]. cbn [fst snd].
  rewrite (explode_get w h) by done.
  rewrite decide_False.
  - by rewrite decide_True.
  - intros Heq. rewrite Heq in Hn. by apply get_neighbors_irrefl in Hn.
Qed.

Lemma C10_witness :
  process_reactions 3 "g1" RED center_store = process_reactions 3 "g1" BLUE center_store ∧
  cell_owner (grid_get center_board 2 2) = Some RED ∧
  cell_owner (grid_get (explode 5 5 center_board (2%nat, 2%nat, RED)) 1 2) = Some RED.
Proof.
  destruct (C10_process_reactions_role_independent 3 "g1" RED BLUE center_store)
    as [Hsame Hown].
  split; [exact Hsame|].
  apply (Hown 5%nat 5%nat center_board center_board 2%nat 2%nat RED (1%nat, 2%nat)).
  - apply elem_of_scan. split; [lia|]. split; [lia|]. exists 4. by split.
  - apply center_board_rect.
  - apply elem_of_get_neighbors. lia.
Defined.

(** C9.  A move with a valid token and coordinates outside [0,4] x [0,4]
    is answered with the error for invalid coordinates and the whole storage
    is left as it was: boards, current players and opening flags of all
    sessions, queues and tokens. *)
Theorem C9_out_of_bounds (fuel : nat) (move : Move.t) (s : Store) (gid : string) (player : Role) :
  store_ok s ->
  player_tokens s !! Move.token move = Some (gid, player) ->
  ¬ (0 <= Move.x move <= 4 ∧ 0 <= Move.y move <= 4) ->
  move_endpoint fuel move s = Return (Error "Invalid coordinates", s).
Proof.
  intros Hok Htok Hout.
  destruct (token_session s _ gid player Hok Htok)
    as (_ & st & flags & row0 & Hst & Hfl & _).
  rewrite (move_endpoint_session fuel move s gid player st flags) by done. simpl.
  destruct (off_board 5 5 (Move.x move) (Move.y move)) eqn:Hoff; [done|].
  apply off_board_false in Hoff. lia.
Qed.

Lemma C9_witness :
  move_endpoint 7 (Move.mk "red-token" 5 0) demo_store
  = Return (Error "Invalid coordinates", demo_store).
Proof.
  apply (C9_out_of_bounds 7 (Move.mk "red-token" 5 0) demo_store "g1" RED).
  - apply demo_store_ok.
  - reflexivity.
  - simpl. lia.
Defined.

Lemma flag_set_get (f : Flags) (r : Role) (b : bool) : flag_get (flag_set f r b) r = b.
Proof. by destruct r. Qed.

Lemma flag_set_get_other (f : Flags) (r : Role) (b : bool) :
  flag_get (flag_set f r b) (other_role r) = flag_get f (other_role r).
Proof. by destruct r. Qed.

Lemma delivered_alter (gid : string) (st : GameState.t) (s s' : Store) :
  subscribers s' = alter (fmap (fun q : Queue => q ++ [st])) gid (subscribers s) ->
  delivered gid s s' [st].
Proof.
  intros Heq qs Hqs. by rewrite Heq, lookup_alter_eq, Hqs.
Qed.

(** C7, as stated, fails in one point: the opening move does not flip
    [current_player], it sets it to the role opposite to the caller's.  When
    BLUE opens first on a new session, [current_player] is RED before the
    move and RED after it. *)
Lemma C7_counterexample :
  ∃ s',
    move_endpoint 0 (Move.mk "blue-token" 0 0) demo_store = Return (Ok, s') ∧
    current_player_of "g1" demo_store = Some RED ∧
    current_player_of "g1" s' = Some RED ∧
    current_player_of "g1" s' ≠ other_role <$> current_player_of "g1" demo_store.
Proof. eexists. split; [by vm_compute|]. by vm_compute. Qed.

(** C7, amended.  If the caller's role has not completed its opening move,
    a move on an in-bounds cell with no owner sets that cell to
    [{owner: role, count: 1}] and nothing else on the board, marks the role's
    opening flag and leaves the other flag, sets [current_player] to the role
    opposite to the caller's, puts the new state on every queue of the
    session and answers success; no reaction resolution runs (no fuel is
    needed and the board is the old one with the one cell written).  If the
    cell is already owned the answer is the error for an invalid initial
    move and the storage is unchanged. *)
Theorem C7_opening_move (fuel : nat) (move : Move.t) (s : Store) (gid : string)
    (player : Role) (st : GameState.t) (flags : Flags) :
  store_ok s ->
  player_tokens s !! Move.token move = Some (gid, player) ->
  games s !! gid = Some st ->
  initial_moves_done s !! gid = Some flags ->
  flag_get flags player = false ->
  0 <= Move.x move <= 4 ∧ 0 <= Move.y move <= 4 ->
  let x := Z.to_nat (Move.x move) in
  let y := Z.to_nat (Move.y move) in
  match cell_owner (grid_get (GameState.grid st) x y) with
  | None =>
      ∃ s' st' flags',
        move_endpoint fuel move s = Return (Ok, s') ∧
        games s' !! gid = Some st' ∧
        GameState.grid st' = grid_set (GameState.grid st) x y (Owned player 1) ∧
        grid_get (GameState.grid st') x y = Owned player 1 ∧
        GameState.current_player st' = other_role player ∧
        initial_moves_done s' !! gid = Some flags' ∧
        flag_get flags' player = true ∧
        flag_get flags' (other_role player) = flag_get flags (other_role player) ∧
        delivered gid s s' [st']
  | Some _ =>
      move_endpoint fuel move s = Return (Error "Invalid initial move", s)
  end.
Proof.
  intros Hok Htok Hst Hfl Hflag Hin x y.
  pose proof (move_endpoint_session fuel move s gid player st flags Hok Htok Hst Hfl) as Heq.
  simpl in Heq. fold x y in Heq.
  assert (off_board 5 5 (Move.x move) (Move.y move) = false) as Hoff
    by (apply off_board_false; lia).
  rewrite Hoff, Hflag in Heq. simpl in Heq.
  destruct (cell_owner (grid_get (GameState.grid st) x y)); [done|].
  eexists _, _, _. split; [exact Heq|]. simpl.
  split; [by rewrite lookup_insert_eq|]. split; [done|].
  split.
  { apply (grid_get_set_eq 5 5); [apply (proj1 Hok gid st Hst) | |];
      apply off_board_in_grid in Hoff; apply Hoff. }
  split; [done|]. split; [by rewrite lookup_insert_eq|].
  split; [apply flag_set_get|]. split; [apply flag_set_get_other|].
  by apply delivered_alter.
Qed.

Lemma C7_witness :
  ∃ s' st' flags',
    move_endpoint 0 (Move.mk "red-token" 2 2) demo_store = Return (Ok, s') ∧
    games s' !! "g1" = Some st' ∧
    GameState.grid st' = grid_set new_empty_grid 2 2 (Owned RED 1) ∧
    grid_get (GameState.grid st') 2 2 = Owned RED 1 ∧
    GameState.current_player st' = BLUE ∧
    initial_moves_done s' !! "g1" = Some flags' ∧
    flag_get flags' RED = true ∧
    flag_get flags' BLUE = false ∧
    delivered "g1" demo_store s' [st'].
Proof.
  apply (C7_opening_move 0 (Move.mk "red-token" 2 2) demo_store "g1" RED
           (new_game "g1") (mkFlags false false)).
  - apply demo_store_ok.
  - reflexivity.
  - reflexivity.
  - reflexivity.
  - reflexivity.
  - simpl. lia.
Defined.

(** An accepted move hands the turn to the role opposite to the mover's. *)
Lemma accepted_move_current_player (fuel : nat) (move : Move.t) (s s' : Store)
    (gid : string) (player : Role) :
  store_ok s ->
  player_tokens s !! Move.token move = Some (gid, player) ->
  move_endpoint fuel move s = Return (Ok, s') ->
  current_player_of gid s' = Some (other_role player).
Proof.
  intros Hok Htok Hrun.
  destruct (token_session s _ gid player Hok Htok)
    as (_ & st & flags & row0 & Hst & Hfl & _).
  rewrite (move_endpoint_session fuel move s gid player st flags) in Hrun by done.
  simpl in Hrun. unfold current_player_of.
  destruct (off_board 5 5 _ _); [done|].
  destruct (negb (flag_get flags player)).
  - destruct (cell_owner _); [done|]. injection Hrun as <-. simpl.
    by rewrite lookup_insert_eq.
  - case_bool_decide; [done|].
    destruct (reaction_loop fuel 5 5 _) as [g'| |]; simpl in Hrun; [|done|done].
    injection Hrun as <-. simpl. by rewrite lookup_insert_eq.
Qed.

Lemma turn_run_store_ok (gid : string) (s s' : Store) (n : nat) :
  turn_run gid s n s' -> store_ok s -> store_ok s'.
Proof.
  induction 1 as [|fuel move player s s1 n s2 Htok Hcur Hrun _ IH]; intros Hok; [done|].
  apply IH. by eapply move_endpoint_store_ok.
Qed.

Lemma turn_run_alternates (gid : string) (s s' : Store) (n : nat) (p : Role) :
  turn_run gid s n s' -> store_ok s ->
  current_player_of gid s = Some p ->
  current_player_of gid s' = Some (Nat.iter n other_role p).
Proof.
  intros Hturn. revert p.
  induction Hturn as [|fuel move player s s1 n s2 Htok Hcur Hrun _ IH];
    intros p Hok Hp; [done|].
  assert (player = p) as -> by congruence.
  rewrite Nat.iter_succ_r. apply IH.
  - by eapply move_endpoint_store_ok.
  - by eapply accepted_move_current_player.
Qed.

(** C5, as stated, fails.  The handler does not check whose turn it is and
    writes the role opposite to the mover's: when RED moves twice in a row,
    [current_player] is BLUE after the first move and still BLUE after the
    second. *)
Lemma C5_counterexample :
  ∃ s1 s2,
    move_endpoint 1 (Move.mk "red-token" 2 2) demo_store = Return (Ok, s1) ∧
    move_endpoint 1 (Move.mk "red-token" 2 2) s1 = Return (Ok, s2) ∧
    current_player_of "g1" s1 = Some BLUE ∧
    current_player_of "g1" s2 = Some BLUE.
Proof.
  eexists _, _. split; [by vm_compute|]. split; [by vm_compute|]. by vm_compute.
Qed.

(** C5, amended.  Every accepted move (opening or subsequent, with or
    without a cascade) sets the session's [current_player] to the role
    opposite to the mover's; it is a flip exactly when the mover was the
    current player.  Hence across any sequence of [n] accepted moves each
    made by the role whose turn it is, [current_player] strictly alternates,
    starting at RED. *)
Theorem C5_current_player :
  (∀ fuel move s s' gid player,
     store_ok s ->
     player_tokens s !! Move.token move = Some (gid, player) ->
     move_endpoint fuel move s = Return (Ok, s') ->
     current_player_of gid s' = Some (other_role player)) ∧
  (∀ gid s n s',
     store_ok s ->
     turn_run gid s n s' ->
     current_player_of gid s = Some RED ->
     current_player_of gid s' = Some (Nat.iter n other_role RED)).
Proof.
  split.
  - intros fuel move s s' gid player. apply accepted_move_current_player.
  - intros gid s n s' Hok Hturn Hred. by apply (turn_run_alternates gid s s' n RED).
Qed.

Lemma red_opening_run (fuel : nat) :
  move_endpoint fuel (Move.mk "red-token" 2 2) demo_store = Return (Ok, red_opened).
Proof.
  rewrite (move_endpoint_session fuel _ demo_store "g1" RED (new_game "g1") (mkFlags false false));
    [reflexivity | apply demo_store_ok | reflexivity | reflexivity | reflexivity].
Qed.

Lemma red_opened_ok : store_ok red_opened.
Proof. eapply move_endpoint_store_ok; [apply demo_store_ok | apply (red_opening_run 0)]. Qed.

Lemma blue_opening_run (fuel : nat) :
  move_endpoint fuel (Move.mk "blue-token" 0 0) red_opened = Return (Ok, both_opened).
Proof.
  rewrite (move_endpoint_session fuel _ red_opened "g1" BLUE red_opened_state (mkFlags true false));
    [reflexivity | apply red_opened_ok | reflexivity | reflexivity | reflexivity].
Qed.

Lemma C5_witness :
  current_player_of "g1" red_opened = Some BLUE ∧
  current_player_of "g1" both_opened = Some RED.
Proof.
  destruct C5_current_player as [Hmove Hrun].
  split.
  - apply (Hmove 0%nat (Move.mk "red-token" 2 2) demo_store red_opened "g1" RED);
      [apply demo_store_ok | reflexivity | apply red_opening_run].
  - apply (Hrun "g1" demo_store 2%nat both_opened demo_store_ok); [|reflexivity].
    eapply (turn_run_cons "g1" 0 (Move.mk "red-token" 2 2) RED);
      [reflexivity | reflexivity | apply red_opening_run |].
    eapply (turn_run_cons "g1" 0 (Move.mk "blue-token" 0 0) BLUE);
      [reflexivity | reflexivity | apply blue_opening_run |].
    apply turn_run_nil.
Defined.

(* ================================================================== *)
(** ** Publication *)
(* ================================================================== *)

Lemma primed_run (fuel : nat) :
  run_moves (S fuel)
    [Move.mk "red-token" 2 2; Move.mk "red-token" 2 2; Move.mk "red-token" 2 2] demo_store
  = Return ([Ok; Ok; Ok], primed_store).
Proof. by vm_compute. Qed.

Ltac concrete_board_ok :=
  split; [split; [reflexivity | repeat constructor]
         | split; [repeat (constructor; try done) | reflexivity]].

Lemma primed_store_ok : store_ok primed_store.
Proof.
  apply store_ok_after_increment; [apply store_ok_after_increment; [apply red_opened_ok|]|];
    concrete_board_ok.
Qed.

Lemma burst_run (fuel : nat) :
  move_endpoint (S (S fuel)) (Move.mk "red-token" 2 2) primed_store = Return (Ok, burst_store).
Proof.
  rewrite (move_endpoint_session _ _ primed_store "g1" RED primed_state (mkFlags true false));
    [reflexivity | apply primed_store_ok | reflexivity | reflexivity | reflexivity].
Qed.

Lemma set_grid_id (st : GameState.t) : set_grid st (GameState.grid st) = st.
Proof. by destruct st. Qed.

Lemma set_games_id (gid : string) (st : GameState.t) (s : Store) :
  games s !! gid = Some st -> set_games s (<[gid := st]> (games s)) = s.
Proof. intros Hst. unfold set_games. rewrite insert_id by done. by destruct s. Qed.

(** Reaction resolution does not touch the queues. *)
Lemma process_reactions_subscribers (fuel : nat) (gid : string) (player : Role) (s s' : Store) :
  process_reactions fuel gid player s = Return s' -> subscribers s' = subscribers s.
Proof.
  unfold process_reactions. intros Hrun.
  destruct (games s !! gid) as [st|]; simpl in Hrun; [|done].
  destruct (first_row (GameState.grid st)) as [row0| |]; simpl in Hrun; [|done|done].
  destruct (reaction_loop fuel _ _ _) as [g'| |]; simpl in Hrun; [|done|done].
  by injection Hrun as <-.
Qed.

(** C1, as stated, fails.  With three units of RED at (2,2) and one open
    stream, RED's next move is accepted and triggers a cascade of one wave.
    The queue of the stream receives one message, the final state; the claim
    asks for the snapshot of the wave followed by the final state. *)
Lemma C1_counterexample :
  move_endpoint 2 (Move.mk "red-token" 2 2) primed_store = Return (Ok, burst_store) ∧
  wave_boards 2 5 5 center_board = [wave 5 5 center_board] ∧
  games burst_store !! "g1" = Some burst_state ∧
  delivered "g1" primed_store burst_store [burst_state] ∧
  ¬ delivered "g1" primed_store burst_store
      (wave_snapshots 2 primed_state center_board ++ [burst_state]).
Proof.
  split; [apply (burst_run 0)|]. split; [reflexivity|]. split; [reflexivity|].
  split.
  - by apply delivered_alter.
  - intros Hd. specialize (Hd _ eq_refl). vm_compute in Hd. discriminate Hd.
Qed.

(** C1, amended.  For every accepted non-opening move, whether or not it
    triggers a cascade and however many waves the cascade has, reaction
    resolution itself publishes nothing; exactly one full state is put on
    every queue of the session, after all waves: the final post-move state,
    whose board is the board after the last wave and whose current player is
    the role opposite to the mover's.  The queues of the other sessions are
    left as they were. *)
Theorem C1_publication (fuel : nat) (move : Move.t) (s s' : Store) (gid : string)
    (player : Role) (st : GameState.t) (flags : Flags) :
  store_ok s ->
  player_tokens s !! Move.token move = Some (gid, player) ->
  games s !! gid = Some st ->
  initial_moves_done s !! gid = Some flags ->
  flag_get flags player = true ->
  move_endpoint fuel move s = Return (Ok, s') ->
  let x := Z.to_nat (Move.x move) in
  let y := Z.to_nat (Move.y move) in
  let g0 := grid_set (GameState.grid st) x y
              (Owned player (cell_count (grid_get (GameState.grid st) x y) + 1)) in
  ∃ final,
    games s' !! gid = Some final ∧
    last (g0 :: wave_boards fuel 5 5 g0) = Some (GameState.grid final) ∧
    GameState.current_player final = other_role player ∧
    delivered gid s s' [final] ∧
    (∀ gid', gid' ≠ gid -> subscribers s' !! gid' = subscribers s !! gid') ∧
    (∀ fuel' r s0 s0',
       process_reactions fuel' gid r s0 = Return s0' -> subscribers s0' = subscribers s0).
Proof.
  intros Hok Htok Hst Hfl Hflag Hrun x y g0.
  rewrite (move_endpoint_session fuel move s gid player st flags) in Hrun by done.
  simpl in Hrun. fold x y in Hrun. fold g0 in Hrun. rewrite Hflag in Hrun. simpl in Hrun.
  destruct (off_board 5 5 _ _) eqn:Hoff; [done|].
  case_bool_decide; [done|].
  destruct (reaction_loop fuel 5 5 g0) as [g'| |] eqn:Hloop; simpl in Hrun; [|done|done].
  injection Hrun as <-.
  exists (next_state st g' player). simpl.
  split; [by rewrite lookup_insert_eq|].
  split.
  { apply (reaction_loop_inv 5 5 fuel g0 g'); [| |done].
    - apply rect_set, (proj1 Hok gid st Hst).
    - apply grid_ok_set; [apply (proj1 Hok gid st Hst)|]. simpl.
      pose proof (grid_ok_count (GameState.grid st) x y
                    (proj1 (proj2 (proj1 Hok gid st Hst)))). lia. }
  split; [done|]. split; [by apply delivered_alter|].
  split.
  - intros gid' Hne. by rewrite lookup_alter_ne.
  - intros fuel' r s0 s0'. apply process_reactions_subscribers.
Qed.

Lemma C1_witness :
  ∃ final,
    games burst_store !! "g1" = Some final ∧
    last (center_board :: wave_boards 2 5 5 center_board) = Some (GameState.grid final) ∧
    GameState.current_player final = BLUE ∧
    delivered "g1" primed_store burst_store [final] ∧
    (∀ gid', gid' ≠ "g1" -> subscribers burst_store !! gid' = subscribers primed_store !! gid') ∧
    (∀ fuel' r s0 s0',
       process_reactions fuel' "g1" r s0 = Return s0' -> subscribers s0' = subscribers s0).
Proof.
  apply (C1_publication 2 (Move.mk "red-token" 2 2) primed_store burst_store "g1" RED
           primed_state (mkFlags true false)).
  - apply primed_store_ok.
  - reflexivity.
  - reflexivity.
  - reflexivity.
  - reflexivity.
  - apply (burst_run 0).
Defined.

(** C8.  On the new session RED opens at (2,2) and increments (2,2) twice
    more: the cell holds 3.  With the third increment the count reaches 4
    and the cascade has exactly one wave: (2,2) becomes empty and each of
    (1,2), (3,2), (2,1), (2,3), empty before, becomes [{RED, 1}]; no other
    cell changes.  After that resolution is terminal: a further call runs no
    wave and leaves the storage as it is. *)
Theorem C8_center_scenario (fuel : nat) :
  run_moves (S (S fuel))
    [Move.mk "red-token" 2 2; Move.mk "red-token" 2 2; Move.mk "red-token" 2 2] demo_store
    = Return ([Ok; Ok; Ok], primed_store) ∧
  board_of "g1" primed_store = Some (grid_set new_empty_grid 2 2 (Owned RED 3)) ∧
  move_endpoint (S (S fuel)) (Move.mk "red-token" 2 2) primed_store
    = Return (Ok, burst_store) ∧
  grid_get center_board 2 2 = Owned RED 4 ∧
  wave_boards (S (S fuel)) 5 5 center_board = [wave 5 5 center_board] ∧
  board_of "g1" burst_store = Some (wave 5 5 center_board) ∧
  wave 5 5 center_board =
    [ [Empty; Empty; Empty; Empty; Empty];
      [Empty; Empty; Owned RED (cell_count (grid_get center_board 2 1) + 1); Empty; Empty];
      [Empty; Owned RED (cell_count (grid_get center_board 1 2) + 1); Empty;
       Owned RED (cell_count (grid_get center_board 3 2) + 1); Empty];
      [Empty; Empty; Owned RED (cell_count (grid_get center_board 2 3) + 1); Empty; Empty];
      [Empty; Empty; Empty; Empty; Empty] ] ∧
  grid_get (wave 5 5 center_board) 2 2 = Empty ∧
  wave_boards (S fuel) 5 5 (wave 5 5 center_board) = [] ∧
  process_reactions (S fuel) "g1" RED burst_store = Return burst_store.
Proof.
  split; [apply (primed_run (S fuel))|]. split; [reflexivity|].
  split; [apply burst_run|]. split; [reflexivity|]. split; [reflexivity|].
  split; [reflexivity|]. split; [reflexivity|]. split; [reflexivity|].
  split; [reflexivity|].
  rewrite (process_reactions_eq (S fuel) "g1" RED burst_store burst_state
             [Empty; Empty; Empty; Empty; Empty]); [|reflexivity|reflexivity].
  rewrite reaction_loop_rest by reflexivity.
  change (Return (set_games burst_store
                    (<["g1" := set_grid burst_state (GameState.grid burst_state)]>
                       (games burst_store))) = Return burst_store).
  rewrite set_grid_id, set_games_id; reflexivity.
Qed.

(* ================================================================== *)
(** ** Every write is one more unit or a reset *)
(* ================================================================== *)

Section write_log.
Context (w h : nat).
Implicit Types (g : Grid) (o : Role) (log : list Write) (p : nat * nat).

Lemma replay_cons g (wr : Write) log :
  replay g (wr :: log) = replay (apply_write g wr) log.
Proof. reflexivity. Qed.

Lemma replay_app g log1 log2 :
  replay g (log1 ++ log2) = replay (replay g log1) log2.
Proof. unfold replay. apply foldl_app. Qed.

Lemma log_reads_app g log1 log2 :
  log_reads w h g (log1 ++ log2) ↔
  log_reads w h g log1 ∧ log_reads w h (replay g log1) log2.
Proof.
  revert g. induction log1 as [|wr log1 IH]; intros g.
  - simpl. tauto.
  - cbn [app log_reads]. rewrite IH, replay_cons. tauto.
Qed.

Lemma apply_bump_write o g (n : nat * nat) : apply_write g (bump_write o g n) = bump o g n.
Proof. reflexivity. Qed.

Lemma bumps_log_replay o g (ns : list (nat * nat)) :
  replay g (bumps_log o g ns) = foldl (bump o) g ns.
Proof.
  revert g. induction ns as [|n ns IH]; intros g; [done|].
  cbn [bumps_log foldl]. by rewrite replay_cons, apply_bump_write, IH.
Qed.

Lemma bumps_log_reads o g (ns : list (nat * nat)) :
  Forall (in_grid w h) ns -> log_reads w h g (bumps_log o g ns).
Proof.
  revert g. induction ns as [|n ns IH]; intros g Hns; [done|].
  rewrite Forall_cons in Hns. destruct Hns as [Hn Hns].
  cbn [bumps_log log_reads]. split; [done|]. split; [done|].
  rewrite apply_bump_write. by apply IH.
Qed.

Lemma bumps_log_ok o g (ns : list (nat * nat)) : Forall write_ok (bumps_log o g ns).
Proof.
  revert g. induction ns as [|n ns IH]; intros g; [constructor|].
  cbn [bumps_log]. constructor; [|apply IH]. left. by exists o.
Qed.

Lemma resets_at_bumps p o g (ns : list (nat * nat)) : resets_at p (bumps_log o g ns) = [].
Proof.
  revert g. induction ns as [|n ns IH]; intros g; [done|].
  cbn [bumps_log]. unfold resets_at in *. rewrite filter_cons.
  rewrite decide_False; [apply IH|]. by intros [_ ?].
Qed.

Lemma increments_at_bumps p o g (ns : list (nat * nat)) :
  NoDup ns ->
  length (increments_at p (bumps_log o g ns)) = if decide (p ∈ ns) then 1%nat else 0%nat.
Proof.
  revert g. induction ns as [|n ns IH]; intros g Hnd.
  - by rewrite decide_False by apply not_elem_of_nil.
  - rewrite NoDup_cons in Hnd. destruct Hnd as [Hn Hnd].
    cbn [bumps_log]. unfold increments_at in *. rewrite filter_cons.
    destruct (decide (n = p)) as [->|Hne].
    + rewrite decide_True by (by split).
      rewrite (decide_True (P := p ∈ p :: ns)) by (apply elem_of_cons; by left).
      cbn [length]. rewrite IH by done. by rewrite decide_False.
    + rewrite decide_False by (by intros [? _]).
      rewrite IH by done.
      destruct (decide (p ∈ ns)) as [Hin|Hnin].
      * rewrite decide_True; [done|]. apply elem_of_cons. by right.
      * rewrite decide_False; [done|]. rewrite elem_of_cons. intros [?|?]; congruence.
Qed.

Lemma explode_log_replay g (e : Blast) : replay g (explode_log w h g e) = explode w h g e.
Proof.
  destruct e as [[x y] o]. unfold explode_log, explode.
  rewrite replay_cons. apply bumps_log_replay.
Qed.

Lemma explode_log_reads g (e : Blast) :
  in_grid w h (pos e) -> log_reads w h g (explode_log w h g e).
Proof.
  destruct e as [[x y] o]. unfold pos. cbn [fst]. intros Hin.
  unfold explode_log. cbn [log_reads]. split; [done|]. split; [done|].
  apply bumps_log_reads, Forall_forall. intros n. by apply get_neighbors_in_grid.
Qed.

Lemma explode_log_ok g (e : Blast) :
  4 <= cell_count (grid_get g (pos e).1 (pos e).2) -> Forall write_ok (explode_log w h g e).
Proof.
  destruct e as [[x y] o]. unfold pos. cbn [fst snd]. intros Hc.
  unfold explode_log. constructor; [by right | apply bumps_log_ok].
Qed.

Lemma explode_log_resets p g (e : Blast) :
  length (resets_at p (explode_log w h g e)) = if decide (pos e = p) then 1%nat else 0%nat.
Proof.
  destruct e as [[x y] o]. unfold pos. cbn [fst]. unfold explode_log.
  unfold resets_at. rewrite filter_cons.
  fold (resets_at p (bumps_log o (grid_set g x y Empty) (get_neighbors x y w h))).
  rewrite resets_at_bumps. cbn [w_pos w_new].
  destruct (decide ((x, y) = p)) as [Heq|Hne].
  - by rewrite decide_True.
  - rewrite decide_False; [done|]. by intros [? _].
Qed.

Lemma explode_log_increments p g (e : Blast) :
  length (increments_at p (explode_log w h g e))
  = if decide (p ∈ neighbors_of w h (pos e)) then 1%nat else 0%nat.
Proof.
  destruct e as [[x y] o]. unfold pos, neighbors_of. cbn [fst snd]. unfold explode_log.
  unfold increments_at. rewrite filter_cons. rewrite decide_False by (by intros [_ ?]).
  apply increments_at_bumps, get_neighbors_NoDup.
Qed.

Lemma explode_all_log_replay g (l : list Blast) :
  replay g (explode_all_log w h g l) = explode_all w h g l.
Proof.
  revert g. induction l as [|e l IH]; intros g; [done|].
  cbn [explode_all_log]. by rewrite replay_app, explode_log_replay, IH, explode_all_cons.
Qed.

Lemma explode_all_log_reads g (l : list Blast) :
  Forall (fun e => in_grid w h (pos e)) l -> log_reads w h g (explode_all_log w h g l).
Proof.
  revert g. induction l as [|e l IH]; intros g Hl; [done|].
  rewrite Forall_cons in Hl. destruct Hl as [He Hl].
  cbn [explode_all_log]. apply log_reads_app. split; [by apply explode_log_reads|].
  rewrite explode_log_replay. by apply IH.
Qed.

Lemma explode_all_log_ok g (l : list Blast) :
  rect w h g -> critical w h g l -> Forall write_ok (explode_all_log w h g l).
Proof.
  revert g. induction l as [|e l IH]; intros g Hr Hcr; [constructor|].
  pose proof (critical_tail w h g e l Hr Hcr) as Hcr'.
  destruct Hcr as [_ Hall]. rewrite Forall_cons in Hall. destruct Hall as [[Hin Hc] _].
  cbn [explode_all_log]. apply Forall_app. split; [by apply explode_log_ok|].
  apply IH; [by apply rect_explode | done].
Qed.

Lemma explode_all_log_resets p g (l : list Blast) :
  length (resets_at p (explode_all_log w h g l)) = length (filter (fun e => pos e = p) l).
Proof.
  revert g. induction l as [|e l IH]; intros g; [done|].
  cbn [explode_all_log]. unfold resets_at in *. rewrite filter_app, length_app.
  fold (resets_at p (explode_log w h g e)). rewrite explode_log_resets, IH, filter_cons.
  by case_decide.
Qed.

Lemma explode_all_log_increments p g (l : list Blast) :
  length (increments_at p (explode_all_log w h g l)) = length (blasts_next_to w h p l).
Proof.
  revert g. induction l as [|e l IH]; intros g; [done|].
  cbn [explode_all_log]. unfold increments_at, blasts_next_to in *.
  rewrite filter_app, length_app.
  fold (increments_at p (explode_log w h g e)). rewrite explode_log_increments, IH, filter_cons.
  by case_decide.
Qed.

Lemma filter_pos_NoDup p (l : list Blast) :
  NoDup (pos <$> l) ->
  length (filter (fun e => pos e = p) l) = if decide (p ∈ pos <$> l) then 1%nat else 0%nat.
Proof.
  induction l as [|e l IH]; intros Hnd.
  - by rewrite decide_False by apply not_elem_of_nil.
  - rewrite fmap_cons, NoDup_cons in Hnd. destruct Hnd as [Hn Hnd].
    rewrite filter_cons, fmap_cons. destruct (decide (pos e = p)) as [<-|Hne].
    + rewrite (decide_True (P := pos e ∈ pos e :: (pos <$> l))) by (apply elem_of_cons; by left).
      cbn [length]. rewrite IH by done. by rewrite decide_False.
    + rewrite IH by done. destruct (decide (p ∈ pos <$> l)) as [Hin|Hnin].
      * rewrite decide_True; [done|]. apply elem_of_cons. by right.
      * rewrite decide_False; [done|]. rewrite elem_of_cons. intros [?|?]; congruence.
Qed.

(** A cell has at most four collected cells around it. *)
Lemma blasts_next_to_le_4 p (l : list Blast) :
  in_grid w h p -> Forall (fun e => in_grid w h (pos e)) l -> NoDup (pos <$> l) ->
  (length (blasts_next_to w h p l) <= 4)%nat.
Proof.
  intros Hp Hl Hnd. unfold blasts_next_to.
  rewrite <- (length_fmap pos).
  etrans; [|apply (get_neighbors_length w h p.1 p.2)].
  apply submseteq_length, NoDup_submseteq.
  - apply (sublist_NoDup _ (pos <$> l) Hnd). apply fmap_sublist, sublist_filter.
  - intros q Hq. apply list_elem_of_fmap in Hq as (e & -> & He).
    apply list_elem_of_filter in He as [Hnext He].
    rewrite Forall_forall in Hl. specialize (Hl e He).
    destruct p as [a b]. destruct (pos e) as [x y] eqn:Hpos.
    unfold neighbors_of in Hnext. cbn [fst snd] in *.
    by apply (get_neighbors_sym w h x y a b).
Qed.

Lemma reaction_log_step fuel g :
  scan g w h ≠ [] ->
  reaction_log (S fuel) w h g = wave_log w h g ++ reaction_log fuel w h (wave w h g).
Proof. intros Hne. unfold wave_log, wave. cbn [reaction_log]. by destruct (scan g w h). Qed.

Lemma reaction_log_rest fuel g : scan g w h = [] -> reaction_log fuel w h g = [].
Proof. intros Hnil. destruct fuel; [done|]. cbn [reaction_log]. by rewrite Hnil. Qed.

Lemma wave_log_replay g : replay g (wave_log w h g) = wave w h g.
Proof. apply explode_all_log_replay. Qed.

Lemma wave_log_reads g : log_reads w h g (wave_log w h g).
Proof.
  apply explode_all_log_reads. destruct (scan_critical w h g) as [_ Hall].
  eapply Forall_impl; [exact Hall|]. by intros e [? _].
Qed.

Lemma wave_log_ok g : rect w h g -> Forall write_ok (wave_log w h g).
Proof. intros Hr. apply explode_all_log_ok; [done | apply scan_critical]. Qed.

Lemma reaction_log_replay fuel g g' :
  reaction_loop fuel w h g = Return g' -> replay g (reaction_log fuel w h g) = g'.
Proof.
  revert g. induction fuel as [|fuel IH]; intros g Hrun; [done|].
  destruct (decide (scan g w h = [])) as [Hnil|Hne].
  - rewrite reaction_loop_rest in Hrun by done. injection Hrun as <-.
    by rewrite reaction_log_rest.
  - rewrite reaction_loop_step in Hrun by done.
    rewrite reaction_log_step, replay_app, wave_log_replay by done. by apply IH.
Qed.

Lemma reaction_log_reads fuel g : log_reads w h g (reaction_log fuel w h g).
Proof.
  revert g. induction fuel as [|fuel IH]; intros g; [done|].
  destruct (decide (scan g w h = [])) as [Hnil|Hne].
  - by rewrite reaction_log_rest.
  - rewrite reaction_log_step by done. apply log_reads_app.
    split; [apply wave_log_reads|]. rewrite wave_log_replay. apply IH.
Qed.

Lemma reaction_log_ok fuel g : rect w h g -> Forall write_ok (reaction_log fuel w h g).
Proof.
  revert g. induction fuel as [|fuel IH]; intros g Hr; [constructor|].
  destruct (decide (scan g w h = [])) as [Hnil|Hne].
  - rewrite reaction_log_rest by done. constructor.
  - rewrite reaction_log_step by done. apply Forall_app.
    split; [by apply wave_log_ok | by apply IH, rect_wave].
Qed.

(** The log of the loop is the logs of its waves, one after the other:
    the wave run on the board handed to the loop, then the waves run on the
    boards that the earlier waves left. *)
Lemma reaction_log_waves fuel g :
  reaction_log fuel w h g
  = concat (wave_log w h <$> take (length (wave_boards fuel w h g))
                                  (g :: wave_boards fuel w h g)).
Proof.
  revert g. induction fuel as [|fuel IH]; intros g; [done|].
  destruct (decide (scan g w h = [])) as [Hnil|Hne].
  - rewrite reaction_log_rest, wave_boards_rest by done. done.
  - rewrite reaction_log_step, wave_boards_step by done.
    cbn [length take fmap list_fmap concat]. by rewrite IH.
Qed.
End write_log.

(** The log of the handler on a well-formed storage, with the session
    looked up. *)
Lemma move_log_session (fuel : nat) (move : Move.t) (s : Store) (gid : string)
    (player : Role) (st : GameState.t) (flags : Flags) :
  store_ok s ->
  player_tokens s !! Move.token move = Some (gid, player) ->
  games s !! gid = Some st ->
  initial_moves_done s !! gid = Some flags ->
  move_log fuel move s =
    let grid := GameState.grid st in
    if off_board 5 5 (Move.x move) (Move.y move) then []
    else
      let x := Z.to_nat (Move.x move) in
      let y := Z.to_nat (Move.y move) in
      let cell := grid_get grid x y in
      if negb (flag_get flags player) then
        match cell_owner cell with
        | None => [mkWrite (x, y) cell (Owned player 1)]
        | Some _ => []
        end
      else if bool_decide (cell_owner cell ≠ Some player) then []
      else
        mkWrite (x, y) cell (Owned player (cell_count cell + 1))
        :: reaction_log fuel 5 5 (grid_set grid x y (Owned player (cell_count cell + 1))).
Proof.
  intros Hok Htok Hst Hfl.
  destruct (token_session s _ gid player Hok Htok)
    as (Hid & st' & flags' & row0 & Hst' & Hfl' & Hrow & Hw & Hh & _).
  assert (st' = st) as -> by congruence. assert (flags' = flags) as -> by congruence.
  unfold move_log. rewrite Htok. cbv zeta. rewrite Hid, Hst, Hfl, Hrow, Hw, Hh.
  destruct (off_board 5 5 _ _); [done|].
  destruct (negb (flag_get flags player)); [done|].
  case_bool_decide; [done|].
  f_equal. unfold process_reactions_log.
  destruct (grid_set_first_row (GameState.grid st) (Z.to_nat (Move.x move))
              (Z.to_nat (Move.y move))
              (Owned player (cell_count (grid_get (GameState.grid st) (Z.to_nat (Move.x move))
                                           (Z.to_nat (Move.y move))) + 1)) row0 Hrow)
    as (row0' & -> & Hlen).
  by rewrite Hlen, Hw, grid_set_length, Hh.
Qed.

Lemma contest_run :
  ∃ s, run_moves 2 contest_moves demo_store = Return (replicate 11 Ok, s) ∧
       board_of "g1" s = Some contest_board ∧
       initial_moves_done s !! "g1" = Some (mkFlags true true).
Proof. eexists. split; [by vm_compute|]. by vm_compute. Qed.

(** C6, read as a bound on what one wave does to a cell, fails.  Eleven
    accepted moves lead to the board with three units of BLUE at (0,0) and
    three units of RED at (1,0) and at (0,1).  BLUE's next increment of
    (0,0) starts a cascade of two waves.  In the second wave (1,0) and (0,1)
    explode together and (0,0), their common neighbour, goes from 0 to 2
    units: more than one increment, and no reset. *)
Lemma C6_counterexample :
  ∃ (s : Store) (b1 b2 : Grid),
    run_moves 2 contest_moves demo_store = Return (replicate 11 Ok, s) ∧
    board_of "g1" s = Some contest_board ∧
    wave_boards 3 5 5 (grid_set contest_board 0 0 (Owned BLUE 4)) = [b1; b2] ∧
    b2 = wave 5 5 b1 ∧
    cell_count (grid_get b1 0 0) = 0 ∧
    cell_count (grid_get (wave 5 5 b1) 0 0) = 2 ∧
    ¬ wave_changes_by_one 5 5 b1.
Proof.
  destruct contest_run as (s & Hrun & Hboard & _).
  exists s. eexists _, _. split; [exact Hrun|]. split; [exact Hboard|].
  split; [reflexivity|]. split; [reflexivity|]. split; [reflexivity|].
  split; [reflexivity|].
  intros Hone. specialize (Hone 0%nat 0%nat ltac:(lia) ltac:(lia)).
  vm_compute in Hone. destruct Hone as [?|[?|?]]; discriminate.
Qed.

(** C6, amended.  The count of every cell of every board stays >= 0, and
    every single write that an applied move or a cascade wave makes to a
    cell either increments the count of that cell by exactly 1 or resets the
    cell to empty (no owner, count 0), the reset being applied to a cell
    that holds at least 4 units.  The writes are those of [move_log], the
    assignments of lines 201, 213, 238 and 241 in the order the program
    makes them: made one after the other on the old board they give the new
    board, each finds in its cell what the log records, and each lies on the
    board.  A request that is not answered with success writes nothing; an
    accepted one first adds one unit to the played cell and, unless it is an
    opening move, goes on with the writes of the cascade, which are the
    writes of its waves.  Within one wave a cell is reset once if it is
    among the collected cells and not at all otherwise, and it is
    incremented once for each collected cell that has it as a neighbour,
    that is at most 4 times. *)
Theorem C6_cell_writes (fuel : nat) (move : Move.t) (r : Response) (s s' : Store)
    (gid : string) (player : Role) (st : GameState.t) (flags : Flags) :
  store_ok s ->
  player_tokens s !! Move.token move = Some (gid, player) ->
  games s !! gid = Some st ->
  initial_moves_done s !! gid = Some flags ->
  move_endpoint fuel move s = Return (r, s') ->
  let grid := GameState.grid st in
  let x := Z.to_nat (Move.x move) in
  let y := Z.to_nat (Move.y move) in
  let first := mkWrite (x, y) (grid_get grid x y)
                 (Owned player (cell_count (grid_get grid x y) + 1)) in
  let log := move_log fuel move s in
  (∃ st', games s' !! gid = Some st' ∧ replay grid log = GameState.grid st') ∧
  log_reads 5 5 grid log ∧
  (r ≠ Ok -> log = []) ∧
  (r = Ok ->
   log = first :: (if flag_get flags player
                   then reaction_log fuel 5 5 (apply_write grid first) else [])) ∧
  Forall write_ok log ∧
  (∀ gid' st' a b, games s' !! gid' = Some st' ->
                   0 <= cell_count (grid_get (GameState.grid st') a b)) ∧
  (∀ w h fuel' g,
     reaction_log fuel' w h g
     = concat (wave_log w h <$> take (length (wave_boards fuel' w h g))
                                     (g :: wave_boards fuel' w h g))) ∧
  (∀ w h g, rect w h g ->
     replay g (wave_log w h g) = wave w h g ∧
     log_reads w h g (wave_log w h g) ∧
     Forall write_ok (wave_log w h g) ∧
     ∀ p, in_grid w h p ->
       length (resets_at p (wave_log w h g))
         = (if decide (p ∈ pos <$> scan g w h) then 1%nat else 0%nat) ∧
       length (increments_at p (wave_log w h g))
         = length (blasts_next_to w h p (scan g w h)) ∧
       (length (blasts_next_to w h p (scan g w h)) <= 4)%nat).
Proof.
  intros Hok Htok Hst Hfl Hrun grid x y first log.
  pose proof (move_endpoint_store_ok fuel move r s s' Hok Hrun) as Hok'.
  destruct (proj1 Hok gid st Hst) as (Hr & Hgok & _).
  assert (∀ gid' st' a b, games s' !! gid' = Some st' ->
            0 <= cell_count (grid_get (GameState.grid st') a b)) as Hnn.
  { intros gid' st' a b Hst'. apply grid_ok_count, (proj1 Hok' gid' st' Hst'). }
  assert (∀ w h g, rect w h g ->
     replay g (wave_log w h g) = wave w h g ∧
     log_reads w h g (wave_log w h g) ∧
     Forall write_ok (wave_log w h g) ∧
     ∀ p, in_grid w h p ->
       length (resets_at p (wave_log w h g))
         = (if decide (p ∈ pos <$> scan g w h) then 1%nat else 0%nat) ∧
       length (increments_at p (wave_log w h g))
         = length (blasts_next_to w h p (scan g w h)) ∧
       (length (blasts_next_to w h p (scan g w h)) <= 4)%nat) as Hwave.
  { intros w h g Hrg. split; [apply wave_log_replay|]. split; [apply wave_log_reads|].
    split; [by apply wave_log_ok|]. intros p Hp.
    destruct (scan_critical w h g) as [Hnd Hall].
    split; [|split].
    - unfold wave_log. rewrite explode_all_log_resets. by apply filter_pos_NoDup.
    - apply explode_all_log_increments.
    - apply blasts_next_to_le_4; [done| |done].
      eapply Forall_impl; [exact Hall|]. by intros e [? _]. }
  assert (log = move_log fuel move s) as Hlog by done. clearbody log.
  rewrite (move_log_session fuel move s gid player st flags Hok Htok Hst Hfl) in Hlog.
  rewrite (move_endpoint_session fuel move s gid player st flags Hok Htok Hst Hfl) in Hrun.
  cbv zeta in Hlog, Hrun. fold grid x y in Hlog, Hrun.
  cut ((∃ st', games s' !! gid = Some st' ∧ replay grid log = GameState.grid st') ∧
       log_reads 5 5 grid log ∧
       (r ≠ Ok -> log = []) ∧
       (r = Ok ->
        log = first :: (if flag_get flags player
                        then reaction_log fuel 5 5 (apply_write grid first) else [])) ∧
       Forall write_ok log).
  { intros (H1 & H2 & H3 & H4 & H5). repeat (split; [assumption|]).
    split; [|exact Hwave]. intros w h fuel' g. apply reaction_log_waves. }
  destruct (off_board 5 5 (Move.x move) (Move.y move)) eqn:Hoff.
  { injection Hrun as <- <-. subst log.
    split; [by exists st|]. split; [done|]. split; [done|]. split; [done|]. constructor. }
  apply off_board_in_grid in Hoff. fold x y in Hoff.
  destruct (flag_get flags player) eqn:Hflag; cbn [negb] in Hlog, Hrun.
  - case_bool_decide as Hown.
    { injection Hrun as <- <-. subst log.
      split; [by exists st|]. split; [done|]. split; [done|]. split; [done|]. constructor. }
    destruct (reaction_loop fuel 5 5 _) as [g'| |] eqn:Hloop; simpl in Hrun; [|done|done].
    injection Hrun as <- <-. subst log.
    assert (rect 5 5 (apply_write grid first)) as Hr0 by (by apply rect_set).
    split; [|split; [|split; [|split]]].
    + eexists. split; [simpl; by rewrite lookup_insert_eq|].
      rewrite replay_cons. cbn [next_state GameState.grid].
      by apply (reaction_log_replay 5 5 fuel).
    + cbn [log_reads]. split; [exact Hoff|]. split; [done|]. apply reaction_log_reads.
    + done.
    + done.
    + constructor; [left; by exists player|]. by apply reaction_log_ok.
  - destruct (grid_get grid x y) as [|o c] eqn:Hcell; cbn [cell_owner] in Hlog, Hrun.
    + injection Hrun as <- <-. subst log.
      split; [|split; [|split; [|split]]].
      * eexists. split; [simpl; by rewrite lookup_insert_eq|]. done.
      * cbn [log_reads w_pos w_old fst snd]. split; [exact Hoff|]. by rewrite Hcell.
      * done.
      * intros _. by subst first.
      * constructor; [|constructor]. left. by exists player.
    + injection Hrun as <- <-. subst log.
      split; [by exists st|]. split; [done|]. split; [done|]. split; [done|]. constructor.
Qed.

Lemma C6_witness :
  let grid := GameState.grid primed_state in
  let first := mkWrite (2%nat, 2%nat) (grid_get grid 2 2)
                 (Owned RED (cell_count (grid_get grid 2 2) + 1)) in
  let log := move_log 2 (Move.mk "red-token" 2 2) primed_store in
  (∃ st', games burst_store !! "g1" = Some st' ∧ replay grid log = GameState.grid st') ∧
  log_reads 5 5 grid log ∧
  (Ok ≠ Ok -> log = []) ∧
  (Ok = Ok ->
   log = first :: (if flag_get (mkFlags true false) RED
                   then reaction_log 2 5 5 (apply_write grid first) else [])) ∧
  Forall write_ok log ∧
  (∀ gid' st' a b, games burst_store !! gid' = Some st' ->
                   0 <= cell_count (grid_get (GameState.grid st') a b)) ∧
  (∀ w h fuel' g,
     reaction_log fuel' w h g
     = concat (wave_log w h <$> take (length (wave_boards fuel' w h g))
                                     (g :: wave_boards fuel' w h g))) ∧
  (∀ w h g, rect w h g ->
     replay g (wave_log w h g) = wave w h g ∧
     log_reads w h g (wave_log w h g) ∧
     Forall write_ok (wave_log w h g) ∧
     ∀ p, in_grid w h p ->
       length (resets_at p (wave_log w h g))
         = (if decide (p ∈ pos <$> scan g w h) then 1%nat else 0%nat) ∧
       length (increments_at p (wave_log w h g))
         = length (blasts_next_to w h p (scan g w h)) ∧
       (length (blasts_next_to w h p (scan g w h)) <= 4)%nat).
Proof.
  apply (C6_cell_writes 2 (Move.mk "red-token" 2 2) Ok primed_store burst_store "g1" RED
           primed_state (mkFlags true false)).
  - apply primed_store_ok.
  - reflexivity.
  - reflexivity.
  - reflexivity.
  - apply (burst_run 0).
Defined.

(* ================================================================== *)
(** * Further properties of the code *)
(* ================================================================== *)

(* ================================================================== *)
(** ** The helpers *)
(* ================================================================== *)

(** X1.  For a cell of the board, [get_neighbors] lists every cell of the
    board at distance one in the four orthogonal directions and nothing
    else: no cell outside the board, not the cell itself, no diagonal
    neighbour, no cell twice; and the relation is symmetric. *)
Theorem X1_get_neighbors_spec (w h x y a b : nat) :
  in_grid w h (x, y) ->
  NoDup (get_neighbors x y w h) ∧
  ((a, b) ∈ get_neighbors x y w h ↔
     in_grid w h (a, b) ∧
     Z.abs (Z.of_nat a - Z.of_nat x) + Z.abs (Z.of_nat b - Z.of_nat y) = 1) ∧
  ((a, b) ∈ get_neighbors x y w h -> (x, y) ∈ get_neighbors a b w h).
Proof.
  intros [Hx Hy]. simpl in *. split; [apply get_neighbors_NoDup|].
  rewrite !elem_of_get_neighbors. unfold in_grid. simpl.
  split; [split|]; intros; lia.
Qed.

Lemma X1_witness :
  NoDup (get_neighbors 0 0 5 5) ∧
  ((1%nat, 0%nat) ∈ get_neighbors 0 0 5 5 ↔
     in_grid 5 5 (1%nat, 0%nat) ∧
     Z.abs (Z.of_nat 1 - Z.of_nat 0) + Z.abs (Z.of_nat 0 - Z.of_nat 0) = 1) ∧
  ((1%nat, 0%nat) ∈ get_neighbors 0 0 5 5 -> (0%nat, 0%nat) ∈ get_neighbors 1 0 5 5).
Proof. apply (X1_get_neighbors_spec 5 5 0 0 1 0). split; simpl; lia. Defined.

Lemma setdefault_lookup_decide {V : Type} (k k' : string) (v : V) (d : gmap string V) :
  setdefault k v d !! k' = if decide (k = k') then Some (default v (d !! k)) else d !! k'.
Proof.
  case_decide as Hk.
  - subst. apply setdefault_lookup.
  - by apply setdefault_lookup_ne.
Qed.

Lemma setdefault_idemp {V : Type} (k : string) (v : V) (d : gmap string V) :
  setdefault k v (setdefault k v d) = setdefault k v d.
Proof. apply setdefault_id. rewrite setdefault_lookup. eauto. Qed.

Lemma setdefault_comm {V : Type} (k1 k2 : string) (v1 v2 : V) (d : gmap string V) :
  (k1 = k2 -> v1 = v2) ->
  setdefault k1 v1 (setdefault k2 v2 d) = setdefault k2 v2 (setdefault k1 v1 d).
Proof.
  intros Hv. apply map_eq. intros k. rewrite !setdefault_lookup_decide.
  repeat case_decide; simplify_eq; try done.
  rewrite (Hv eq_refl). by destruct (d !! _).
Qed.

(** X2.  [ensure_game_initialized] never overwrites: a game, a subscriber
    list and a pair of opening flags that exist are kept as they are, for
    every session, and the tokens are not touched.  A missing game is
    created with the empty 5 by 5 board and RED to move, missing flags are
    created unset and a missing subscriber list is created empty.  A second
    call changes nothing. *)
Theorem X2_ensure_game_initialized (gid : string) (s : Store) :
  let s' := ensure_game_initialized gid s in
  ensure_game_initialized gid s' = s' ∧
  player_tokens s' = player_tokens s ∧
  (∀ gid' st, games s !! gid' = Some st -> games s' !! gid' = Some st) ∧
  (∀ gid' qs, subscribers s !! gid' = Some qs -> subscribers s' !! gid' = Some qs) ∧
  (∀ gid' fl, initial_moves_done s !! gid' = Some fl ->
              initial_moves_done s' !! gid' = Some fl) ∧
  (games s !! gid = None -> games s' !! gid = Some (GameState.mk gid new_empty_grid RED)) ∧
  (subscribers s !! gid = None -> subscribers s' !! gid = Some []) ∧
  (initial_moves_done s !! gid = None ->
   initial_moves_done s' !! gid = Some (mkFlags false false)) ∧
  (∀ gid', gid' ≠ gid ->
     games s' !! gid' = games s !! gid' ∧
     subscribers s' !! gid' = subscribers s !! gid' ∧
     initial_moves_done s' !! gid' = initial_moves_done s !! gid').
Proof.
  cbv zeta. split.
  { unfold ensure_game_initialized. simpl. by rewrite !setdefault_idemp. }
  split; [done|].
  split; [intros gid' st; apply (setdefault_lookup_Some gid gid')|].
  split; [intros gid' qs; apply (setdefault_lookup_Some gid gid')|].
  split; [intros gid' fl; apply (setdefault_lookup_Some gid gid')|].
  split; [intros Hn; by rewrite ensure_games, Hn|].
  split; [intros Hn; by rewrite ensure_subscribers, Hn|].
  split; [intros Hn; by rewrite ensure_flags, Hn|].
  intros gid' Hne. simpl. by rewrite !setdefault_lookup_ne.
Qed.

(** X3.  Ensuring two sessions gives the same storage in either order. *)
Theorem X3_ensure_game_initialized_comm (gid1 gid2 : string) (s : Store) :
  ensure_game_initialized gid1 (ensure_game_initialized gid2 s)
  = ensure_game_initialized gid2 (ensure_game_initialized gid1 s).
Proof.
  unfold ensure_game_initialized. simpl. f_equal.
  - apply setdefault_comm. by intros ->.
  - by apply setdefault_comm.
  - by apply setdefault_comm.
Qed.

(** X4.  [broadcast] changes nothing but the queues of the one session: two
    messages published in a row end up at the tail of each of its queues,
    in the order of publication, behind what the queue held.  The queues of
    the other sessions, the games, the flags and the tokens are as before,
    and for a session without subscriber entry nothing happens at all. *)
Theorem X4_broadcast_order (gid : string) (m1 m2 : GameState.t) (s : Store) :
  let s' := broadcast gid m2 (broadcast gid m1 s) in
  games s' = games s ∧
  initial_moves_done s' = initial_moves_done s ∧
  player_tokens s' = player_tokens s ∧
  subscribers s' !! gid = fmap (fun q : Queue => q ++ [m1; m2]) <$> subscribers s !! gid ∧
  (∀ gid', gid' ≠ gid -> subscribers s' !! gid' = subscribers s !! gid') ∧
  (subscribers s !! gid = None -> s' = s).
Proof.
  simpl. split; [done|]. split; [done|]. split; [done|].
  split; [|split].
  - unfold broadcast. simpl. rewrite !lookup_alter_eq.
    destruct (subscribers s !! gid) as [qs|]; simpl; [|done].
    f_equal. rewrite <- list_fmap_compose. apply list_fmap_ext.
    intros _ q _. simpl. by rewrite <- app_assoc.
  - intros gid' Hne. unfold broadcast. simpl. by rewrite !lookup_alter_ne.
  - intros Hn. unfold broadcast, set_subscribers. simpl.
    assert (alter (fmap (fun q : Queue => q ++ [m1])) gid (subscribers s) = subscribers s) as ->.
    { apply map_eq. intros k. destruct (decide (gid = k)) as [<-|Hne].
      - by rewrite lookup_alter_eq, Hn.
      - by rewrite lookup_alter_ne. }
    assert (alter (fmap (fun q : Queue => q ++ [m2])) gid (subscribers s) = subscribers s) as ->.
    { apply map_eq. intros k. destruct (decide (gid = k)) as [<-|Hne].
      - by rewrite lookup_alter_eq, Hn.
      - by rewrite lookup_alter_ne. }
    by destruct s.
Qed.

(* ================================================================== *)
(** ** The reaction engine *)
(* ================================================================== *)

(** X5.  The scan collects exactly the cells of the board whose count is
    at least 4, each once and with the owner it has at that moment; it
    collects nothing exactly when every cell of the board is below 4. *)
Theorem X5_scan_spec (g : Grid) (w h : nat) :
  (∀ x y o, (x, y, o) ∈ scan g w h ↔
     (x < w)%nat ∧ (y < h)%nat ∧ ∃ n, grid_get g x y = Owned o n ∧ 4 <= n) ∧
  NoDup (pos <$> scan g w h) ∧
  (scan g w h = [] ↔
     ∀ x y, (x < w)%nat -> (y < h)%nat -> cell_count (grid_get g x y) < 4).
Proof.
  split; [intros x y o; apply elem_of_scan|].
  split; [apply scan_NoDup | apply scan_nil].
Qed.

(** X6.  One explosion, cell by cell: the exploding cell is left empty;
    each of its neighbours gets the owner recorded for the exploding cell,
    whoever owned it before, and one unit more than it held; every other
    cell of the board is untouched, and the board keeps its shape. *)
Theorem X6_explode_effect (w h : nat) (g : Grid) (x y : nat) (o : Role) (a b : nat) :
  rect w h g -> in_grid w h (x, y) ->
  rect w h (explode w h g (x, y, o)) ∧
  grid_get (explode w h g (x, y, o)) a b =
    if decide ((a, b) = (x, y)) then Empty
    else if decide ((a, b) ∈ get_neighbors x y w h)
         then Owned o (cell_count (grid_get g a b) + 1)
         else grid_get g a b.
Proof.
  intros Hr Hin. split; [by apply rect_explode | by apply explode_get].
Qed.

Lemma X6_witness :
  rect 5 5 (explode 5 5 adjacent_board (0%nat, 0%nat, RED)) ∧
  grid_get (explode 5 5 adjacent_board (0%nat, 0%nat, RED)) 1 0 =
    if decide ((1%nat, 0%nat) = (0%nat, 0%nat)) then Empty
    else if decide ((1%nat, 0%nat) ∈ get_neighbors 0 0 5 5)
         then Owned RED (cell_count (grid_get adjacent_board 1 0) + 1)
         else grid_get adjacent_board 1 0.
Proof.
  apply (X6_explode_effect 5 5 adjacent_board 0 0 RED 1 0).
  - split; [reflexivity | repeat constructor].
  - split; simpl; lia.
Defined.

Lemma process_reactions_inv (fuel : nat) (gid : string) (player : Role) (s s' : Store) :
  process_reactions fuel gid player s = Return s' ->
  ∃ st row0 g',
    games s !! gid = Some st ∧ GameState.grid st !! 0%nat = Some row0 ∧
    reaction_loop fuel (length row0) (length (GameState.grid st)) (GameState.grid st)
      = Return g' ∧
    s' = set_games s (<[gid := set_grid st g']> (games s)).
Proof.
  unfold process_reactions, first_row. intros Hrun.
  destruct (games s !! gid) as [st|]; simpl in Hrun; [|done].
  destruct (GameState.grid st !! 0%nat) as [row0|] eqn:Hrow; simpl in Hrun; [|done].
  destruct (reaction_loop fuel _ _ _) as [g'| |] eqn:Hloop; simpl in Hrun; [|done|done].
  injection Hrun as <-. by exists st, row0, g'.
Qed.

(** X7.  A call of [process_reactions] that returns has changed the board
    of the one session and nothing else: the session keeps its id and its
    current player, the other sessions, the subscriber queues, the opening
    flags and the tokens are as before. *)
Theorem X7_process_reactions_frame (fuel : nat) (gid : string) (player : Role) (s s' : Store) :
  process_reactions fuel gid player s = Return s' ->
  subscribers s' = subscribers s ∧
  initial_moves_done s' = initial_moves_done s ∧
  player_tokens s' = player_tokens s ∧
  (∀ gid', gid' ≠ gid -> games s' !! gid' = games s !! gid') ∧
  ∃ st st', games s !! gid = Some st ∧ games s' !! gid = Some st' ∧
            GameState.id st' = GameState.id st ∧
            GameState.current_player st' = GameState.current_player st.
Proof.
  intros Hrun.
  apply process_reactions_inv in Hrun as (st & row0 & g' & Hst & _ & _ & ->).
  simpl. split; [done|]. split; [done|]. split; [done|]. split.
  - intros gid' Hne. by rewrite lookup_insert_ne.
  - exists st, (set_grid st g'). by rewrite lookup_insert_eq.
Qed.

Lemma center_resolved_run :
  process_reactions 2 "g1" RED center_store = Return center_resolved.
Proof.
  rewrite (process_reactions_eq 2 "g1" RED center_store (GameState.mk "g1" center_board RED)
             [Empty; Empty; Empty; Empty; Empty]); [|reflexivity|reflexivity].
  reflexivity.
Qed.

Lemma X7_witness :
  subscribers center_resolved = subscribers center_store ∧
  initial_moves_done center_resolved = initial_moves_done center_store ∧
  player_tokens center_resolved = player_tokens center_store ∧
  (∀ gid', gid' ≠ "g1" -> games center_resolved !! gid' = games center_store !! gid') ∧
  ∃ st st', games center_store !! "g1" = Some st ∧ games center_resolved !! "g1" = Some st' ∧
            GameState.id st' = GameState.id st ∧
            GameState.current_player st' = GameState.current_player st.
Proof.
  apply (X7_process_reactions_frame 2 "g1" RED center_store center_resolved).
  apply center_resolved_run.
Defined.

Lemma explode_all_length (w h : nat) (g : Grid) (l : list Blast) :
  length (explode_all w h g l) = length g ∧
  ∀ row0, g !! 0%nat = Some row0 ->
    ∃ row0', explode_all w h g l !! 0%nat = Some row0' ∧ length row0' = length row0.
Proof.
  assert (∀ o (ns : list (nat * nat)) g0,
            length (foldl (bump o) g0 ns) = length g0 ∧
            ∀ row0, g0 !! 0%nat = Some row0 ->
              ∃ row0', foldl (bump o) g0 ns !! 0%nat = Some row0' ∧
                       length row0' = length row0) as Hbump.
  { intros o ns. induction ns as [|n ns IH]; intros g0; [eauto|].
    simpl. destruct (IH (bump o g0 n)) as [IH1 IH2]. split.
    - rewrite IH1. apply grid_set_length.
    - intros row0 Hrow.
      destruct (grid_set_first_row g0 n.1 n.2
                  (Owned o (cell_count (grid_get g0 n.1 n.2) + 1)) row0 Hrow)
        as (r1 & Hr1 & Hl1).
      destruct (IH2 r1 Hr1) as (r2 & Hr2 & Hl2). exists r2. split; [done|lia]. }
  revert g. induction l as [|[[x y] o] l IH]; intros g; [eauto|].
  rewrite explode_all_cons. destruct (IH (explode w h g (x, y, o))) as [IH1 IH2].
  unfold explode in *.
  destruct (Hbump o (get_neighbors x y w h) (grid_set g x y Empty)) as [Hb1 Hb2].
  split.
  - rewrite IH1, Hb1. apply grid_set_length.
  - intros row0 Hrow.
    destruct (grid_set_first_row g x y Empty row0 Hrow) as (r1 & Hr1 & Hl1).
    destruct (Hb2 r1 Hr1) as (r2 & Hr2 & Hl2).
    destruct (IH2 r2 Hr2) as (r3 & Hr3 & Hl3). exists r3. split; [done|lia].
Qed.

Lemma reaction_loop_result (fuel w h : nat) (g g' : Grid) :
  reaction_loop fuel w h g = Return g' ->
  scan g' w h = [] ∧ length g' = length g ∧
  ∀ row0, g !! 0%nat = Some row0 ->
    ∃ row0', g' !! 0%nat = Some row0' ∧ length row0' = length row0.
Proof.
  revert g. induction fuel as [|fuel IH]; intros g Hrun; [done|].
  destruct (decide (scan g w h = [])) as [Hnil|Hne].
  - rewrite reaction_loop_rest in Hrun by done. injection Hrun as <-. eauto.
  - rewrite reaction_loop_step in Hrun by done.
    destruct (IH _ Hrun) as (Hs & Hl & Hrow).
    destruct (explode_all_length w h g (scan g w h)) as [El Erow].
    fold (wave w h g) in El, Erow.
    split; [done|]. split; [lia|].
    intros row0 Hr0. destruct (Erow row0 Hr0) as (r1 & Hr1 & Hl1).
    destruct (Hrow r1 Hr1) as (r2 & Hr2 & Hl2). exists r2. split; [done|lia].
Qed.

(** X8.  Reaction resolution is idempotent: once a call has returned, a
    further call on the storage it left, for any role and with any fuel of
    at least one loop iteration, returns at once with the same storage.
    This holds for every storage, well formed or not. *)
Theorem X8_process_reactions_idempotent
    (fuel fuel' : nat) (gid : string) (player player' : Role) (s s' : Store) :
  process_reactions fuel gid player s = Return s' ->
  process_reactions (S fuel') gid player' s' = Return s'.
Proof.
  intros Hrun.
  apply process_reactions_inv in Hrun as (st & row0 & g' & Hst & Hrow & Hloop & ->).
  destruct (reaction_loop_result _ _ _ _ _ Hloop) as (Hscan & Hlen & Hfirst).
  destruct (Hfirst row0 Hrow) as (row0' & Hrow' & Hlen').
  rewrite (process_reactions_eq (S fuel') gid player' _ (set_grid st g') row0');
    [|simpl; by rewrite lookup_insert_eq | done].
  cbn [set_grid GameState.grid]. rewrite Hlen', Hlen.
  rewrite reaction_loop_rest by done.
  change (Return (set_games (set_games s (<[gid := set_grid st g']> (games s)))
                    (<[gid := set_grid (set_grid st g') g']>
                       (<[gid := set_grid st g']> (games s))))
          = Return (set_games s (<[gid := set_grid st g']> (games s)))).
  unfold set_games, set_grid. simpl. by rewrite insert_insert_eq.
Qed.

Lemma X8_witness :
  process_reactions 3 "g1" BLUE center_resolved = Return center_resolved.
Proof.
  apply (X8_process_reactions_idempotent 2 2 "g1" RED BLUE center_store).
  apply center_resolved_run.
Defined.

(* ================================================================== *)
(** ** The length of a cascade *)
(* ================================================================== *)

Ltac at_cell H x y :=
  let F := fresh "Hc" in
  pose proof (H x y ltac:(lia) ltac:(lia)) as F; cbn in F.

Ltac at_all_cells H :=
  at_cell H 0%nat 0%nat; at_cell H 1%nat 0%nat; at_cell H 2%nat 0%nat; at_cell H 3%nat 0%nat; at_cell H 4%nat 0%nat; at_cell H 0%nat 1%nat; at_cell H 1%nat 1%nat; at_cell H 2%nat 1%nat; at_cell H 3%nat 1%nat; at_cell H 4%nat 1%nat; at_cell H 0%nat 2%nat; at_cell H 1%nat 2%nat; at_cell H 2%nat 2%nat; at_cell H 3%nat 2%nat; at_cell H 4%nat 2%nat; at_cell H 0%nat 3%nat; at_cell H 1%nat 3%nat; at_cell H 2%nat 3%nat; at_cell H 3%nat 3%nat; at_cell H 4%nat 3%nat; at_cell H 0%nat 4%nat; at_cell H 1%nat 4%nat; at_cell H 2%nat 4%nat; at_cell H 3%nat 4%nat; at_cell H 4%nat 4%nat.

(** On a resting 5 by 5 board every count is at most 3, so the weighted
    mass is at most three times the sum of the weights. *)
Lemma potential_rest_bound (g : Grid) :
  rect 5 5 g -> at_rest 5 5 g -> potential 5 5 g <= 1050.
Proof.
  intros Hr Hrest.
  pose proof (proj1 (scan_nil 5 5 g) Hrest) as Hlt.
  destruct Hr as [Hh Hw].
  do 6 (destruct g as [|? g]; try discriminate Hh).
  repeat (match goal with
          | H : Forall _ (_ :: _) |- _ => apply Forall_cons in H; destruct H as [? H]
          end).
  repeat (match goal with
          | H : length ?r = 5%nat |- _ =>
              do 6 (destruct r as [|? r]; try discriminate H); clear H
          end).
  at_all_cells Hlt. clear Hlt Hrest Hh Hw.
  unfold potential, weight. cbn [grid_sum row_sum]. lia.
Qed.

Lemma weight_le_18 (x y : nat) : in_grid 5 5 (x, y) -> weight 5 5 x y <= 18.
Proof.
  unfold in_grid, weight. simpl. intros [Hx Hy].
  destruct x as [|[|[|[|[|?]]]]]; destruct y as [|[|[|[|[|?]]]]]; lia.
Qed.

Lemma potential_after_increment (g : Grid) (x y : nat) (o : Role) :
  rect 5 5 g -> at_rest 5 5 g -> in_grid 5 5 (x, y) ->
  potential 5 5 (grid_set g x y (Owned o (cell_count (grid_get g x y) + 1))) <= 1068.
Proof.
  intros Hr Hrest Hin. unfold potential.
  rewrite (grid_sum_set_rect 5 5) by done. simpl.
  pose proof (potential_rest_bound g Hr Hrest) as Hp. unfold potential in Hp.
  pose proof (weight_le_18 x y Hin). lia.
Qed.

Lemma wave_boards_length (fuel w h : nat) (g : Grid) :
  (length (wave_boards fuel w h g) <= fuel)%nat.
Proof.
  revert g. induction fuel as [|fuel IH]; intros g; [done|].
  destruct (decide (scan g w h = [])) as [Hnil|Hne].
  - rewrite wave_boards_rest by done. simpl. lia.
  - rewrite wave_boards_step by done. specialize (IH (wave w h g)). simpl. lia.
Qed.

Lemma cascade_bound (g : Grid) :
  rect 5 5 g -> grid_ok g -> potential 5 5 g <= 1068 ->
  (∃ g', ∀ fuel, (268 <= fuel)%nat -> reaction_loop fuel 5 5 g = Return g') ∧
  ∀ fuel, (length (wave_boards fuel 5 5 g) <= 267)%nat.
Proof.
  intros Hr Hok Hp.
  destruct (reaction_loop_terminates 5 5 268 g Hr Hok ltac:(lia)) as (g' & Hrun & Hwaves & _).
  split; [by exists g'|].
  intros fuel. destruct (decide (268 <= fuel)%nat) as [Hf|Hf].
  - destruct (Hwaves fuel Hf). lia.
  - pose proof (wave_boards_length fuel 5 5 g). lia.
Qed.

Lemma increment_cascade_returns (g : Grid) (x y : nat) (o : Role) :
  board_ok g -> in_grid 5 5 (x, y) ->
  ∃ g', ∀ fuel, (268 <= fuel)%nat ->
    reaction_loop fuel 5 5 (grid_set g x y (Owned o (cell_count (grid_get g x y) + 1)))
    = Return g'.
Proof.
  intros (Hr & Hok & Hrest) Hin.
  apply cascade_bound.
  - by apply rect_set.
  - apply grid_ok_set; [done|]. simpl. pose proof (grid_ok_count g x y Hok). lia.
  - by apply potential_after_increment.
Qed.

(** X9.  A cascade is short.  When one unit is added to a cell of a resting
    5 by 5 board (what an accepted increment does), reaction resolution
    runs at most 267 waves, and 268 iterations of the loop are enough for it
    to return, on a board at rest. *)
Theorem X9_cascade_length (g : Grid) (x y : nat) (o : Role) :
  board_ok g -> in_grid 5 5 (x, y) ->
  let g0 := grid_set g x y (Owned o (cell_count (grid_get g x y) + 1)) in
  (∀ fuel, (length (wave_boards fuel 5 5 g0) <= 267)%nat) ∧
  ∃ g', (∀ fuel, (268 <= fuel)%nat -> reaction_loop fuel 5 5 g0 = Return g') ∧
        board_ok g'.
Proof.
  intros (Hr & Hok & Hrest) Hin g0.
  assert (rect 5 5 g0) as Hr0 by (by apply rect_set).
  assert (grid_ok g0) as Hok0.
  { apply grid_ok_set; [done|]. simpl. pose proof (grid_ok_count g x y Hok). lia. }
  pose proof (potential_after_increment g x y o Hr Hrest Hin) as Hp. fold g0 in Hp.
  destruct (cascade_bound g0 Hr0 Hok0 Hp) as [[g' Hrun] Hlen].
  split; [done|]. exists g'. split; [done|].
  destruct (reaction_loop_inv 5 5 268 g0 g' Hr0 Hok0 (Hrun 268%nat ltac:(lia)))
    as (? & ? & ? & _).
  done.
Qed.

Lemma X9_witness :
  (∀ fuel, (length (wave_boards fuel 5 5 center_board) <= 267)%nat) ∧
  ∃ g', (∀ fuel, (268 <= fuel)%nat -> reaction_loop fuel 5 5 center_board = Return g') ∧
        board_ok g'.
Proof.
  apply (X9_cascade_length (grid_set new_empty_grid 2 2 (Owned RED 3)) 2 2 RED).
  - split; [split; [reflexivity | repeat constructor]
           | split; [repeat (constructor; try done) | reflexivity]].
  - split; simpl; lia.
Defined.

(* ================================================================== *)
(** ** The move handler on a well-formed storage *)
(* ================================================================== *)

(** What a move leaves behind: either nothing has changed and the answer is
    not a success, or the answer is a success and the session of the token
    has a new state, published once on each of its queues. *)
Lemma move_endpoint_shape (fuel : nat) (move : Move.t) (r : Response) (s s' : Store) :
  store_ok s ->
  move_endpoint fuel move s = Return (r, s') ->
  (r ≠ Ok ∧ s' = s) ∨
  (r = Ok ∧
   ∃ gid player st st' flags flags',
     player_tokens s !! Move.token move = Some (gid, player) ∧
     games s !! gid = Some st ∧
     initial_moves_done s !! gid = Some flags ∧
     s' = mkStore (<[gid := st']> (games s))
                  (alter (fmap (fun q : Queue => q ++ [st'])) gid (subscribers s))
                  (<[gid := flags']> (initial_moves_done s))
                  (player_tokens s) ∧
     GameState.id st' = GameState.id st ∧
     GameState.current_player st' = other_role player ∧
     flag_get flags' player = true ∧
     flag_get flags' (other_role player) = flag_get flags (other_role player)).
Proof.
  intros Hok Hrun.
  destruct (player_tokens s !! Move.token move) as [[gid player]|] eqn:Htok.
  - destruct (token_session s _ gid player Hok Htok)
      as (_ & st & flags & row0 & Hst & Hfl & _).
    rewrite (move_endpoint_session fuel move s gid player st flags) in Hrun by done.
    simpl in Hrun.
    destruct (off_board 5 5 _ _); [injection Hrun as <- <-; by left|].
    destruct (negb (flag_get flags player)) eqn:Hflag.
    + destruct (cell_owner _); [injection Hrun as <- <-; by left|].
      injection Hrun as <- <-. right. split; [done|].
      eexists gid, player, st, _, flags, (flag_set flags player true).
      split; [done|]. split; [done|]. split; [done|]. split; [reflexivity|].
      split; [done|]. split; [done|].
      split; [apply flag_set_get | apply flag_set_get_other].
    + case_bool_decide; [injection Hrun as <- <-; by left|].
      destruct (reaction_loop fuel 5 5 _) as [g'| |]; simpl in Hrun; [|done|done].
      injection Hrun as <- <-. right. split; [done|].
      eexists gid, player, st, _, flags, flags.
      split; [done|]. split; [done|]. split; [done|].
      split; [unfold after_increment; by rewrite (insert_id (initial_moves_done s) gid flags)|].
      split; [done|]. split; [done|]. split; [|done].
      apply negb_false_iff in Hflag. done.
  - unfold move_endpoint in Hrun. rewrite Htok in Hrun. injection Hrun as <- <-. by left.
Qed.

Lemma move_endpoint_returns_268 (move : Move.t) (s : Store) :
  store_ok s ->
  ∃ r s', ∀ fuel, (268 <= fuel)%nat -> move_endpoint fuel move s = Return (r, s').
Proof.
  intros Hok.
  destruct (player_tokens s !! Move.token move) as [[gid player]|] eqn:Htok.
  - destruct (token_session s _ gid player Hok Htok)
      as (_ & st & flags & row0 & Hst & Hfl & _ & _ & _ & Hb).
    pose proof (fun fuel => move_endpoint_session fuel move s gid player st flags Hok Htok Hst Hfl)
      as Heq.
    simpl in Heq.
    destruct (off_board 5 5 (Move.x move) (Move.y move)) eqn:Hoff.
    { eexists _, _. intros fuel _. by rewrite Heq. }
    destruct (negb (flag_get flags player)).
    + destruct (cell_owner _) eqn:Hown; eexists _, _; intros fuel _; by rewrite Heq.
    + case_bool_decide.
      { eexists _, _. intros fuel _. by rewrite Heq. }
      destruct (increment_cascade_returns (GameState.grid st) (Z.to_nat (Move.x move))
                  (Z.to_nat (Move.y move)) player Hb (off_board_in_grid _ _ _ _ Hoff))
        as (g' & Hrun).
      eexists _, _. intros fuel Hf. rewrite Heq, (Hrun fuel Hf). done.
  - exists (HTTP401 "Invalid token"), s. intros fuel _.
    unfold move_endpoint. by rewrite Htok.
Qed.

(** X10.  On every storage the server can reach, every move request is
    answered: no exception is raised, and 268 iterations of the wave loop
    are always enough.  The storage left behind is again reachable, and a
    request that is not answered with success has changed nothing. *)
Theorem X10_move_is_answered (move : Move.t) (s : Store) :
  reachable s ->
  ∃ r s',
    (∀ fuel, (268 <= fuel)%nat -> move_endpoint fuel move s = Return (r, s')) ∧
    reachable s' ∧
    (r ≠ Ok -> s' = s).
Proof.
  intros Hreach. pose proof (reachable_store_ok s Hreach) as Hok.
  destruct (move_endpoint_returns_268 move s Hok) as (r & s' & Hrun).
  exists r, s'. split; [done|]. specialize (Hrun 268%nat ltac:(lia)). split.
  - unfold reachable in *. eapply rtc_r; [exact Hreach|]. by eapply step_move.
  - intros Hne. destruct (move_endpoint_shape 268 move r s s' Hok Hrun) as [[_ ?]|[? _]]; done.
Qed.

Lemma X10_witness :
  ∃ r s',
    (∀ fuel, (268 <= fuel)%nat ->
             move_endpoint fuel (Move.mk "red-token" 2 2) demo_store = Return (r, s')) ∧
    reachable s' ∧
    (r ≠ Ok -> s' = demo_store).
Proof. apply (X10_move_is_answered (Move.mk "red-token" 2 2) demo_store demo_store_reachable). Defined.

(** X11.  The handler answers with the 401 failure exactly when the token
    is unknown, and in that case it has touched nothing: no session is
    created, not even lazily.  This holds for every storage and any fuel. *)
Theorem X11_unauthorized (fuel : nat) (move : Move.t) (s s' : Store) (detail : string) :
  move_endpoint fuel move s = Return (HTTP401 detail, s') ↔
  player_tokens s !! Move.token move = None ∧ detail = "Invalid token" ∧ s' = s.
Proof.
  split.
  - intros Hrun. unfold move_endpoint in Hrun.
    destruct (player_tokens s !! Move.token move) as [[gid player]|] eqn:Htok.
    + exfalso. unfold mbind, result_bind, from_option, first_row in Hrun.
      repeat case_match; simplify_eq.
    + by injection Hrun as <- <-.
  - intros (Htok & -> & ->). unfold move_endpoint. by rewrite Htok.
Qed.

(** X12.  Once a role has made its opening move, it can only play on cells
    it owns: a move of that role on an in-bounds cell that is empty or owned
    by the other role is answered with the error for a foreign cell, and
    the storage is unchanged.  In particular no role opens twice. *)
Theorem X12_not_your_cell (fuel : nat) (move : Move.t) (s : Store) (gid : string)
    (player : Role) (st : GameState.t) (flags : Flags) :
  store_ok s ->
  player_tokens s !! Move.token move = Some (gid, player) ->
  games s !! gid = Some st ->
  initial_moves_done s !! gid = Some flags ->
  flag_get flags player = true ->
  0 <= Move.x move <= 4 ∧ 0 <= Move.y move <= 4 ->
  cell_owner (grid_get (GameState.grid st) (Z.to_nat (Move.x move)) (Z.to_nat (Move.y move)))
    ≠ Some player ->
  move_endpoint fuel move s = Return (Error "Not your cell", s).
Proof.
  intros Hok Htok Hst Hfl Hflag Hin Hown.
  rewrite (move_endpoint_session fuel move s gid player st flags) by done. simpl.
  assert (off_board 5 5 (Move.x move) (Move.y move) = false) as ->
    by (apply off_board_false; lia).
  rewrite Hflag. simpl. by rewrite bool_decide_eq_true_2.
Qed.

Lemma X12_witness :
  move_endpoint 0 (Move.mk "red-token" 0 0) red_opened
  = Return (Error "Not your cell", red_opened).
Proof.
  apply (X12_not_your_cell 0 (Move.mk "red-token" 0 0) red_opened "g1" RED
           red_opened_state (mkFlags true false)).
  - apply red_opened_ok.
  - reflexivity.
  - reflexivity.
  - reflexivity.
  - reflexivity.
  - simpl. lia.
  - discriminate.
Defined.

(** X13.  A move is local to the session of its token.  Whatever the
    answer, the tokens are unchanged, and the game, the opening flags and
    the queues of every other session are unchanged.  In the session itself
    no opening flag is ever cleared, no queue is added or removed, and every
    queue keeps what it held and receives at most one message: the stored
    state of the session, exactly when the answer is success. *)
Theorem X13_move_frame (fuel : nat) (move : Move.t) (r : Response) (s s' : Store)
    (gid : string) (player : Role) :
  store_ok s ->
  player_tokens s !! Move.token move = Some (gid, player) ->
  move_endpoint fuel move s = Return (r, s') ->
  player_tokens s' = player_tokens s ∧
  (∀ gid', gid' ≠ gid ->
     games s' !! gid' = games s !! gid' ∧
     initial_moves_done s' !! gid' = initial_moves_done s !! gid' ∧
     subscribers s' !! gid' = subscribers s !! gid') ∧
  (∀ fl role, initial_moves_done s !! gid = Some fl -> flag_get fl role = true ->
     ∃ fl', initial_moves_done s' !! gid = Some fl' ∧ flag_get fl' role = true) ∧
  (∃ msgs,
     subscribers s' !! gid = fmap (fun q : Queue => q ++ msgs) <$> subscribers s !! gid ∧
     ((r = Ok ∧ ∃ st', games s' !! gid = Some st' ∧ msgs = [st']) ∨ (r ≠ Ok ∧ msgs = []))).
Proof.
  intros Hok Htok Hrun.
  destruct (move_endpoint_shape fuel move r s s' Hok Hrun)
    as [[Hne ->]|[-> (gid0 & player0 & st & st' & fl0 & fl0' & Htok' & Hst & Hfl & -> & _ & _ & Hset & Hother)]].
  - split; [done|]. split; [done|]. split; [by eauto|].
    exists []. split; [|by right].
    destruct (subscribers s !! gid) as [qs|]; simpl; [|done].
    f_equal. induction qs as [|q qs IH]; [done|]. csimpl. by rewrite app_nil_r, <- IH.
  - assert (gid0 = gid ∧ player0 = player) as [-> ->] by (split; congruence).
    simpl. split; [done|]. split; [|split].
    + intros gid' Hne. by rewrite !lookup_insert_ne, lookup_alter_ne.
    + intros fl role Hfl' Hrole. assert (fl = fl0) as -> by congruence.
      exists fl0'. rewrite lookup_insert_eq. split; [done|].
      destruct (decide (role = player)) as [->|Hr]; [done|].
      assert (role = other_role player) as -> by (destruct role, player; done).
      by rewrite Hother.
    + exists [st']. split; [by rewrite lookup_alter_eq|]. left. split; [done|].
      exists st'. by rewrite lookup_insert_eq.
Qed.

Lemma X13_witness :
  player_tokens red_opened = player_tokens demo_store ∧
  (∀ gid', gid' ≠ "g1" ->
     games red_opened !! gid' = games demo_store !! gid' ∧
     initial_moves_done red_opened !! gid' = initial_moves_done demo_store !! gid' ∧
     subscribers red_opened !! gid' = subscribers demo_store !! gid') ∧
  (∀ fl role, initial_moves_done demo_store !! "g1" = Some fl -> flag_get fl role = true ->
     ∃ fl', initial_moves_done red_opened !! "g1" = Some fl' ∧ flag_get fl' role = true) ∧
  (∃ msgs,
     subscribers red_opened !! "g1"
       = fmap (fun q : Queue => q ++ msgs) <$> subscribers demo_store !! "g1" ∧
     ((Ok = Ok ∧ ∃ st', games red_opened !! "g1" = Some st' ∧ msgs = [st']) ∨
      (Ok ≠ Ok ∧ msgs = []))).
Proof.
  apply (X13_move_frame 0 (Move.mk "red-token" 2 2) Ok demo_store red_opened "g1" RED).
  - apply demo_store_ok.
  - reflexivity.
  - apply red_opening_run.
Defined.

(** X14.  An accepted increment that does not reach the critical mass runs
    no wave: on a cell the caller owns with at most 2 units, after the
    caller's opening move, the answer is success, that cell holds one unit
    more for the same owner, no other cell has changed, and the turn goes to
    the other role. *)
Theorem X14_quiet_increment (fuel : nat) (move : Move.t) (s : Store) (gid : string)
    (player : Role) (st : GameState.t) (flags : Flags) (n : Z) :
  store_ok s ->
  player_tokens s !! Move.token move = Some (gid, player) ->
  games s !! gid = Some st ->
  initial_moves_done s !! gid = Some flags ->
  flag_get flags player = true ->
  0 <= Move.x move <= 4 ∧ 0 <= Move.y move <= 4 ->
  let x := Z.to_nat (Move.x move) in
  let y := Z.to_nat (Move.y move) in
  grid_get (GameState.grid st) x y = Owned player n ->
  n <= 2 ->
  wave_boards (S fuel) 5 5 (grid_set (GameState.grid st) x y (Owned player (n + 1))) = [] ∧
  move_endpoint (S fuel) move s
  = Return (Ok, after_increment gid
                  (next_state st (grid_set (GameState.grid st) x y (Owned player (n + 1))) player)
                  s).
Proof.
  intros Hok Htok Hst Hfl Hflag Hin x y Hcell Hn.
  assert (off_board 5 5 (Move.x move) (Move.y move) = false) as Hoff
    by (apply off_board_false; lia).
  assert (at_rest 5 5 (grid_set (GameState.grid st) x y (Owned player (n + 1)))) as Hrest.
  { pose proof (grid_ok_get _ x y (proj1 (proj2 (proj1 Hok gid st Hst)))) as Hc.
    rewrite Hcell in Hc. simpl in Hc.
    apply board_ok_set; [apply (proj1 Hok gid st Hst) | by apply off_board_in_grid
                        | simpl; lia | simpl; lia]. }
  split; [by apply wave_boards_rest|].
  rewrite (move_endpoint_session (S fuel) move s gid player st flags) by done. cbv zeta.
  rewrite Hoff, Hflag. cbn [negb]. fold x y. rewrite Hcell. cbn [cell_owner cell_count].
  rewrite bool_decide_eq_false_2 by (intros Hne; by apply Hne).
  by rewrite reaction_loop_rest.
Qed.

Lemma X14_witness :
  wave_boards 1 5 5 (grid_set (GameState.grid red_opened_state) 2 2 (Owned RED (1 + 1))) = [] ∧
  move_endpoint 1 (Move.mk "red-token" 2 2) red_opened
  = Return (Ok, after_increment "g1"
                  (next_state red_opened_state
                     (grid_set (GameState.grid red_opened_state) 2 2 (Owned RED (1 + 1))) RED)
                  red_opened).
Proof.
  apply (X14_quiet_increment 0 (Move.mk "red-token" 2 2) red_opened "g1" RED
           red_opened_state (mkFlags true false) 1).
  - apply red_opened_ok.
  - reflexivity.
  - reflexivity.
  - reflexivity.
  - reflexivity.
  - simpl. lia.
  - reflexivity.
  - lia.
Defined.

(* ================================================================== *)
(** ** What every reachable storage looks like *)
(* ================================================================== *)

Lemma sessions_ok_ensure (gid : string) (s : Store) :
  sessions_ok s -> sessions_ok (ensure_game_initialized gid s).
Proof.
  intros (Hid & Hq & Hf). split; [|split].
  - intros gid' st. simpl. rewrite setdefault_lookup_decide.
    case_decide as Hk; [|apply Hid]. subst gid'.
    destruct (games s !! gid) as [st0|] eqn:Hst; simpl; intros [= <-]; [by apply Hid|done].
  - intros gid'. simpl. rewrite !setdefault_lookup_decide.
    case_decide; [split; eauto | apply Hq].
  - intros gid'. simpl. rewrite !setdefault_lookup_decide.
    case_decide; [split; eauto | apply Hf].
Qed.

Lemma sessions_ok_subscribers (s : Store) (f : list Queue -> list Queue) (gid : string) :
  sessions_ok s -> sessions_ok (set_subscribers s (alter f gid (subscribers s))).
Proof.
  intros (Hid & Hq & Hf). split; [done|]. split; [|done].
  intros gid'. simpl. rewrite lookup_alter_is_Some. apply Hq.
Qed.

Lemma step_sessions_ok (s s' : Store) :
  step s s' -> store_ok s -> sessions_ok s -> sessions_ok s'.
Proof.
  intros [gid token role s0 | gid s0 | gid i s0 | fuel move r s0 s1 Hrun] Hok Hs.
  - apply (sessions_ok_ensure gid) in Hs. destruct Hs as (Hid & Hq & Hf).
    split; [|split]; done.
  - by apply sessions_ok_subscribers, sessions_ok_ensure.
  - by apply sessions_ok_subscribers.
  - destruct (move_endpoint_shape fuel move r s0 s1 Hok Hrun)
      as [[_ ->]|[_ (gid & player & st & st' & fl & fl' & _ & Hst & Hfl & -> & Hid' & _)]];
      [done|].
    destruct Hs as (Hid & Hq & Hf). split; [|split].
    + intros gid' st0. simpl. destruct (decide (gid = gid')) as [<-|Hne].
      * rewrite lookup_insert_eq. intros [= <-]. rewrite Hid'. by apply Hid.
      * rewrite lookup_insert_ne by done. apply Hid.
    + intros gid'. simpl. rewrite lookup_alter_is_Some, <- Hq.
      destruct (decide (gid = gid')) as [<-|Hne].
      * rewrite lookup_insert_eq, Hst. split; eauto.
      * by rewrite lookup_insert_ne.
    + intros gid'. simpl. destruct (decide (gid = gid')) as [<-|Hne].
      * rewrite !lookup_insert_eq. split; eauto.
      * rewrite !lookup_insert_ne by done. apply Hf.
Qed.

Lemma reachable_sessions_ok (s : Store) : reachable s -> sessions_ok s.
Proof.
  unfold reachable. intros Hreach.
  assert (store_ok s ∧ sessions_ok s) as [_ ?]; [|done].
  eapply (rtc_ind_r (fun s0 => store_ok s0 ∧ sessions_ok s0)); [| | exact Hreach].
  - split; [apply store_ok_empty|].
    split; [|split]; intros *; simpl; rewrite ?lookup_empty; [done| |];
      split; intros [? ?]; done.
  - intros y z _ Hstep [Hok Hs]. split; [by eapply step_store_ok | by eapply step_sessions_ok].
Qed.

(** X15.  The shape of every storage the server can reach through token
    issue, stream open and close, and moves.  Every game is stored under
    its own id and comes with a subscriber list and a pair of opening flags;
    its board is 5 by 5; between two requests every owned cell holds 1, 2 or
    3 units (so no cell is at the critical mass and no owned cell is
    empty-handed); and every token names a session that exists. *)
Theorem X15_reachable_invariant (s : Store) :
  reachable s ->
  (∀ gid st, games s !! gid = Some st ->
     GameState.id st = gid ∧
     rect 5 5 (GameState.grid st) ∧
     (∀ x y o n, grid_get (GameState.grid st) x y = Owned o n -> 1 <= n <= 3) ∧
     is_Some (subscribers s !! gid) ∧
     is_Some (initial_moves_done s !! gid)) ∧
  (∀ tok gid role, player_tokens s !! tok = Some (gid, role) -> is_Some (games s !! gid)).
Proof.
  intros Hreach.
  pose proof (reachable_store_ok s Hreach) as [Hb Ht].
  pose proof (reachable_sessions_ok s Hreach) as (Hid & Hq & Hf).
  split.
  - intros gid st Hst. destruct (Hb gid st Hst) as (Hr & Hok & Hrest).
    split; [by apply Hid|]. split; [done|]. split; [|split].
    + intros x y o n Hcell.
      pose proof (grid_ok_get _ x y Hok) as Hc. rewrite Hcell in Hc. simpl in Hc.
      split; [done|].
      destruct (decide (x < 5)%nat) as [Hx|Hx]; [destruct (decide (y < 5)%nat) as [Hy|Hy]|].
      * pose proof (proj1 (scan_nil 5 5 _) Hrest x y Hx Hy) as Hlt.
        rewrite Hcell in Hlt. simpl in Hlt. lia.
      * exfalso. unfold grid_get in Hcell. destruct Hr as [Hh _].
        rewrite (lookup_ge_None_2 (GameState.grid st) y) in Hcell by lia. done.
      * exfalso. unfold grid_get in Hcell. destruct Hr as [_ Hw].
        destruct (GameState.grid st !! y) as [row|] eqn:Hrow; [|done].
        rewrite Forall_lookup in Hw. specialize (Hw y row Hrow).
        rewrite (lookup_ge_None_2 row x) in Hcell by lia. done.
    + apply Hq. eauto.
    + apply Hf. eauto.
  - intros tok gid role Htok. by destruct (Ht tok gid role Htok).
Qed.

Lemma X15_witness :
  (∀ gid st, games demo_store !! gid = Some st ->
     GameState.id st = gid ∧
     rect 5 5 (GameState.grid st) ∧
     (∀ x y o n, grid_get (GameState.grid st) x y = Owned o n -> 1 <= n <= 3) ∧
     is_Some (subscribers demo_store !! gid) ∧
     is_Some (initial_moves_done demo_store !! gid)) ∧
  (∀ tok gid role, player_tokens demo_store !! tok = Some (gid, role) ->
                   is_Some (games demo_store !! gid)).
Proof. apply (X15_reachable_invariant demo_store demo_store_reachable). Defined.

(* ================================================================== *)
(** ** Private rooms *)
(* ================================================================== *)

Lemma generate_room_code_spec (draws : list string) (codes : gmap string string) :
  (∀ code, generate_room_code draws codes = Return code ↔
     ∃ taken rest, draws = taken ++ code :: rest ∧
                   Forall (fun c => is_Some (codes !! c)) taken ∧
                   codes !! code = None) ∧
  (generate_room_code draws codes = Diverge ↔
     Forall (fun c => is_Some (codes !! c)) draws) ∧
  (∀ e, generate_room_code draws codes ≠ Raise e).
Proof.
  induction draws as [|d draws (IHr & IHd & IHe)].
  - split; [|split].
    + intros code. split; [done|]. intros (taken & rest & Heq & _). by destruct taken.
    + split; [constructor | done].
    + done.
  - simpl. destruct (codes !! d) as [g|] eqn:Hd.
    + split; [|split].
      * intros code. rewrite IHr. split.
        -- intros (taken & rest & -> & Hall & Hc). exists (d :: taken), rest.
           split; [done|]. split; [|done]. constructor; [by eauto | done].
        -- intros (taken & rest & Heq & Hall & Hc). destruct taken as [|t taken].
           ++ simpl in Heq. injection Heq as -> _. congruence.
           ++ simpl in Heq. injection Heq as -> ->. exists taken, rest.
              split; [done|]. split; [|done]. by inversion Hall.
      * rewrite IHd. split; [intros Hall; constructor; eauto | by inversion 1].
      * done.
    + split; [|split].
      * intros code. split.
        -- intros [= <-]. by exists [], draws.
        -- intros (taken & rest & Heq & Hall & Hc). destruct taken as [|t taken].
           ++ simpl in Heq. by injection Heq as -> _.
           ++ simpl in Heq. injection Heq as -> ->. inversion Hall as [|? ? [? Hs] _].
              congruence.
      * split; [done|]. inversion 1 as [|? ? [? Hs] _]. congruence.
      * done.
Qed.

(** X16.  [generate_room_code] returns a code exactly when that code is the
    first drawn code that is not registered: every code drawn before it is
    registered, the returned one is not.  It never raises, and it is still
    looping after the draws exactly when every drawn code was registered. *)
Theorem X16_generate_room_code (draws : list string) (codes : gmap string string) :
  (∀ code, generate_room_code draws codes = Return code ↔
     ∃ taken rest, draws = taken ++ code :: rest ∧
                   Forall (fun c => is_Some (codes !! c)) taken ∧
                   codes !! code = None) ∧
  (generate_room_code draws codes = Diverge ↔
     Forall (fun c => is_Some (codes !! c)) draws) ∧
  (∀ e, generate_room_code draws codes ≠ Raise e).
Proof. apply generate_room_code_spec. Qed.

Lemma create_room_inv (gid red_token : string) (draws : list string) (sv sv' : Server)
    (resp : RoomResponse) :
  create_room gid red_token draws sv = Return (resp, sv') ->
  ∃ code,
    generate_room_code draws (room_codes sv) = Return code ∧
    room_codes sv !! code = None ∧
    resp = Created gid code RED red_token ∧
    sv' = mkServer (issue_token gid red_token RED (store sv))
                   (<[code := gid]> (room_codes sv))
                   (waiting_player sv) (match_queues sv).
Proof.
  unfold create_room. intros Hrun.
  destruct (generate_room_code draws (room_codes sv)) as [code| |] eqn:Hgen;
    simpl in Hrun; [|done|done].
  injection Hrun as <- <-. exists code. split; [done|]. split; [|done].
  apply (proj1 (generate_room_code_spec draws (room_codes sv))) in Hgen
    as (_ & _ & _ & _ & Hfresh). done.
Qed.

Lemma issue_token_lookup (gid token : string) (role : Role) (s : Store) :
  player_tokens (issue_token gid token role s) !! token = Some (gid, role) ∧
  is_Some (games (issue_token gid token role s) !! gid) ∧
  is_Some (subscribers (issue_token gid token role s) !! gid) ∧
  is_Some (initial_moves_done (issue_token gid token role s) !! gid).
Proof.
  unfold issue_token. cbn [player_tokens games subscribers initial_moves_done].
  rewrite lookup_insert_eq.
  change (Some (gid, role) = Some (gid, role) ∧
          is_Some (games (ensure_game_initialized gid s) !! gid) ∧
          is_Some (subscribers (ensure_game_initialized gid s) !! gid) ∧
          is_Some (initial_moves_done (ensure_game_initialized gid s) !! gid)).
  rewrite ensure_games, ensure_subscribers, ensure_flags. eauto.
Qed.

Lemma issue_token_existing (gid token : string) (role : Role) (s : Store) :
  is_Some (games s !! gid) -> is_Some (subscribers s !! gid) ->
  is_Some (initial_moves_done s !! gid) ->
  issue_token gid token role s = set_token token gid role s.
Proof.
  intros Hg Hq Hf. unfold issue_token. by rewrite (ensure_game_initialized_id gid s Hg Hq Hf).
Qed.

(** X17.  A call of [create_room] that returns answers with the session id,
    the role RED, the token and a room code that was not registered before.
    It binds that code to the session and leaves every other code bound as
    it was; on the storage of the games it ensures the session and records
    the token for RED; it does not touch the matchmaking slot. *)
Theorem X17_create_room (gid red_token : string) (draws : list string) (sv sv' : Server)
    (resp : RoomResponse) :
  create_room gid red_token draws sv = Return (resp, sv') ->
  ∃ code,
    resp = Created gid code RED red_token ∧
    room_codes sv !! code = None ∧
    room_codes sv' !! code = Some gid ∧
    (∀ c g, room_codes sv !! c = Some g -> room_codes sv' !! c = Some g) ∧
    (∀ c, c ≠ code -> room_codes sv' !! c = room_codes sv !! c) ∧
    store sv' = issue_token gid red_token RED (store sv) ∧
    player_tokens (store sv') !! red_token = Some (gid, RED) ∧
    is_Some (games (store sv') !! gid) ∧
    waiting_player sv' = waiting_player sv ∧
    match_queues sv' = match_queues sv.
Proof.
  intros Hrun. apply create_room_inv in Hrun as (code & _ & Hfresh & -> & ->).
  exists code. cbn [room_codes store waiting_player match_queues].
  split; [done|]. split; [done|]. split; [by rewrite lookup_insert_eq|].
  split.
  { intros c g Hc. rewrite lookup_insert_ne; [done|]. intros <-. congruence. }
  split; [intros c Hne; by rewrite lookup_insert_ne|].
  split; [done|].
  destruct (issue_token_lookup gid red_token RED (store sv)) as (? & ? & _).
  done.
Qed.

Lemma room_server_run :
  create_room "g2" "t2" ["ABCD"] empty_server = Return (Created "g2" "ABCD" RED "t2", room_server).
Proof. reflexivity. Qed.

Lemma X17_witness :
  ∃ code,
    Created "g2" "ABCD" RED "t2" = Created "g2" code RED "t2" ∧
    room_codes empty_server !! code = None ∧
    room_codes room_server !! code = Some "g2" ∧
    (∀ c g, room_codes empty_server !! c = Some g -> room_codes room_server !! c = Some g) ∧
    (∀ c, c ≠ code -> room_codes room_server !! c = room_codes empty_server !! c) ∧
    store room_server = issue_token "g2" "t2" RED (store empty_server) ∧
    player_tokens (store room_server) !! "t2" = Some ("g2", RED) ∧
    is_Some (games (store room_server) !! "g2") ∧
    waiting_player room_server = waiting_player empty_server ∧
    match_queues room_server = match_queues empty_server.
Proof.
  apply (X17_create_room "g2" "t2" ["ABCD"] empty_server room_server
           (Created "g2" "ABCD" RED "t2")).
  apply room_server_run.
Defined.

Lemma join_room_found (upper : string -> string) (blue_token code gid : string) (sv : Server) :
  room_codes sv !! upper code = Some gid -> gid ≠ "" ->
  join_room upper blue_token code sv
  = (Joined gid BLUE blue_token, set_store sv (issue_token gid blue_token BLUE (store sv))).
Proof.
  intros Hc Hne. unfold join_room. rewrite Hc.
  by rewrite bool_decide_eq_false_2.
Qed.

(** X18.  [join_room] answers 404 exactly when the code, once put in upper
    case, is not registered (or is registered to the empty id), and then it
    has changed nothing; in every other case it answers with the session of
    the code and the role BLUE. *)
Theorem X18_join_room_not_found (upper : string -> string) (blue_token code : string)
    (sv : Server) :
  ((∃ detail, (join_room upper blue_token code sv).1 = HTTP404 detail) ↔
     room_codes sv !! upper code = None ∨ room_codes sv !! upper code = Some "") ∧
  (room_codes sv !! upper code = None ∨ room_codes sv !! upper code = Some "" ->
   join_room upper blue_token code sv = (HTTP404 "Room not found", sv)) ∧
  (∀ gid, room_codes sv !! upper code = Some gid -> gid ≠ "" ->
     (join_room upper blue_token code sv).1 = Joined gid BLUE blue_token).
Proof.
  assert (room_codes sv !! upper code = None ∨ room_codes sv !! upper code = Some "" ->
          join_room upper blue_token code sv = (HTTP404 "Room not found", sv)) as Hnf.
  { unfold join_room. intros [-> | ->]; [done|]. by rewrite bool_decide_eq_true_2. }
  split; [|split; [done|]].
  - split.
    + intros [detail Hd]. destruct (room_codes sv !! upper code) as [gid|] eqn:Hc; [|by left].
      destruct (decide (gid = "")) as [->|Hne]; [by right|].
      rewrite (join_room_found upper blue_token code gid sv Hc Hne) in Hd. done.
    + intros H. rewrite (Hnf H). eauto.
  - intros gid Hc Hne. by rewrite (join_room_found upper blue_token code gid sv Hc Hne).
Qed.

(** X19.  Round trip of a private room.  After [create_room] has answered
    with a code for a session with a non-empty id, [join_room] with any
    spelling that [upper] maps to that code answers with the same session
    and the role BLUE, and records the token for BLUE.  RED's token stays
    valid, the room codes are as after the creation (the code is not used
    up), and the games, flags and queues are as after the creation: joining
    resets nothing. *)
Theorem X19_create_then_join (upper : string -> string) (gid red_token blue_token : string)
    (draws : list string) (code code' : string) (sv sv1 : Server) :
  create_room gid red_token draws sv = Return (Created gid code RED red_token, sv1) ->
  gid ≠ "" -> upper code' = code -> blue_token ≠ red_token ->
  ∃ sv2,
    join_room upper blue_token code' sv1 = (Joined gid BLUE blue_token, sv2) ∧
    player_tokens (store sv2) !! red_token = Some (gid, RED) ∧
    player_tokens (store sv2) !! blue_token = Some (gid, BLUE) ∧
    room_codes sv2 = room_codes sv1 ∧
    games (store sv2) = games (store sv1) ∧
    subscribers (store sv2) = subscribers (store sv1) ∧
    initial_moves_done (store sv2) = initial_moves_done (store sv1).
Proof.
  intros Hcreate Hgid Hup Htok.
  apply create_room_inv in Hcreate as (code0 & _ & _ & [= <-] & ->).
  eexists. split.
  { apply join_room_found; [|done]. cbn [room_codes]. by rewrite Hup, lookup_insert_eq. }
  cbn [store set_store room_codes].
  destruct (issue_token_lookup gid red_token RED (store sv)) as (Hred & Hg & Hq & Hf).
  rewrite (issue_token_existing gid blue_token BLUE _ Hg Hq Hf).
  cbn [set_token player_tokens games subscribers initial_moves_done].
  split; [by rewrite lookup_insert_ne|]. split; [by rewrite lookup_insert_eq|]. done.
Qed.

Lemma X19_witness :
  ∃ sv2,
    join_room string_upper "t3" "abcd" room_server = (Joined "g2" BLUE "t3", sv2) ∧
    player_tokens (store sv2) !! "t2" = Some ("g2", RED) ∧
    player_tokens (store sv2) !! "t3" = Some ("g2", BLUE) ∧
    room_codes sv2 = room_codes room_server ∧
    games (store sv2) = games (store room_server) ∧
    subscribers (store sv2) = subscribers (store room_server) ∧
    initial_moves_done (store sv2) = initial_moves_done (store room_server).
Proof.
  apply (X19_create_then_join string_upper "g2" "t2" "t3" ["ABCD"] "ABCD" "abcd"
           empty_server room_server).
  - apply room_server_run.
  - discriminate.
  - reflexivity.
  - discriminate.
Defined.

(** X20.  A room code is not used up and not tied to one player: as long as
    it is registered to a session with a non-empty id, every [join_room]
    with it succeeds, so two joins in a row give two different tokens the
    role BLUE in the same session, and both tokens stay valid. *)
Theorem X20_join_room_twice (upper : string -> string) (t1 t2 code gid : string) (sv : Server) :
  room_codes sv !! upper code = Some gid -> gid ≠ "" -> t1 ≠ t2 ->
  ∃ sv1 sv2,
    join_room upper t1 code sv = (Joined gid BLUE t1, sv1) ∧
    join_room upper t2 code sv1 = (Joined gid BLUE t2, sv2) ∧
    player_tokens (store sv2) !! t1 = Some (gid, BLUE) ∧
    player_tokens (store sv2) !! t2 = Some (gid, BLUE) ∧
    room_codes sv2 = room_codes sv.
Proof.
  intros Hc Hgid Hne. eexists _, _.
  split; [by apply join_room_found|].
  split; [by apply join_room_found|].
  cbn [store set_store room_codes]. unfold issue_token, ensure_game_initialized.
  cbn [player_tokens]. rewrite lookup_insert_ne by done.
  by rewrite !lookup_insert_eq.
Qed.

Lemma X20_witness :
  ∃ sv1 sv2,
    join_room string_upper "t3" "AbCd" room_server = (Joined "g2" BLUE "t3", sv1) ∧
    join_room string_upper "t4" "AbCd" sv1 = (Joined "g2" BLUE "t4", sv2) ∧
    player_tokens (store sv2) !! "t3" = Some ("g2", BLUE) ∧
    player_tokens (store sv2) !! "t4" = Some ("g2", BLUE) ∧
    room_codes sv2 = room_codes room_server.
Proof.
  apply (X20_join_room_twice string_upper "t3" "t4" "AbCd" "g2" room_server).
  - reflexivity.
  - discriminate.
  - discriminate.
Defined.

(* ================================================================== *)
(** ** The whole server *)
(* ================================================================== *)

Lemma games_grow_step (s s' : Store) (gid : string) :
  step s s' -> store_ok s -> is_Some (games s !! gid) -> is_Some (games s' !! gid).
Proof.
  intros [gid0 token role s0 | gid0 s0 | gid0 i s0 | fuel move r s0 s1 Hrun] Hok [st Hst].
  - exists st. by apply (setdefault_lookup_Some gid0 gid).
  - exists st. by apply (setdefault_lookup_Some gid0 gid).
  - by exists st.
  - destruct (move_endpoint_shape fuel move r s0 s1 Hok Hrun)
      as [[_ ->]|[_ (g & p & st0 & st' & fl & fl' & _ & _ & _ & -> & _)]]; [by exists st|].
    simpl. apply lookup_insert_is_Some'. right. by exists st.
Qed.

Lemma games_grow (s s' : Store) (gid : string) :
  rtc step s s' -> store_ok s -> is_Some (games s !! gid) -> is_Some (games s' !! gid).
Proof.
  induction 1 as [|s1 s2 s3 Hstep _ IH]; intros Hok Hs; [done|].
  apply IH; [by eapply step_store_ok | by eapply games_grow_step].
Qed.

Lemma matched_store (gid red_token blue_token : string) (s : Store) :
  set_token blue_token gid BLUE (set_token red_token gid RED (ensure_game_initialized gid s))
  = issue_token gid blue_token BLUE (issue_token gid red_token RED s).
Proof.
  destruct (issue_token_lookup gid red_token RED s) as (_ & Hg & Hq & Hf).
  by rewrite (issue_token_existing gid blue_token BLUE _ Hg Hq Hf).
Qed.

(** On the storage of the games, every step of the server is a sequence of
    the steps of [step]. *)
Lemma server_step_store (sv sv' : Server) :
  server_step sv sv' -> rtc step (store sv) (store sv').
Proof.
  intros [gid token draws resp sv0 sv1 Hrun | upper token code sv0
         | q pid gid tr tb sv0 | sv0 | q sv0 | q sv0 | gid sv0 | gid i sv0
         | fuel move r s' sv0 Hrun].
  - apply create_room_inv in Hrun as (code & _ & _ & _ & ->). simpl.
    apply rtc_once, step_issue.
  - unfold join_room. destruct (room_codes sv0 !! upper code) as [gid|]; [|apply rtc_refl].
    case_bool_decide; [apply rtc_refl|]. simpl. apply rtc_once, (step_issue gid token BLUE).
  - unfold matchmake_start. destruct (waiting_player sv0); [|apply rtc_refl].
    cbn [snd store]. rewrite matched_store.
    eapply rtc_l; [apply (step_issue gid tr RED)|]. apply rtc_once, step_issue.
  - apply rtc_refl.
  - unfold matchmake_poll. destruct (default [] _); apply rtc_refl.
  - unfold matchmake_close. case_bool_decide; apply rtc_refl.
  - apply rtc_once, step_stream.
  - apply rtc_once, step_close.
  - simpl. by eapply rtc_once, step_move.
Qed.

Lemma server_step_codes (sv sv' : Server) (code gid : string) :
  server_step sv sv' -> room_codes sv' !! code = Some gid ->
  room_codes sv !! code = Some gid ∨ is_Some (games (store sv') !! gid).
Proof.
  intros [gid0 token draws resp sv0 sv1 Hrun | upper token code0 sv0
         | q pid gid0 tr tb sv0 | sv0 | q sv0 | q sv0 | gid0 sv0 | gid0 i sv0
         | fuel move r s' sv0 Hrun] Hc; try (by left).
  - apply create_room_inv in Hrun as (c & _ & _ & _ & ->). simpl in *.
    destruct (decide (c = code)) as [->|Hne].
    + rewrite lookup_insert_eq in Hc. injection Hc as <-. right.
      by destruct (issue_token_lookup gid0 token RED (store sv0)) as (_ & ? & _).
    + rewrite lookup_insert_ne in Hc by done. by left.
  - left. unfold join_room in Hc. destruct (room_codes sv0 !! upper code0); [|done].
    by case_bool_decide.
  - left. unfold matchmake_start in Hc. by destruct (waiting_player sv0).
  - left. unfold matchmake_poll in Hc. by destruct (default [] _).
  - left. unfold matchmake_close in Hc. by case_bool_decide.
Qed.

(** X21.  The whole server keeps the storage of the games within the
    storages reachable by token issue, stream open and close, and moves:
    whatever sequence of room creations, joins, matchmaking streams, game
    streams and moves has run, the storage satisfies everything proved of
    reachable storages.  Moreover every registered room code names a session
    that exists. *)
Theorem X21_server_reachable (sv : Server) :
  server_reachable sv ->
  reachable (store sv) ∧
  ∀ code gid, room_codes sv !! code = Some gid -> is_Some (games (store sv) !! gid).
Proof.
  unfold server_reachable. intros Hreach.
  eapply (rtc_ind_r (fun sv0 => reachable (store sv0) ∧
            ∀ code gid, room_codes sv0 !! code = Some gid ->
                        is_Some (games (store sv0) !! gid)));
    [| | exact Hreach].
  - split; [apply rtc_refl|]. intros code gid. simpl. by rewrite lookup_empty.
  - intros sv1 sv2 _ Hstep [Hr Hcodes].
    pose proof (server_step_store sv1 sv2 Hstep) as Hst.
    split; [unfold reachable in *; by etrans|].
    intros code gid Hc.
    destruct (server_step_codes sv1 sv2 code gid Hstep Hc) as [Hold|Hnew]; [|done].
    apply (games_grow (store sv1)); [done | by apply reachable_store_ok | by eapply Hcodes].
Qed.

Lemma X21_witness :
  reachable (store room_server) ∧
  ∀ code gid, room_codes room_server !! code = Some gid ->
              is_Some (games (store room_server) !! gid).
Proof.
  apply (X21_server_reachable room_server).
  unfold server_reachable. apply rtc_once.
  apply (sstep_create "g2" "t2" ["ABCD"] (Created "g2" "ABCD" RED "t2")).
  apply room_server_run.
Defined.

(* ================================================================== *)
(** ** Matchmaking *)
(* ================================================================== *)

(** X22.  Two players are paired.  With nobody waiting, the first stream
    stores its queue in the slot and sends the waiting message, leaving the
    games untouched.  The stream that comes next is sent the matched message
    for BLUE, and the matched message for RED, for the same new session, is
    put on the queue of the first; once the second stream has resumed the
    slot is free, the first stream reads its message from its queue, the two
    tokens are valid for their roles and the session exists. *)
Theorem X22_matchmaking_pairs (qa qb : nat)
    (pa pb ga ra ba gid red_token blue_token : string) (sv : Server) :
  waiting_player sv = None ->
  match_queues sv !! qa = None ->
  red_token ≠ blue_token ->
  let r1 := matchmake_start qa pa ga ra ba sv in
  let r2 := matchmake_start qb pb gid red_token blue_token r1.2 in
  let r3 := matchmake_resume r2.2 in
  let r4 := matchmake_poll qa r3.2 in
  r1.1 = (Waiting pa, InLoop) ∧
  waiting_player r1.2 = Some qa ∧
  store r1.2 = store sv ∧
  r2.1 = (Matched gid BLUE blue_token, AtMatched) ∧
  r4.1 = Matched gid RED red_token ∧
  waiting_player r4.2 = None ∧
  match_queues r4.2 !! qa = Some [] ∧
  player_tokens (store r4.2) !! red_token = Some (gid, RED) ∧
  player_tokens (store r4.2) !! blue_token = Some (gid, BLUE) ∧
  is_Some (games (store r4.2) !! gid) ∧
  room_codes r4.2 = room_codes sv.
Proof.
  intros Hw Hq Hne. cbv zeta.
  assert (matchmake_start qa pa ga ra ba sv
          = (Waiting pa, InLoop, set_waiting_player sv (Some qa))) as ->
    by (unfold matchmake_start; by rewrite Hw).
  cbn [fst snd].
  assert (matchmake_start qb pb gid red_token blue_token (set_waiting_player sv (Some qa))
          = (Matched gid BLUE blue_token, AtMatched,
             mkServer (set_token blue_token gid BLUE
                         (set_token red_token gid RED (ensure_game_initialized gid (store sv))))
                      (room_codes sv) (Some qa)
                      (<[qa := [Matched gid RED red_token]]> (match_queues sv)))) as ->.
  { unfold matchmake_start, match_put. simpl. by rewrite Hq. }
  cbn [fst snd]. unfold matchmake_resume, matchmake_poll.
  cbn [fst snd set_waiting_player waiting_player store match_queues room_codes].
  rewrite lookup_insert_eq.
  cbn [default from_option id fst snd waiting_player match_queues store room_codes].
  do 6 (split; [done|]).
  split; [by rewrite lookup_insert_eq|].
  unfold set_token. cbn [player_tokens games].
  rewrite lookup_insert_ne by done. rewrite !lookup_insert_eq.
  do 2 (split; [done|]). split; [|done].
  change (is_Some (games (ensure_game_initialized gid (store sv)) !! gid)).
  rewrite ensure_games. eauto.
Qed.

Lemma X22_witness :
  (matchmake_start 1 "p1" "" "" "" empty_server).1 = (Waiting "p1", InLoop) ∧
  waiting_player waiting_server = Some 1%nat ∧
  store waiting_server = store empty_server ∧
  (matchmake_start 2 "p2" "g3" "t5" "t6" waiting_server).1 = (Matched "g3" BLUE "t6", AtMatched) ∧
  (matchmake_poll 1
     (matchmake_resume (matchmake_start 2 "p2" "g3" "t5" "t6" waiting_server).2).2).1
    = Matched "g3" RED "t5" ∧
  waiting_player matched_server = None ∧
  match_queues matched_server !! 1%nat = Some [] ∧
  player_tokens (store matched_server) !! "t5" = Some ("g3", RED) ∧
  player_tokens (store matched_server) !! "t6" = Some ("g3", BLUE) ∧
  is_Some (games (store matched_server) !! "g3") ∧
  room_codes matched_server = room_codes empty_server.
Proof.
  apply (X22_matchmaking_pairs 1 2 "p1" "p2" "" "" "" "g3" "t5" "t6" empty_server).
  - reflexivity.
  - reflexivity.
  - discriminate.
Defined.

(** X23.  A waiting player that leaves frees the slot: with nobody waiting
    before, opening a matchmaking stream and closing it gives back the
    server as it was.  The close of any other stream leaves the waiting
    player in the slot. *)
Theorem X23_waiting_player_leaves (qa q : nat) (pa ga ra ba : string) (sv : Server) :
  waiting_player sv = None ->
  matchmake_close qa (matchmake_start qa pa ga ra ba sv).2 = sv ∧
  (q ≠ qa ->
   matchmake_close q (matchmake_start qa pa ga ra ba sv).2
   = (matchmake_start qa pa ga ra ba sv).2).
Proof.
  intros Hw. unfold matchmake_start. rewrite Hw. cbn [snd]. unfold matchmake_close.
  cbn [waiting_player set_waiting_player]. split.
  - rewrite bool_decide_eq_true_2 by done. destruct sv. simpl in *. by subst.
  - intros Hne. rewrite bool_decide_eq_false_2; [done|]. congruence.
Qed.

Lemma X23_witness :
  matchmake_close 1 (matchmake_start 1 "p1" "" "" "" empty_server).2 = empty_server ∧
  (2%nat ≠ 1%nat ->
   matchmake_close 2 (matchmake_start 1 "p1" "" "" "" empty_server).2
   = (matchmake_start 1 "p1" "" "" "" empty_server).2).
Proof. apply (X23_waiting_player_leaves 1 2 "p1" "" "" "" empty_server). reflexivity. Defined.

(** X24.  The slot is released by the matched stream only when it resumes
    after its first message.  If that stream is closed while it is still
    suspended there, its [finally] compares the slot with its own queue and
    leaves the first player in the slot, although that player has been
    matched; the stream that comes next is then matched with the same first
    player, whose queue receives a second matched message for another
    session. *)
Theorem X24_slot_after_early_close (qa qb qc : nat)
    (pb pc gid red_token blue_token gid' red_token' blue_token' : string) (sv : Server) :
  waiting_player sv = Some qa ->
  qb ≠ qa ->
  let r1 := matchmake_start qb pb gid red_token blue_token sv in
  let closed := matchmake_close qb r1.2 in
  let r2 := matchmake_start qc pc gid' red_token' blue_token' closed in
  r1.1 = (Matched gid BLUE blue_token, AtMatched) ∧
  waiting_player (matchmake_resume r1.2).2 = None ∧
  waiting_player closed = Some qa ∧
  r2.1 = (Matched gid' BLUE blue_token', AtMatched) ∧
  match_queues r2.2 !! qa
  = Some (default [] (match_queues sv !! qa)
          ++ [Matched gid RED red_token; Matched gid' RED red_token']).
Proof.
  intros Hw Hne. cbv zeta.
  assert (matchmake_start qb pb gid red_token blue_token sv
          = (Matched gid BLUE blue_token, AtMatched,
             mkServer (set_token blue_token gid BLUE
                         (set_token red_token gid RED (ensure_game_initialized gid (store sv))))
                      (room_codes sv) (Some qa)
                      (match_put qa (Matched gid RED red_token) (match_queues sv)))) as ->.
  { unfold matchmake_start. by rewrite Hw. }
  cbn [fst snd]. split; [done|]. split; [done|].
  unfold matchmake_close. cbn [waiting_player].
  rewrite bool_decide_eq_false_2 by congruence.
  split; [done|]. unfold matchmake_start. cbn [waiting_player fst snd match_queues].
  split; [done|]. unfold match_put. rewrite !lookup_insert_eq.
  cbn [default from_option id]. by rewrite <- app_assoc.
Qed.

Lemma X24_witness :
  (matchmake_start 2 "p2" "g3" "t5" "t6" waiting_server).1
    = (Matched "g3" BLUE "t6", AtMatched) ∧
  waiting_player
    (matchmake_resume (matchmake_start 2 "p2" "g3" "t5" "t6" waiting_server).2).2 = None ∧
  waiting_player
    (matchmake_close 2 (matchmake_start 2 "p2" "g3" "t5" "t6" waiting_server).2) = Some 1%nat ∧
  (matchmake_start 3 "p3" "g4" "t7" "t8"
     (matchmake_close 2 (matchmake_start 2 "p2" "g3" "t5" "t6" waiting_server).2)).1
    = (Matched "g4" BLUE "t8", AtMatched) ∧
  match_queues
    (matchmake_start 3 "p3" "g4" "t7" "t8"
       (matchmake_close 2 (matchmake_start 2 "p2" "g3" "t5" "t6" waiting_server).2)).2
    !! 1%nat
  = Some (default [] (match_queues waiting_server !! 1%nat)
          ++ [Matched "g3" RED "t5"; Matched "g4" RED "t7"]).
Proof.
  apply (X24_slot_after_early_close 1 2 3 "p2" "p3" "g3" "t5" "t6" "g4" "t7" "t8"
           waiting_server).
  - reflexivity.
  - discriminate.
Defined.

(* ================================================================== *)
(** ** Game streams *)
(* ================================================================== *)

Lemma stream_game_existing (gid : string) (s : Store) (qs : list Queue) :
  is_Some (games s !! gid) -> subscribers s !! gid = Some qs ->
  is_Some (initial_moves_done s !! gid) ->
  stream_game gid s = set_subscribers s (<[gid := qs ++ [[]]]> (subscribers s)).
Proof.
  intros Hg Hq Hf. unfold stream_game.
  rewrite (ensure_game_initialized_id gid s Hg) by eauto.
  f_equal. apply map_eq. intros k. destruct (decide (gid = k)) as [<-|Hne].
  - by rewrite lookup_alter_eq, lookup_insert_eq, Hq.
  - by rewrite lookup_alter_ne, lookup_insert_ne.
Qed.

(** X25.  A stream opened on a session is served by the moves that follow.
    Opening a stream adds one empty queue behind the queues of the session
    and changes nothing else of an existing session; after the next accepted
    move of that session the new queue holds exactly the published state,
    and every older queue has received the same state behind what it held. *)
Theorem X25_stream_then_move (fuel : nat) (move : Move.t) (s s' : Store) (gid : string)
    (player : Role) (qs : list Queue) :
  store_ok s ->
  player_tokens s !! Move.token move = Some (gid, player) ->
  subscribers s !! gid = Some qs ->
  move_endpoint fuel move (stream_game gid s) = Return (Ok, s') ->
  games (stream_game gid s) = games s ∧
  initial_moves_done (stream_game gid s) = initial_moves_done s ∧
  subscribers (stream_game gid s) !! gid = Some (qs ++ [[]]) ∧
  ∃ st', games s' !! gid = Some st' ∧
         subscribers s' !! gid = Some (((fun q : Queue => q ++ [st']) <$> qs) ++ [[st']]).
Proof.
  intros Hok Htok Hqs Hrun.
  destruct (proj2 Hok _ gid player Htok) as (Hg & _ & Hf).
  rewrite (stream_game_existing gid s qs Hg Hqs Hf) in *.
  cbn [games initial_moves_done subscribers set_subscribers].
  split; [done|]. split; [done|]. split; [by rewrite lookup_insert_eq|].
  assert (store_ok (set_subscribers s (<[gid := qs ++ [[]]]> (subscribers s)))) as Hok1.
  { rewrite <- (stream_game_existing gid s qs Hg Hqs Hf). by apply store_ok_stream_game. }
  destruct (move_endpoint_shape fuel move Ok _ s' Hok1 Hrun)
    as [[Hne _]|[_ (g & p & st & st' & fl & fl' & Htok' & _ & _ & -> & _)]]; [done|].
  cbn [player_tokens set_subscribers] in Htok'.
  assert (g = gid) as -> by congruence.
  exists st'. cbn [games subscribers set_subscribers].
  split; [by rewrite lookup_insert_eq|].
  rewrite lookup_alter_eq, lookup_insert_eq. simpl. by rewrite fmap_app.
Qed.

Lemma X25_witness :
  games (stream_game "g1" demo_store) = games demo_store ∧
  initial_moves_done (stream_game "g1" demo_store) = initial_moves_done demo_store ∧
  subscribers (stream_game "g1" demo_store) !! "g1" = Some ([[]] ++ [[]]) ∧
  ∃ st', games
           (after_opening "g1" RED (mkFlags false false) red_opened_state
              (stream_game "g1" demo_store)) !! "g1" = Some st' ∧
         subscribers
           (after_opening "g1" RED (mkFlags false false) red_opened_state
              (stream_game "g1" demo_store)) !! "g1"
         = Some (((fun q : Queue => q ++ [st']) <$> [[]]) ++ [[st']]).
Proof.
  apply (X25_stream_then_move 0 (Move.mk "red-token" 2 2) demo_store
           (after_opening "g1" RED (mkFlags false false) red_opened_state
              (stream_game "g1" demo_store)) "g1" RED [[]]).
  - apply demo_store_ok.
  - reflexivity.
  - reflexivity.
  - rewrite (move_endpoint_session 0 _ (stream_game "g1" demo_store) "g1" RED
               (new_game "g1") (mkFlags false false));
      [reflexivity | apply store_ok_stream_game, demo_store_ok
      | reflexivity | reflexivity | reflexivity].
Defined.

(** X26.  Opening a stream on an existing session and closing it again
    leaves the storage as it was: the queue added behind the others is the
    one removed, and the other queues keep their place and content. *)
Theorem X26_stream_open_close (gid : string) (s : Store) (qs : list Queue) :
  is_Some (games s !! gid) ->
  subscribers s !! gid = Some qs ->
  is_Some (initial_moves_done s !! gid) ->
  stream_close gid (length qs) (stream_game gid s) = s.
Proof.
  intros Hg Hq Hf. rewrite (stream_game_existing gid s qs Hg Hq Hf).
  unfold stream_close, set_subscribers. simpl.
  assert (alter (delete (length qs)) gid (<[gid := qs ++ [[]]]> (subscribers s))
          = subscribers s) as ->; [|by destruct s].
  apply map_eq. intros k. destruct (decide (gid = k)) as [<-|Hne].
  - rewrite lookup_alter_eq, lookup_insert_eq, Hq. simpl. f_equal.
    clear. induction qs as [|q qs IH]; [done|]. simpl. by rewrite IH.
  - by rewrite lookup_alter_ne, lookup_insert_ne.
Qed.

Lemma X26_witness : stream_close "g1" (length [[] : Queue]) (stream_game "g1" demo_store) = demo_store.
Proof.
  apply (X26_stream_open_close "g1" demo_store [[]]).
  - by eexists.
  - reflexivity.
  - by eexists.
Defined.

(* ================================================================== *)
(** ** What a move does to the board *)
(* ================================================================== *)

Section colour.
Context (w h : nat).
Implicit Types (g : Grid) (o : Role) (par : bool).

Lemma uniform_scan par o g :
  uniform w h par o g ->
  Forall (fun e => in_grid w h (pos e) ∧
                   Nat.even ((pos e).1 + (pos e).2) = par ∧ blast_owner e = o)
         (scan g w h).
Proof.
  intros Hu. apply Forall_forall. intros [[a b] o0] He.
  apply elem_of_scan in He as (Ha & Hb & m & Hg & Hm).
  destruct (Hu a b o0 m Ha Hb Hg Hm) as [Hp ->]. by repeat split.
Qed.

(** During a cascade in which all critical cells have the owner [o], a
    cell is as at the start, or empty, or owned by [o]. *)
Lemma reaction_loop_colour fuel par o g g' :
  rect w h g -> uniform w h par o g ->
  reaction_loop fuel w h g = Return g' ->
  ∀ a b, grid_get g' a b = grid_get g a b ∨ grid_get g' a b = Empty ∨
         ∃ n, grid_get g' a b = Owned o n.
Proof.
  revert par g. induction fuel as [|fuel IH]; intros par g Hr Hu Hrun a b; [done|].
  destruct (decide (scan g w h = [])) as [Hnil|Hne].
  - rewrite reaction_loop_rest in Hrun by done. injection Hrun as <-. by left.
  - rewrite reaction_loop_step in Hrun by done.
    destruct (IH (negb par) (wave w h g) (rect_wave w h g Hr) (uniform_wave w h par o g Hr Hu)
                Hrun a b) as [Hsame|[Hempty|Hown]]; [|by right; left|by right; right].
    rewrite Hsame.
    destruct (explode_all_cases w h par o g (scan g w h) Hr (uniform_scan par o g Hu) a b)
      as [?|[?|[_ ?]]]; eauto.
Qed.

Lemma mass_wave_le g : rect w h g -> mass (wave w h g) <= mass g.
Proof.
  intros Hr. pose proof (scan_critical w h g) as Hcr.
  assert (mass (wave w h g)
          = mass g + edges w h (scan g w h) - cleared w h g (scan g w h)) as Hm.
  { apply mass_explode_all; [done|].
    destruct Hcr as [_ Hall]. eapply Forall_impl; [exact Hall|]. by intros e [? _]. }
  pose proof (cleared_critical w h g _ Hr Hcr).
  pose proof (edges_bound w h (scan g w h)). lia.
Qed.

Lemma reaction_loop_mass fuel g g' :
  rect w h g -> reaction_loop fuel w h g = Return g' -> mass g' <= mass g.
Proof.
  revert g. induction fuel as [|fuel IH]; intros g Hr Hrun; [done|].
  destruct (decide (scan g w h = [])) as [Hnil|Hne].
  - rewrite reaction_loop_rest in Hrun by done. injection Hrun as <-. lia.
  - rewrite reaction_loop_step in Hrun by done.
    pose proof (IH _ (rect_wave w h g Hr) Hrun). pose proof (mass_wave_le g Hr). lia.
Qed.
End colour.

Lemma mass_set (g : Grid) (x y : nat) (c : cell) :
  rect 5 5 g -> in_grid 5 5 (x, y) ->
  mass (grid_set g x y c) = mass g + (cell_count c - cell_count (grid_get g x y)).
Proof.
  intros Hr Hin. rewrite !mass_grid_sum, (grid_sum_set_rect 5 5) by done. lia.
Qed.

(** X27.  A move only ever spreads the mover's colour.  After an accepted
    move, opening or increment, with or without a cascade, every cell of the
    session's board is as it was before the move, or empty, or owned by the
    mover: no cell is handed to the other role, and no count of a cell of
    the other role changes while the cell stays with that role.  At the same
    time the total count of the board has grown by at most one unit. *)
Theorem X27_move_colour_and_mass (fuel : nat) (move : Move.t) (s s' : Store) (gid : string)
    (player : Role) (st : GameState.t) :
  store_ok s ->
  player_tokens s !! Move.token move = Some (gid, player) ->
  games s !! gid = Some st ->
  move_endpoint fuel move s = Return (Ok, s') ->
  ∃ st',
    games s' !! gid = Some st' ∧
    (∀ a b,
       grid_get (GameState.grid st') a b = grid_get (GameState.grid st) a b ∨
       grid_get (GameState.grid st') a b = Empty ∨
       ∃ n, grid_get (GameState.grid st') a b = Owned player n) ∧
    mass (GameState.grid st') <= mass (GameState.grid st) + 1.
Proof.
  intros Hok Htok Hst Hrun.
  destruct (token_session s _ gid player Hok Htok)
    as (_ & st0 & flags & row0 & Hst0 & Hfl & _).
  assert (st0 = st) as -> by congruence.
  destruct (proj1 Hok gid st Hst) as (Hr & Hgok & Hrest).
  rewrite (move_endpoint_session fuel move s gid player st flags) in Hrun by done.
  cbv zeta in Hrun.
  destruct (off_board 5 5 _ _) eqn:Hoff; [done|].
  apply off_board_in_grid in Hoff.
  set (x := Z.to_nat (Move.x move)) in *. set (y := Z.to_nat (Move.y move)) in *.
  destruct (negb (flag_get flags player)).
  - destruct (grid_get (GameState.grid st) x y) as [|o c] eqn:Hcell; simpl in Hrun; [|done].
    injection Hrun as <-. eexists. split; [simpl; by rewrite lookup_insert_eq|].
    cbn [next_state GameState.grid]. split.
    + intros a b. rewrite (grid_get_set 5 5) by (done || apply Hoff).
      case_decide; [right; right; eauto | by left].
    + rewrite mass_set by done. rewrite Hcell. simpl. lia.
  - case_bool_decide; [done|].
    destruct (reaction_loop fuel 5 5 _) as [g'| |] eqn:Hloop; simpl in Hrun; [|done|done].
    injection Hrun as <-. eexists. split; [simpl; by rewrite lookup_insert_eq|].
    cbn [next_state GameState.grid].
    set (g0 := grid_set _ _ _ _) in Hloop.
    assert (rect 5 5 g0) as Hr0 by (by apply rect_set).
    split.
    + intros a b.
      destruct (reaction_loop_colour 5 5 fuel (Nat.even (x + y)) player g0 g' Hr0
                  (uniform_after_write 5 5 _ x y player _ Hr Hoff Hrest) Hloop a b)
        as [Hsame|[?|?]]; [|by right; left|by right; right].
      rewrite Hsame. unfold g0. rewrite (grid_get_set 5 5) by (done || apply Hoff).
      case_decide; [right; right; eauto | by left].
    + pose proof (reaction_loop_mass 5 5 fuel g0 g' Hr0 Hloop) as Hm.
      unfold g0 in Hm. rewrite mass_set in Hm by done. simpl in Hm. lia.
Qed.

Lemma X27_witness :
  ∃ st',
    games burst_store !! "g1" = Some st' ∧
    (∀ a b,
       grid_get (GameState.grid st') a b = grid_get (GameState.grid primed_state) a b ∨
       grid_get (GameState.grid st') a b = Empty ∨
       ∃ n, grid_get (GameState.grid st') a b = Owned RED n) ∧
    mass (GameState.grid st') <= mass (GameState.grid primed_state) + 1.
Proof.
  apply (X27_move_colour_and_mass 2 (Move.mk "red-token" 2 2) primed_store burst_store
           "g1" RED primed_state).
  - apply primed_store_ok.
  - reflexivity.
  - reflexivity.
  - apply (burst_run 0).
Defined.

(* ================================================================== *)
(** ** Tokens and codes are for ever *)
(* ================================================================== *)

Lemma move_endpoint_tokens (fuel : nat) (move : Move.t) (r : Response) (s s' : Store) :
  move_endpoint fuel move s = Return (r, s') -> player_tokens s' = player_tokens s.
Proof.
  unfold move_endpoint. intros Hrun.
  destruct (player_tokens s !! Move.token move) as [[gid player]|]; [|by injection Hrun as _ <-].
  unfold mbind, result_bind, from_option, first_row in Hrun.
  repeat case_match; simplify_eq; try done.
  match goal with
  | H : process_reactions _ _ _ _ = Return _ |- _ =>
      apply process_reactions_inv in H as (? & ? & ? & _ & _ & _ & ->)
  end.
  done.
Qed.

Lemma server_step_keeps (sv sv' : Server) :
  server_step sv sv' ->
  (∀ tok, is_Some (player_tokens (store sv) !! tok) ->
          is_Some (player_tokens (store sv') !! tok)) ∧
  (∀ c g, room_codes sv !! c = Some g -> room_codes sv' !! c = Some g).
Proof.
  intros [gid token draws resp sv0 sv1 Hrun | upper token code sv0
         | q pid gid tr tb sv0 | sv0 | q sv0 | q sv0 | gid sv0 | gid i sv0
         | fuel move r s' sv0 Hrun].
  - apply create_room_inv in Hrun as (code & _ & Hfresh & _ & ->). simpl. split.
    + intros tok Hs. apply lookup_insert_is_Some'. by right.
    + intros c g Hc. rewrite lookup_insert_ne; [done|]. intros <-. congruence.
  - unfold join_room. destruct (room_codes sv0 !! upper code) as [gid|]; [|done].
    case_bool_decide; [done|]. simpl. split; [|done].
    intros tok Hs. apply lookup_insert_is_Some'. by right.
  - unfold matchmake_start. destruct (waiting_player sv0); [|done]. simpl. split; [|done].
    intros tok Hs. apply lookup_insert_is_Some'. right. apply lookup_insert_is_Some'. by right.
  - done.
  - unfold matchmake_poll. by destruct (default [] _).
  - unfold matchmake_close. by case_bool_decide.
  - done.
  - done.
  - simpl. by rewrite (move_endpoint_tokens fuel move r (store sv0) s' Hrun).
Qed.

(** X28.  Nothing the server does revokes a credential: along any sequence
    of handler runs, a token that is known stays known, and a room code
    that is registered stays bound to the same session. *)
Theorem X28_tokens_and_codes_persist (sv sv' : Server) :
  rtc server_step sv sv' ->
  (∀ tok, is_Some (player_tokens (store sv) !! tok) ->
          is_Some (player_tokens (store sv') !! tok)) ∧
  (∀ c g, room_codes sv !! c = Some g -> room_codes sv' !! c = Some g).
Proof.
  induction 1 as [|sv1 sv2 sv3 Hstep _ [IHt IHc]]; [done|].
  destruct (server_step_keeps sv1 sv2 Hstep) as [Ht Hc]. split; eauto.
Qed.

Lemma X28_witness :
  (∀ tok, is_Some (player_tokens (store room_server) !! tok) ->
          is_Some (player_tokens (store joined_server) !! tok)) ∧
  (∀ c g, room_codes room_server !! c = Some g -> room_codes joined_server !! c = Some g).
Proof.
  apply (X28_tokens_and_codes_persist room_server joined_server).
  apply rtc_once. apply (sstep_join string_upper "t3" "abcd" room_server).
Defined.
